(** * voxshift: the audio timeline core

    A shallow embedding of [src/audio/wav.ts] (the WAV container codec) and
    [src/audio/timeline.ts] (the linear resampler and the overlap-add
    timeline compositor), with the properties the specification states
    about them.

    Conventions of the embedding.
    - A Node [Buffer] is a [list byte]; offsets and lengths are [Z].
    - An [Int16Array] / [Int32Array] is a [list Z]; an element store wraps
      the way the typed array does ([ToInt16], [ToInt32]); reading outside
      the array gives [undefined], which is [None] here, and arithmetic on
      it gives [NaN], again [None].
    - JavaScript numbers that are known to be integers are [Z]. Numbers that
      carry fractions (seconds, the resampling ratio, averages) are exact
      rationals [Q]: the rounding error of IEEE doubles is outside this
      model.  Sample rates are integers, as in the WAV header.
    - A thrown exception is [Throw e]; [async] functions are run to
      completion, the file system is an explicit store.  Reading a file
      that is not in the store throws; making a directory, writing a file
      and allocating a typed array always succeed, and a call takes any
      number of arguments.
    - The model has exact products where the code rounds, and no limit on
      the stack.  The further properties of the resampler and of the
      compositor that would hinge on either are stated with a margin (to
      within one sample; for lists of segments that [Math.max] can take as
      arguments) or of the timelines that were mixed. *)

From Stdlib Require Import ZArith QArith Qround Qminmax Lia Lra Psatz List String Ascii Permutation.
From Stdlib.Strings Require Import Byte.
From stdpp Require Import base list gmap strings.

Close Scope Q_scope.
Open Scope Z_scope.

(** ** Exceptions *)

(** One constructor per [throw] site of the two source files, plus the
    exceptions the runtime raises on their behalf. *)
Inductive error : Type :=
| WavTooSmall      (* wav.ts:51  "Invalid WAV file (too small)" *)
| WavBadHeader     (* wav.ts:57  "Unsupported WAV header" *)
| WavNoDataChunk   (* wav.ts:88  "WAV data chunk not found" *)
| WavNot16Bit      (* wav.ts:92  "Only 16-bit PCM WAV is supported" *)
| NoSegments       (* timeline.ts:82 "No synthesized segments were provided." *)
| RangeError       (* runtime: Buffer read/write out of range, bad typed array offset or length *)
| FileNotFound     (* runtime: fs.readFile of a path that does not exist *)
| OutOfFuel.       (* the model's loop bound was too small; never returned, see [parseWav_never_out_of_fuel] *)

(** The error taxonomy of the specification (section 7). *)
Inductive errorKind : Type := InvalidContainer | UnsupportedFormat | EmptyInput.

Definition kindOf (e : error) : option errorKind :=
  match e with
  | WavTooSmall | WavBadHeader | WavNoDataChunk => Some InvalidContainer
  | WavNot16Bit => Some UnsupportedFormat
  | NoSegments => Some EmptyInput
  | RangeError | FileNotFound | OutOfFuel => None
  end.

Inductive result (A : Type) : Type :=
| Ok (a : A)
| Throw (e : error).
Arguments Ok {A} a.
Arguments Throw {A} e.

#[global] Instance result_ret : MRet result := fun A a => Ok a.
#[global] Instance result_bind : MBind result := fun A B k m =>
  match m with Ok a => k a | Throw e => Throw e end.

Definition failsWith {A} (r : result A) (k : errorKind) : Prop :=
  exists e, r = Throw e /\ kindOf e = Some k.

Definition succeeds {A} (r : result A) : Prop := exists a, r = Ok a.

(** ** The runtime: Math, Buffer, typed arrays *)

Module JS.

(** [Math.round]: to the nearest integer, ties toward plus infinity. *)
Definition Math_round (x : Q) : Z := Qfloor (x + (1 # 2))%Q.
Definition Math_floor (x : Q) : Z := Qfloor x.
Definition Math_ceil (x : Q) : Z := Qceiling x.

Definition len {A} (l : list A) : Z := Z.of_nat (length l).

(** [for (let i = start; <n more iterations>; i += 1) body] *)
Fixpoint forLoop {S : Type} (n : nat) (i : Z) (body : Z -> S -> S) (s : S) : S :=
  match n with
  | O => s
  | S n' => forLoop n' (i + 1) body (body i s)
  end.

(** *** Bytes *)

Definition Z_of_byte (b : byte) : Z := Z.of_N (Byte.to_N b).

(** Storing a number into a [Uint8Array] cell keeps its low eight bits. *)
Definition byte_of_Z (z : Z) : byte :=
  match Byte.of_N (Z.to_N (Z.land z 255)) with
  | Some b => b
  | None => x00
  end.

Definition slice (data : list byte) (s e : Z) : list byte :=
  take (Z.to_nat (e - s)) (drop (Z.to_nat s) data).

(** [buf.toString("ascii", s, e)]: decoding clears the high bit of every
    byte. *)
Definition ascii_of_masked (b : byte) : ascii :=
  ascii_of_N (Z.to_N (Z.land (Z_of_byte b) 127)).

Definition toStringAscii (data : list byte) (s e : Z) : string :=
  string_of_list_ascii (map ascii_of_masked (slice data s e)).

(** [target.write(value, offset, "ascii")] into a fresh zeroed field of the
    same width: one byte per character. *)
Definition writeString (value : string) : list byte :=
  map byte_of_ascii (list_ascii_of_string value).

Definition readUInt16LE (data : list byte) (offset : Z) : result Z :=
  if offset <? 0 then Throw RangeError else
  match slice data offset (offset + 2) with
  | [b0; b1] => Ok (Z_of_byte b0 + Z_of_byte b1 * 2 ^ 8)
  | _ => Throw RangeError
  end.

Definition readUInt32LE (data : list byte) (offset : Z) : result Z :=
  if offset <? 0 then Throw RangeError else
  match slice data offset (offset + 4) with
  | [b0; b1; b2; b3] =>
      Ok (Z_of_byte b0 + Z_of_byte b1 * 2 ^ 8 + Z_of_byte b2 * 2 ^ 16 + Z_of_byte b3 * 2 ^ 24)
  | _ => Throw RangeError
  end.

(** The integer writers check the value's range, then store it byte by
    byte, shifting right by eight bits in between. *)
Definition writeUInt16LE (value : Z) : result (list byte) :=
  if (value <? 0) || (65535 <? value) then Throw RangeError
  else Ok [byte_of_Z value; byte_of_Z (Z.shiftr value 8)].

Definition writeUInt32LE (value : Z) : result (list byte) :=
  if (value <? 0) || (4294967295 <? value) then Throw RangeError
  else Ok [byte_of_Z value; byte_of_Z (Z.shiftr value 8);
           byte_of_Z (Z.shiftr value 16); byte_of_Z (Z.shiftr value 24)].

Definition writeInt16LE (value : Z) : result (list byte) :=
  if (value <? -32768) || (32767 <? value) then Throw RangeError
  else Ok [byte_of_Z value; byte_of_Z (Z.shiftr value 8)].

(** *** Typed arrays *)

Definition ToInt16 (z : Z) : Z := (z + 32768) mod 65536 - 32768.
Definition ToInt32 (z : Z) : Z := (z + 2147483648) mod 4294967296 - 2147483648.

Definition int16 (z : Z) : Prop := -32768 <= z <= 32767.

(** [a[i]]: [None] is [undefined]. *)
Definition get (a : list Z) (i : Z) : option Z :=
  if i <? 0 then None else a !! Z.to_nat i.

(** [a[i] = v] on an [Int16Array] ([wrap := ToInt16]) or an [Int32Array]
    ([wrap := ToInt32]): [NaN] is stored as 0, an index outside the array
    is ignored. *)
Definition storeValue (wrap : Z -> Z) (v : option Z) : Z :=
  match v with Some z => wrap z | None => 0 end.

Definition set (wrap : Z -> Z) (a : list Z) (i : Z) (v : option Z) : list Z :=
  if i <? 0 then a else <[Z.to_nat i := storeValue wrap v]> a.

(** [new Int16Array(n)] / [new Int32Array(n)] for an integer [n >= 0]. *)
Definition zeros (n : Z) : list Z := replicate (Z.to_nat n) 0.

(** The elements of a little-endian 16-bit view over a byte sequence. *)
Definition int16LE (b0 b1 : byte) : Z :=
  let u := Z_of_byte b0 + Z_of_byte b1 * 2 ^ 8 in
  if u <? 32768 then u else u - 65536.

Fixpoint int16sOf (bs : list byte) : list Z :=
  match bs with
  | b0 :: b1 :: rest => int16LE b0 b1 :: int16sOf rest
  | _ => []
  end.

(** [new Int16Array(buffer, byteOffset, length)]: a view of [length]
    elements starting at [byteOffset]; the offset must be even and the view
    must fit.  A [Buffer] returned by [fs.readFile] starts at an even
    offset of its [ArrayBuffer], taken to be 0 here. *)
Definition Int16Array_view (buffer : list byte) (byteOffset length : Z) : result (list Z) :=
  if negb (byteOffset mod 2 =? 0) then Throw RangeError
  else if len buffer <? byteOffset + 2 * length then Throw RangeError
  else Ok (int16sOf (slice buffer byteOffset (byteOffset + 2 * length))).

End JS.

(** ** src/audio/wav.ts *)

Module Wav.
Import JS.

Record WavReadResult : Type := {
  sampleRate : Z;
  channels : Z;
  bitsPerSample : Z;
  samples : list Z
}.

(** [pcm16ToWavBuffer(pcmData, sampleRate, channels = 1)] *)
Definition pcm16ToWavBuffer (pcmData : list byte) (sampleRate channels : Z) : result (list byte) :=
  let bitsPerSample := 16 in
  let byteRate := sampleRate * channels * (bitsPerSample / 8) in
  let blockAlign := channels * (bitsPerSample / 8) in
  let dataSize := len pcmData in
  riffSize ← writeUInt32LE (36 + dataSize);
  fmtSize ← writeUInt32LE 16;
  fmtTag ← writeUInt16LE 1;
  fChannels ← writeUInt16LE channels;
  fSampleRate ← writeUInt32LE sampleRate;
  fByteRate ← writeUInt32LE byteRate;
  fBlockAlign ← writeUInt16LE blockAlign;
  fBits ← writeUInt16LE bitsPerSample;
  fDataSize ← writeUInt32LE dataSize;
  let header :=
    writeString "RIFF" ++ riffSize ++ writeString "WAVE" ++
    writeString "fmt " ++ fmtSize ++ fmtTag ++ fChannels ++ fSampleRate ++
    fByteRate ++ fBlockAlign ++ fBits ++ writeString "data" ++ fDataSize in
  Ok (header ++ pcmData).

(** The loop of [writeWavPcm16Mono] that fills [pcm]. *)
Fixpoint pcmOfSamples (samples : list Z) : result (list byte) :=
  match samples with
  | [] => Ok []
  | s :: rest =>
      b ← writeInt16LE s;
      bs ← pcmOfSamples rest;
      Ok (b ++ bs)
  end.

(** The bytes [writeWavPcm16Mono(path, sampleRate, samples)] hands to
    [fs.writeFile]. *)
Definition wavOfSamples (sampleRate : Z) (samples : list Z) : result (list byte) :=
  pcm ← pcmOfSamples samples;
  pcm16ToWavBuffer pcm sampleRate 1.

(** The local variables of the chunk loop of [readWavPcm16Mono]. *)
Record ScanState : Type := {
  sChannels : Z;
  sSampleRate : Z;
  sBitsPerSample : Z;
  sPcmOffset : Z;
  sPcmSize : Z
}.

Definition scanInit : ScanState :=
  {| sChannels := 1; sSampleRate := 24000; sBitsPerSample := 16;
     sPcmOffset := -1; sPcmSize := 0 |}.

Definition readFmt (data : list byte) (chunkDataOffset : Z) (st : ScanState) : result ScanState :=
  channels ← readUInt16LE data (chunkDataOffset + 2);
  sampleRate ← readUInt32LE data (chunkDataOffset + 4);
  bitsPerSample ← readUInt16LE data (chunkDataOffset + 14);
  Ok {| sChannels := channels; sSampleRate := sampleRate;
        sBitsPerSample := bitsPerSample;
        sPcmOffset := sPcmOffset st; sPcmSize := sPcmSize st |}.

(** [while (offset + 8 <= data.length) { ... }], one unit of fuel per
    iteration. *)
Fixpoint scanChunks (fuel : nat) (data : list byte) (offset : Z) (st : ScanState)
  : result ScanState :=
  if negb (offset + 8 <=? len data) then Ok st else
  match fuel with
  | O => Throw OutOfFuel
  | S fuel' =>
      let chunkId := toStringAscii data offset (offset + 4) in
      chunkSize ← readUInt32LE data (offset + 4);
      let chunkDataOffset := offset + 8 in
      st1 ← (if String.eqb chunkId "fmt " then readFmt data chunkDataOffset st else Ok st);
      if String.eqb chunkId "data" then
        Ok {| sChannels := sChannels st1; sSampleRate := sSampleRate st1;
              sBitsPerSample := sBitsPerSample st1;
              sPcmOffset := chunkDataOffset; sPcmSize := chunkSize |}
      else scanChunks fuel' data (chunkDataOffset + chunkSize) st1
  end.

(** One frame of the down-mix loop: the sum over the channels ([None] once
    an element is [undefined]), then round and clamp. *)
Definition frameSum (source : list Z) (channels frame : Z) : option Z :=
  forLoop (Z.to_nat channels) 0
    (fun channel sum =>
       match sum, get source (frame * channels + channel) with
       | Some s, Some x => Some (s + x)
       | _, _ => None
       end)
    (Some 0).

Definition monoOfSum (channels : Z) (sum : option Z) : option Z :=
  match sum with
  | Some s => Some (Z.max (-32768) (Z.min 32767 (Math_round (inject_Z s / inject_Z channels))))
  | None => None
  end.

Definition downmix (pcmLength : Z) (source : list Z) (channels : Z) : result (list Z) :=
  if channels =? 0 then
    (* totalFrames is NaN for an empty payload and Infinity otherwise *)
    if pcmLength =? 0 then Ok [] else Throw RangeError
  else
    let totalFrames : Q := (inject_Z pcmLength / 2 / inject_Z channels)%Q in
    let mono := zeros (Qfloor totalFrames) in
    Ok (forLoop (Z.to_nat (Qceiling totalFrames)) 0
          (fun frame mono =>
             set ToInt16 mono frame (monoOfSum channels (frameSum source channels frame)))
          mono).

(** [readWavPcm16Mono] from the test of [pcmOffset] on (wav.ts:87-123). *)
Definition decodeData (data : list byte) (st : ScanState) : result WavReadResult :=
  if sPcmOffset st <? 0 then Throw WavNoDataChunk else
  if negb (sBitsPerSample st =? 16) then Throw WavNot16Bit else
  let pcm := slice data (sPcmOffset st) (sPcmOffset st + sPcmSize st) in
  source ← Int16Array_view data (sPcmOffset st) (len pcm / 2);
  if sChannels st =? 1 then
    Ok {| sampleRate := sSampleRate st; channels := sChannels st;
          bitsPerSample := sBitsPerSample st; samples := source |}
  else
    mono ← downmix (len pcm) source (sChannels st);
    Ok {| sampleRate := sSampleRate st; channels := 1;
          bitsPerSample := sBitsPerSample st; samples := mono |}.

(** The body of [readWavPcm16Mono] after [fs.readFile]. *)
Definition parseWav (data : list byte) : result WavReadResult :=
  if len data <? 44 then Throw WavTooSmall else
  let riff := toStringAscii data 0 4 in
  let wave := toStringAscii data 8 12 in
  if negb (String.eqb riff "RIFF") || negb (String.eqb wave "WAVE") then Throw WavBadHeader else
  st ← scanChunks (length data) data 12 scanInit;
  decodeData data st.

End Wav.

(** ** The container, read declaratively

    The specification describes the body of a RIFF file as a sequence of
    chunks, each a 4-byte identifier and a 4-byte little-endian length
    followed by that many bytes, starting at offset 12.  The definitions
    below say what it means for the chunk walk to skip chunks and to arrive
    somewhere, without a loop and without state. *)

Module WavSpec.
Import JS Wav.

Definition chunkIdAt (data : list byte) (o : Z) : string :=
  toStringAscii data o (o + 4).

Definition u16At (data : list byte) (o : Z) : Z :=
  match readUInt16LE data o with Ok v => v | Throw _ => 0 end.

Definition u32At (data : list byte) (o : Z) : Z :=
  match readUInt32LE data o with Ok v => v | Throw _ => 0 end.

Definition chunkSizeAt (data : list byte) (o : Z) : Z := u32At data (o + 4).

(** [skips data o vs o']: walking from the chunk header at offset [o], the
    chunks with headers at [vs] are passed over (none of them is a "data"
    chunk) and the walk stands at offset [o']. *)
Inductive skips (data : list byte) : Z -> list Z -> Z -> Prop :=
| skips_nil o : skips data o [] o
| skips_cons o vs o' :
    o + 8 <= len data ->
    chunkIdAt data o <> "data"%string ->
    skips data (o + 8 + chunkSizeAt data o) vs o' ->
    skips data o (o :: vs) o'.

(** The walk from offset 12 finds a "data" chunk with its header at [o]. *)
Definition dataChunkAt (data : list byte) (vs : list Z) (o : Z) : Prop :=
  skips data 12 vs o /\ o + 8 <= len data /\ chunkIdAt data o = "data"%string.

(** The walk from offset 12 runs off the end without finding one. *)
Definition noDataChunk (data : list byte) (vs : list Z) (o : Z) : Prop :=
  skips data 12 vs o /\ len data < o + 8.

Definition markersOk (data : list byte) : Prop :=
  toStringAscii data 0 4 = "RIFF"%string /\ toStringAscii data 8 12 = "WAVE"%string.

Record Format : Type := { fChannels : Z; fSampleRate : Z; fBits : Z }.

Definition defaultFormat : Format :=
  {| fChannels := 1; fSampleRate := 24000; fBits := 16 |}.

(** The three fields of the "fmt " chunk whose header is at [o]. *)
Definition fmtFieldsAt (data : list byte) (o : Z) : Format :=
  {| fChannels := u16At data (o + 8 + 2);
     fSampleRate := u32At data (o + 8 + 4);
     fBits := u16At data (o + 8 + 14) |}.

(** The format in effect after the chunks at [vs]: that of the last "fmt "
    chunk among them, else [f]. *)
Definition formatAfter (data : list byte) (vs : list Z) (f : Format) : Format :=
  fold_left
    (fun f o => if String.eqb (chunkIdAt data o) "fmt " then fmtFieldsAt data o else f)
    vs f.

(** Every "fmt " chunk among [vs] has its 16 bytes of fields inside the
    input. *)
Definition fmtComplete (data : list byte) (vs : list Z) : Prop :=
  Forall (fun o => chunkIdAt data o = "fmt "%string -> o + 24 <= len data) vs.

(** [parseWav] ended the way it is written to end: with a result, or with
    one of the errors it raises itself. *)
Definition ownOutcome (r : result WavReadResult) : Prop :=
  succeeds r \/ exists k, failsWith r k.

(** The payload bytes of the chunk at [o] that are present in the input. *)
Definition payloadAt (data : list byte) (o : Z) : list byte :=
  slice data (o + 8) (o + 8 + chunkSizeAt data o).

(** The down-mix as the specification words it: for each time frame, the
    average of the per-channel values, rounded to the nearest integer
    (ties upward) and clamped to the int16 domain. *)
Definition sumZ (l : list Z) : Z := fold_right Z.add 0 l.

Definition frameOf (channels : nat) (source : list Z) (frame : nat) : list Z :=
  take channels (drop (frame * channels) source).

Definition clamp16 (z : Z) : Z := Z.max (-32768) (Z.min 32767 z).

Definition downmixFrame (channels : nat) (fr : list Z) : Z :=
  clamp16 (Qfloor (inject_Z (sumZ fr) / inject_Z (Z.of_nat channels) + (1 # 2))%Q).

Definition downmix_spec (channels : nat) (source : list Z) : list Z :=
  map (fun frame => downmixFrame channels (frameOf channels source frame))
      (seq 0 (length source / channels)).

(** The loop state seen as a format, and back. *)
Definition formatOf (st : ScanState) : Format :=
  {| fChannels := sChannels st; fSampleRate := sSampleRate st; fBits := sBitsPerSample st |}.

Definition withFormat (f : Format) (st : ScanState) : ScanState :=
  {| sChannels := fChannels f; sSampleRate := fSampleRate f; sBitsPerSample := fBits f;
     sPcmOffset := sPcmOffset st; sPcmSize := sPcmSize st |}.

Definition withData (o size : Z) (st : ScanState) : ScanState :=
  {| sChannels := sChannels st; sSampleRate := sSampleRate st;
     sBitsPerSample := sBitsPerSample st; sPcmOffset := o; sPcmSize := size |}.

(** Fuel that lets the chunk loop run to its end from offset [o]: every
    iteration advances by at least 8 bytes. *)
Definition enoughFuel (data : list byte) (o : Z) (fuel : nat) : Prop :=
  len data - o < 8 * Z.of_nat fuel.

(** The three ways the chunk loop can end. *)
Inductive scanOutcome (data : list byte) (o : Z) (st : ScanState) (r : result ScanState) : Prop :=
| scan_no_data vs o' :
    skips data o vs o' -> fmtComplete data vs -> len data < o' + 8 ->
    r = Ok (withFormat (formatAfter data vs (formatOf st)) st) ->
    scanOutcome data o st r
| scan_found vs o' :
    skips data o vs o' -> fmtComplete data vs -> o' + 8 <= len data ->
    chunkIdAt data o' = "data"%string ->
    r = Ok (withData (o' + 8) (chunkSizeAt data o')
              (withFormat (formatAfter data vs (formatOf st)) st)) ->
    scanOutcome data o st r
| scan_truncated vs o' :
    skips data o vs o' -> fmtComplete data vs -> o' + 8 <= len data ->
    chunkIdAt data o' = "fmt "%string -> len data < o' + 24 ->
    r = Throw RangeError ->
    scanOutcome data o st r.

(** The canonical file [writeWavPcm16Mono] produces, written out. *)
Definition pcmBytes (samples : list Z) : list byte :=
  flat_map (fun s => [byte_of_Z s; byte_of_Z (Z.shiftr s 8)]) samples.

Definition le16 (v : Z) : list byte := [byte_of_Z v; byte_of_Z (Z.shiftr v 8)].

Definition le32 (v : Z) : list byte :=
  [byte_of_Z v; byte_of_Z (Z.shiftr v 8); byte_of_Z (Z.shiftr v 16); byte_of_Z (Z.shiftr v 24)].

Definition canonicalHeader (sampleRate dataSize : Z) : list byte :=
  writeString "RIFF" ++ le32 (36 + dataSize) ++ writeString "WAVE" ++
  writeString "fmt " ++ le32 16 ++ le16 1 ++ le16 1 ++ le32 sampleRate ++
  le32 (sampleRate * 2) ++ le16 2 ++ le16 16 ++ writeString "data" ++ le32 dataSize.

Definition canonicalFile (sampleRate : Z) (samples : list Z) : list byte :=
  canonicalHeader sampleRate (2 * len samples) ++ pcmBytes samples.

(** A buffer whose canonical file has fields that fit the header. *)
Definition fitsHeader (sampleRate : Z) (samples : list Z) : Prop :=
  0 <= sampleRate /\ sampleRate * 2 <= 4294967295 /\
  Forall int16 samples /\ 36 + 2 * len samples <= 4294967295.

End WavSpec.

(** ** Concrete containers used as examples *)

Module WavExamples.
Import JS Wav WavSpec.

Definition riffWave : list byte :=
  writeString "RIFF" ++ le32 0 ++ writeString "WAVE".

(** A two-channel file with the single frame (100, -100). *)
Definition stereoFrame : list byte :=
  riffWave ++ writeString "fmt " ++ le32 16 ++ le16 1 ++ le16 2 ++ le32 8000 ++
  le32 32000 ++ le16 4 ++ le16 16 ++ writeString "data" ++ le32 4 ++ le16 100 ++ le16 (-100).

(** No "fmt " chunk: a 16-byte "JUNK" chunk, then six bytes of data. *)
Definition headerlessData : list byte :=
  riffWave ++ writeString "JUNK" ++ le32 16 ++ replicate 16 x00 ++
  writeString "data" ++ le32 6 ++ le16 7 ++ le16 (-7) ++ le16 300.

(** No "fmt " chunk, and a one-byte chunk that puts the data payload at
    the odd offset 29. *)
Definition oddOffsetData : list byte :=
  riffWave ++ writeString "JUNK" ++ le32 1 ++ [x00] ++
  writeString "data" ++ le32 16 ++ replicate 16 x01.

(** 44 bytes that end with the header of a "fmt " chunk whose fields are
    missing. *)
Definition truncatedFmt : list byte :=
  riffWave ++ writeString "JUNK" ++ le32 16 ++ replicate 16 x00 ++
  writeString "fmt " ++ le32 16.

(** A complete "fmt " chunk that declares 8 bits per sample, and no "data"
    chunk. *)
Definition eightBitNoData : list byte :=
  riffWave ++ writeString "fmt " ++ le32 16 ++ le16 1 ++ le16 1 ++ le32 8000 ++
  le32 8000 ++ le16 1 ++ le16 8 ++ writeString "JUNK" ++ le32 0.

(** The same with a "data" chunk. *)
Definition eightBitData : list byte :=
  riffWave ++ writeString "fmt " ++ le32 16 ++ le16 1 ++ le16 1 ++ le32 8000 ++
  le32 8000 ++ le16 1 ++ le16 8 ++ writeString "data" ++ le32 0.

(** The canonical file of the samples 1 and -2 at 8000 Hz, with the top
    bit set in each of the eight marker bytes: 0xD2 0xC9 0xC6 0xC6 where
    "RIFF" is 0x52 0x49 0x46 0x46, and 0xD7 0xC1 0xD6 0xC5 for "WAVE". *)
Definition highBitMarkers : list byte :=
  [xd2; xc9; xc6; xc6] ++ le32 40 ++ [xd7; xc1; xd6; xc5] ++
  writeString "fmt " ++ le32 16 ++ le16 1 ++ le16 1 ++ le32 8000 ++
  le32 16000 ++ le16 2 ++ le16 16 ++ writeString "data" ++ le32 4 ++ le16 1 ++ le16 (-2).

End WavExamples.

(** ** The world: files and the order of effects *)

Inductive event : Type :=
| EvMkdirFor (file : string)     (* fs.mkdir(path.dirname(file), { recursive: true }) *)
| EvReadFile (path : string)
| EvAllocAccumulator (n : Z)     (* new Int32Array(n) *)
| EvWriteFile (path : string).

Record World : Type := {
  files : gmap string (list byte);
  trace : list event               (* oldest first *)
}.

(** A computation that may change the world and may throw. *)
Definition IO (A : Type) : Type := World -> World * result A.

Definition ioRet {A} (a : A) : IO A := fun w => (w, Ok a).
Definition ioBind {A B} (m : IO A) (k : A -> IO B) : IO B := fun w =>
  match m w with
  | (w', Ok a) => k a w'
  | (w', Throw e) => (w', Throw e)
  end.
Definition ioLift {A} (r : result A) : IO A := fun w => (w, r).
Definition ioEvent (ev : event) : IO unit := fun w =>
  ({| files := files w; trace := trace w ++ [ev] |}, Ok tt).

Declare Scope io_scope.
Delimit Scope io_scope with io.
Notation "'let!' x ':=' m 'in' k" := (ioBind m (fun x => k))
  (at level 10, x name, m at level 100, k at level 200) : io_scope.
Notation "'do!' m 'in' k" := (ioBind m (fun _ => k))
  (at level 10, m at level 100, k at level 200) : io_scope.

Definition fs_readFile (path : string) : IO (list byte) := fun w =>
  ({| files := files w; trace := trace w ++ [EvReadFile path] |},
   match files w !! path with
   | Some data => Ok data
   | None => Throw FileNotFound
   end).

Definition fs_writeFile (path : string) (data : list byte) : IO unit := fun w =>
  ({| files := <[path := data]> (files w); trace := trace w ++ [EvWriteFile path] |}, Ok tt).

Module WavIO.
Import JS Wav.
Open Scope io_scope.

Definition readWavPcm16Mono (path : string) : IO WavReadResult :=
  let! data := fs_readFile path in
  ioLift (parseWav data).

Definition writeWavPcm16Mono (path : string) (sampleRate : Z) (samples : list Z) : IO unit :=
  let! wav := ioLift (wavOfSamples sampleRate samples) in
  fs_writeFile path wav.

End WavIO.

(** ** src/audio/timeline.ts *)

Module Timeline.
Import JS Wav WavIO.
Open Scope io_scope.

(** The fields of [SynthesizedSegment] that the compositor reads. *)
Record SynthesizedSegment : Type := {
  startSec : Q;
  endSec : Q;
  wavPath : string;
  durationSec : Q
}.

Record ComposeParams : Type := {
  segments : list SynthesizedSegment;
  outputWavPath : string;
  targetSampleRate : option Z;
  mediaDurationSec : option Q
}.

(** The right-hand side of [output[index] = ...] in [resampleLinear]. *)
Definition interpolate (samples : list Z) (ratio : Q) (index : Z) : option Z :=
  let sourcePosition : Q := (inject_Z index / ratio)%Q in
  let left := Math_floor sourcePosition in
  let right := Z.min (left + 1) (len samples - 1) in
  let alpha : Q := (sourcePosition - inject_Z left)%Q in
  match get samples left, get samples right with
  | Some l, Some r => Some (Math_round (inject_Z l * (1 - alpha) + inject_Z r * alpha)%Q)
  | _, _ => None
  end.

Definition resampleLinear (samples : list Z) (sourceRate targetRate : Z) : result (list Z) :=
  if sourceRate =? targetRate then Ok samples
  else if sourceRate =? 0 then
    (* ratio is +-Infinity: the length is NaN for an empty input, Infinity
       for a positive target rate, and 1 (from -Infinity) for a negative one *)
    match samples with
    | [] => Ok []
    | first :: _ => if 0 <? targetRate then Throw RangeError else Ok [first]
    end
  else if targetRate =? 0 then
    (* ratio is 0: one output sample, read at position 0/0 = NaN *)
    Ok [0]
  else
    let ratio : Q := (inject_Z targetRate / inject_Z sourceRate)%Q in
    let targetLength := Z.max 1 (Math_round (inject_Z (len samples) * ratio)%Q) in
    let output := zeros targetLength in
    Ok (forLoop (Z.to_nat targetLength) 0
          (fun index output => set ToInt16 output index (interpolate samples ratio index))
          output).

Definition segmentStartIndex (sampleRate : Z) (segment : SynthesizedSegment) : Z :=
  Z.max 0 (Math_round (startSec segment * inject_Z sampleRate)%Q).

Definition targetWindowSamples (sampleRate : Z) (segment : SynthesizedSegment) : Z :=
  Z.max 1 (Math_round ((endSec segment - startSec segment) * inject_Z sampleRate)%Q).

Definition writableCount (sampleRate totalSamples : Z) (segment : SynthesizedSegment)
    (source : list Z) : Z :=
  let maxWritable := Z.max 0 (totalSamples - segmentStartIndex sampleRate segment) in
  Z.min (Z.min (len source) (targetWindowSamples sampleRate segment)) maxWritable.

(** [accumulator[i] += x] *)
Definition addAt (accumulator : list Z) (i : Z) (x : option Z) : list Z :=
  set ToInt32 accumulator i
    (match get accumulator i, x with
     | Some a, Some b => Some (a + b)
     | _, _ => None
     end).

(** The inner loop of [composeDubbedTimeline] for one segment. *)
Definition placeSegment (sampleRate totalSamples : Z) (segment : SynthesizedSegment)
    (source accumulator : list Z) : list Z :=
  let start := segmentStartIndex sampleRate segment in
  forLoop (Z.to_nat (writableCount sampleRate totalSamples segment source)) 0
    (fun sampleIndex accumulator =>
       addAt accumulator (start + sampleIndex) (get source sampleIndex))
    accumulator.

(** The first two statements of the loop body: read the segment's file and
    bring it to the target rate. *)
Definition loadSource (sampleRate : Z) (segment : SynthesizedSegment) : IO (list Z) :=
  let! wav := readWavPcm16Mono (wavPath segment) in
  ioLift (resampleLinear (Wav.samples wav) (Wav.sampleRate wav) sampleRate).

(** [for (const segment of params.segments) { ... }] *)
Fixpoint accumulateSegments (sampleRate totalSamples : Z)
    (segs : list SynthesizedSegment) (accumulator : list Z) : IO (list Z) :=
  match segs with
  | [] => ioRet accumulator
  | segment :: rest =>
      let! source := loadSource sampleRate segment in
      accumulateSegments sampleRate totalSamples rest
        (placeSegment sampleRate totalSamples segment source accumulator)
  end.

(** [Math.max(-32768, Math.min(32767, accumulator[index]))] *)
Definition clampSample (x : option Z) : option Z :=
  match x with
  | Some a => Some (Z.max (-32768) (Z.min 32767 a))
  | None => None
  end.

Definition finalSamplesOf (totalSamples : Z) (accumulator : list Z) : list Z :=
  forLoop (Z.to_nat totalSamples) 0
    (fun index finalSamples => set ToInt16 finalSamples index (clampSample (get accumulator index)))
    (zeros totalSamples).

(** [Math.max(...segments.map(endSec), ...segments.map(startSec + durationSec))]
    for a non-empty list whose first element is [first]. *)
Definition inferredDurationOf (first : SynthesizedSegment) (rest : list SynthesizedSegment) : Q :=
  fold_left Qmax
    (map endSec rest ++ map (fun s => (startSec s + durationSec s)%Q) (first :: rest))
    (endSec first).

Definition totalSamplesOf (sampleRate : Z) (mediaDuration : option Q)
    (first : SynthesizedSegment) (rest : list SynthesizedSegment) : Z :=
  let inferredDuration := inferredDurationOf first rest in
  let durationSec := Qmax (default 0%Q mediaDuration) inferredDuration in
  Z.max 1 (Math_ceil (durationSec * inject_Z sampleRate)%Q).

(** [composeDubbedTimeline] up to the last statement: the sample rate and
    the clamped samples that are about to be written (timeline.ts:81-113). *)
Definition mixTimeline (params : ComposeParams) : IO (Z * list Z) :=
  match segments params with
  | [] => ioLift (Throw NoSegments)
  | first :: rest =>
      do! ioEvent (EvMkdirFor (outputWavPath params)) in
      let sampleRate := default 24000 (targetSampleRate params) in
      let totalSamples := totalSamplesOf sampleRate (mediaDurationSec params) first rest in
      do! ioEvent (EvAllocAccumulator totalSamples) in
      let accumulator := zeros totalSamples in
      let! accumulator := accumulateSegments sampleRate totalSamples (first :: rest) accumulator in
      ioRet (sampleRate, finalSamplesOf totalSamples accumulator)
  end.

Definition composeDubbedTimeline (params : ComposeParams) : IO unit :=
  let! mixed := mixTimeline params in
  writeWavPcm16Mono (outputWavPath params) (fst mixed) (snd mixed).

End Timeline.

(** ** The compositor, read declaratively *)

Module TimelineSpec.
Import JS Wav WavIO Timeline.

(** What a segment's file holds once parsed and resampled, as a function of
    the file store alone. *)
Definition sourceOf (fs : gmap string (list byte)) (sampleRate : Z)
    (segment : SynthesizedSegment) : result (list Z) :=
  match fs !! wavPath segment with
  | None => Throw FileNotFound
  | Some data =>
      wav ← parseWav data;
      resampleLinear (Wav.samples wav) (Wav.sampleRate wav) sampleRate
  end.

(** One step of the accumulation with the source looked up in the store. *)
Definition placeLoaded (fs : gmap string (list byte)) (sampleRate totalSamples : Z)
    (accumulator : list Z) (segment : SynthesizedSegment) : list Z :=
  match sourceOf fs sampleRate segment with
  | Ok source => placeSegment sampleRate totalSamples segment source accumulator
  | Throw _ => accumulator
  end.

Definition withSegments (params : ComposeParams) (segs : list SynthesizedSegment)
  : ComposeParams :=
  {| segments := segs; outputWavPath := outputWavPath params;
     targetSampleRate := targetSampleRate params;
     mediaDurationSec := mediaDurationSec params |}.

Definition rateOf (params : ComposeParams) : Z := default 24000 (targetSampleRate params).

Definition loads (fs : gmap string (list byte)) (sr : Z) (seg : SynthesizedSegment) : Prop :=
  succeeds (sourceOf fs sr seg).

(** The buffer the compositor computes when every segment loads: the
    clamped sum of the placed segments. *)
Definition mixedSamples (fs : gmap string (list byte)) (params : ComposeParams)
    (first : SynthesizedSegment) (rest : list SynthesizedSegment) : list Z :=
  let sr := rateOf params in
  let total := totalSamplesOf sr (mediaDurationSec params) first rest in
  map WavSpec.clamp16 (fold_left (placeLoaded fs sr total) (first :: rest) (zeros total)).

(** The composition of the specification's example: one segment from
    second 1 to second 2 whose file holds one second of audio, a target
    rate of 24000 Hz and a media duration of 3 seconds. *)
Definition toneSegment (path : string) : SynthesizedSegment :=
  {| startSec := 1; endSec := 2; wavPath := path; durationSec := 1 |}.

Definition toneParams (path output : string) : ComposeParams :=
  {| segments := [toneSegment path]; outputWavPath := output;
     targetSampleRate := Some 24000; mediaDurationSec := Some 3%Q |}.

(** [m] is the greatest element of [l]. *)
Definition isMaxOf (m : Q) (l : list Q) : Prop :=
  Forall (fun y => (y <= m)%Q) l /\ Exists (fun y => (m == y)%Q) l.

End TimelineSpec.

(** ** Concrete timelines used as examples *)

Module TimelineExamples.
Import JS Wav WavSpec WavIO Timeline TimelineSpec.

(** One second of a 240 Hz sawtooth at 24000 Hz. *)
Definition toneSamples : list Z :=
  map (fun i => (i mod 100 - 50) * 600) (seqZ 0 24000).

Definition toneFile : list byte := canonicalFile 24000 toneSamples.

Definition toneWorld : World :=
  {| files := {[ "tone.wav"%string := toneFile ]}; trace := [] |}.

(** Two short clips: seven samples at 10 Hz and three samples at 5 Hz. *)
Definition clipA : list byte := canonicalFile 10 [30000; 30000; 3; 4; 5; 6; 7].

Definition clipB : list byte := canonicalFile 5 [10000; 20000; 30000].

Definition clipWorld : World :=
  {| files := <["a.wav"%string := clipA]> {[ "b.wav"%string := clipB ]}; trace := [] |}.

Definition segA : SynthesizedSegment :=
  {| startSec := 1 # 2; endSec := 2; wavPath := "a.wav"; durationSec := 7 # 10 |}.

(** A segment that starts half a second before the timeline does. *)
Definition segB : SynthesizedSegment :=
  {| startSec := -1 # 2; endSec := 1; wavPath := "b.wav"; durationSec := 3 # 5 |}.

Definition clipParams (segs : list SynthesizedSegment) : ComposeParams :=
  {| segments := segs; outputWavPath := "out.wav";
     targetSampleRate := Some 10; mediaDurationSec := Some 3%Q |}.

End TimelineExamples.

(** ** src/audio/wav.ts: raw PCM into a file *)

Module WavFile.
Import JS Wav.
Open Scope io_scope.

(** [writeWavFromPcm16({ outputPath, pcmData, sampleRate, channels })];
    [channels] is [None] when the caller leaves the property out
    ([params.channels ?? 1]). *)
Definition writeWavFromPcm16 (outputPath : string) (pcmData : list byte)
    (sampleRate : Z) (channels : option Z) : IO unit :=
  let! wav := ioLift (pcm16ToWavBuffer pcmData sampleRate (default 1 channels)) in
  fs_writeFile outputPath wav.

End WavFile.

(** The 44-byte header of [pcm16ToWavBuffer], written out, and the ranges
    its integer writers accept. *)

Module WavFileSpec.
Import JS Wav WavSpec.

Definition wavHeader (sampleRate channels dataSize : Z) : list byte :=
  writeString "RIFF" ++ le32 (36 + dataSize) ++ writeString "WAVE" ++
  writeString "fmt " ++ le32 16 ++ le16 1 ++ le16 channels ++ le32 sampleRate ++
  le32 (sampleRate * channels * 2) ++ le16 (channels * 2) ++ le16 16 ++
  writeString "data" ++ le32 dataSize.

Definition headerFits (sampleRate channels dataSize : Z) : Prop :=
  36 + dataSize <= 4294967295 /\
  0 <= channels /\ channels * 2 <= 65535 /\
  0 <= sampleRate <= 4294967295 /\
  0 <= sampleRate * channels * 2 <= 4294967295.

(** A 44-byte header of the same layout whose RIFF size, format tag, byte
    rate and block align hold any values. *)
Definition wavHeaderWith (riffSize tag byteRate blockAlign : Z)
    (sampleRate channels dataSize : Z) : list byte :=
  writeString "RIFF" ++ le32 riffSize ++ writeString "WAVE" ++
  writeString "fmt " ++ le32 16 ++ le16 tag ++ le16 channels ++ le32 sampleRate ++
  le32 byteRate ++ le16 blockAlign ++ le16 16 ++
  writeString "data" ++ le32 dataSize.

#[global] Instance headerFits_dec sampleRate channels dataSize :
  Decision (headerFits sampleRate channels dataSize).
Proof. unfold headerFits. apply _. Defined.

End WavFileSpec.

(** ** The mix, sample by sample *)

Module MixSpec.
Import JS Wav WavSpec WavIO Timeline TimelineSpec.

(** What the segment adds to the accumulator at output index [k]: the
    sample of its resampled source that falls on [k], if [k] lies among the
    indices the segment writes; nothing if its file does not load. *)
Definition contribution (fs : gmap string (list byte)) (sampleRate totalSamples : Z)
    (segment : SynthesizedSegment) (k : nat) : Z :=
  match sourceOf fs sampleRate segment with
  | Ok source =>
      let start := segmentStartIndex sampleRate segment in
      if decide (start <= Z.of_nat k
                 < start + writableCount sampleRate totalSamples segment source)
      then default 0 (source !! Z.to_nat (Z.of_nat k - start))
      else 0
  | Throw _ => 0
  end.

Definition mixSum (fs : gmap string (list byte)) (sampleRate totalSamples : Z)
    (segs : list SynthesizedSegment) (k : nat) : Z :=
  sumZ (map (fun segment => contribution fs sampleRate totalSamples segment k) segs).

(** Output index [k] lies in the time window of the segment. *)
Definition inWindow (sampleRate : Z) (segment : SynthesizedSegment) (k : nat) : Prop :=
  segmentStartIndex sampleRate segment <= Z.of_nat k
  < segmentStartIndex sampleRate segment + targetWindowSamples sampleRate segment.

(** The durations the timeline has to cover: the media duration (0 when it
    is not given), every segment's end, and every segment's start plus the
    length of its audio. *)
Definition durationCandidates (mediaDuration : option Q)
    (segs : list SynthesizedSegment) : list Q :=
  default 0%Q mediaDuration ::
  map endSec segs ++ map (fun s => (startSec s + durationSec s)%Q) segs.

(** [z] samples at rate [sampleRate] last at least [d] seconds. *)
Definition coversSec (sampleRate z : Z) (d : Q) : Prop :=
  (d * inject_Z sampleRate <= inject_Z z)%Q.

(** The header fields of the output file fit their 32-bit slots. *)
Definition outputFits (sampleRate totalSamples : Z) : Prop :=
  0 <= sampleRate /\ sampleRate * 2 <= 4294967295 /\ 36 + 2 * totalSamples <= 4294967295.

#[global] Instance outputFits_dec sampleRate totalSamples :
  Decision (outputFits sampleRate totalSamples).
Proof. unfold outputFits. apply _. Defined.

(** [Math.max(...ends, ...reaches)] is one call with two arguments for
    each segment.  An engine refuses a call whose arguments do not fit its
    stack, with a RangeError; where that happens depends on the engine and
    on the stack it was given, not on the program, and [mixTimeline] has
    no such limit.  What is said of a composition that succeeds is
    therefore said of lists that keep the call within 65535 arguments. *)
Definition spreadFits (segs : list SynthesizedSegment) : Prop :=
  2 * len segs <= 65535.

#[global] Instance spreadFits_dec segs : Decision (spreadFits segs).
Proof. unfold spreadFits. apply _. Defined.

(** The segment lies on the sample grid: its start and the length of its
    window are whole numbers of samples, [n] and [m].  The two products
    are then integers before any rounding. *)
Definition onGrid (sampleRate : Z) (segment : SynthesizedSegment) (n m : Z) : Prop :=
  (startSec segment * inject_Z sampleRate == inject_Z n)%Q /\
  ((endSec segment - startSec segment) * inject_Z sampleRate == inject_Z m)%Q.

(** Output index [k] lies more than one sample before the start of the
    segment's time window, or more than one sample past its end.  The
    start and the length of the window are rounded products of seconds and
    rate; the margin of one sample is more than the rounding can move
    them. *)
Definition clearOf (sampleRate : Z) (segment : SynthesizedSegment) (k : nat) : Prop :=
  Z.of_nat k + 1 < segmentStartIndex sampleRate segment \/
  segmentStartIndex sampleRate segment + targetWindowSamples sampleRate segment + 1
    < Z.of_nat k.

End MixSpec.

Module MixExamples.
Import Timeline.

(** Half a second of the clip in "b.wav", two seconds into the timeline. *)
Definition segC : SynthesizedSegment :=
  {| startSec := 2; endSec := 5 # 2; wavPath := "b.wav"; durationSec := 3 # 5 |}.

End MixExamples.

(** ** src/scripts/fixture.ts *)

Module Fixture.
Import JS.

(** [clamp16(value)] *)
Definition clamp16 (value : Q) : Z :=
  Z.max (-32768) (Z.min 32767 (Math_round value)).

(** [target.set(source, offset)] between two [Int16Array]s: the elements
    are copied as they are; a source that does not fit is a RangeError. *)
Definition typedArraySet (target source : list Z) (offset : Z) : result (list Z) :=
  if (offset <? 0) || (len target <? offset + len source) then Throw RangeError
  else Ok (take (Z.to_nat offset) target ++ source ++
           drop (Z.to_nat (offset + len source)) target).

(** [appendBuffers(buffers)]: the loop state is [(merged, offset)]. *)
Definition appendBuffers (buffers : list (list Z)) : result (list Z) :=
  let totalLength := fold_left (fun sum buffer => sum + len buffer) buffers 0 in
  let merged := zeros totalLength in
  st ← fold_left
         (fun st buffer =>
            '(merged, offset) ← st;
            merged' ← typedArraySet merged buffer offset;
            Ok (merged', offset + len buffer))
         buffers (Ok (merged, 0));
  Ok (fst st).

(** [silence(durationSec, sampleRate)] *)
Definition silence (durationSec : Q) (sampleRate : Z) : list Z :=
  let count := Z.max 1 (Math_round (durationSec * inject_Z sampleRate)%Q) in
  zeros count.

End Fixture.

(** ** src/gemini/tts.ts: voices for speakers *)

Module Tts.

(** [Segment] (src/types.ts). *)
Record Segment : Type := {
  speaker : string;
  startSec : Q;
  endSec : Q;
  sourceText : string;
  translatedText : string
}.

(** [[...new Set(xs)]]: a [Set] keeps each element once, in the order in
    which the elements were first added. *)
Definition setAdd (seen : list string) (x : string) : list string :=
  if decide (x ∈ seen) then seen else seen ++ [x].

Definition orderedSet (xs : list string) : list string := fold_left setAdd xs [].

(** [map[key] = value] on an object created by [{}], seen as the map of its
    own properties: the property is set, except for the key "__proto__",
    which reaches the setter inherited from [Object.prototype]; that setter
    ignores a value that is a string. *)
Definition assign (voiceMap : gmap string string) (key value : string) : gmap string string :=
  if decide (key = "__proto__"%string) then voiceMap else <[key := value]> voiceMap.

(** [buildSpeakerVoiceMap(segments, voiceA, voiceB)]; [voiceB] is [None]
    when it is [undefined]. *)
Definition buildSpeakerVoiceMap (segments : list Segment) (voiceA : string)
    (voiceB : option string) : gmap string string :=
  let voiceMap : gmap string string := ∅ in
  let orderedSpeakers := orderedSet (map speaker segments) in
  match orderedSpeakers with
  | [] => voiceMap
  | s0 :: others =>
      let voiceMap := assign voiceMap s0 voiceA in
      let voiceMap :=
        match others with
        | s1 :: _ => assign voiceMap s1 (default voiceA voiceB)
        | [] => voiceMap
        end in
      fold_left (fun voiceMap s => assign voiceMap s voiceA) (drop 2 orderedSpeakers) voiceMap
  end.

(** [withRetry(operation, maxAttempts)].  The operation is an opaque
    effectful thunk: [outcome i] is what its [i]-th call (counting from 0)
    does, reject with an error or resolve to a value.  The log records the
    calls and the timers that were awaited, oldest first; the thrown value
    is [None] when it is [undefined]. *)
Inductive RetryEvent : Type :=
| EvCall                       (* await operation() *)
| EvSleep (waitMs : Z).        (* setTimeout(resolve, waitMs), awaited *)

Section WithRetry.
Context {T E : Type}.
Variable outcome : nat -> E + T.

(** [for (let attempt = ...; attempt <= maxAttempts; attempt += 1) { ... }]
    followed by [throw lastError], with [remaining] iterations to go;
    [calls] counts the calls made so far. *)
Fixpoint retryFrom (remaining : nat) (attempt maxAttempts : Z) (lastError : option E)
    (calls : nat) (log : list RetryEvent) : list RetryEvent * (option E + T) :=
  match remaining with
  | O => (log, inl lastError)
  | S remaining' =>
      match outcome calls with
      | inr value => (log ++ [EvCall], inr value)
      | inl error =>
          if attempt =? maxAttempts then (log ++ [EvCall], inl (Some error))
          else
            let waitMs := 500 * 2 ^ (attempt - 1) in
            retryFrom remaining' (attempt + 1) maxAttempts (Some error) (S calls)
              (log ++ [EvCall; EvSleep waitMs])
      end
  end.

Definition withRetry (maxAttempts : Z) : list RetryEvent * (option E + T) :=
  retryFrom (Z.to_nat maxAttempts) 1 maxAttempts None 0 [].

End WithRetry.

(** The log of [k] failed attempts, each followed by its timer: 500 ms
    after the first, twice as long after each further one. *)
Definition backoffLog (k : nat) : list RetryEvent :=
  flat_map (fun i => [EvCall; EvSleep (500 * 2 ^ Z.of_nat i)]) (seq 0 k).

(** The second speaker to appear: the first speaker in the list that
    differs from the speaker of the first segment. *)
Definition secondSpeaker (speakers : list string) : option string :=
  match speakers with
  | [] => None
  | x :: rest => List.find (fun y => bool_decide (y <> x)) rest
  end.

End Tts.

(** * Properties *)

Import JS Wav WavSpec WavExamples WavIO Timeline TimelineSpec TimelineExamples.

(** ** Bytes *)

Lemma Z_of_byte_range b : 0 <= Z_of_byte b <= 255.
Proof.
  unfold Z_of_byte. pose proof (Byte.to_N_bounded b). lia.
Qed.

Lemma land_255_range z : 0 <= Z.land z 255 <= 255.
Proof.
  change (Z.land z 255) with (Z.land z (Z.ones 8)). rewrite Z.land_ones by lia.
  change (2 ^ 8) with 256. pose proof (Z.mod_pos_bound z 256 ltac:(lia)). lia.
Qed.

Lemma Z_of_byte_of_Z z : Z_of_byte (byte_of_Z z) = z mod 256.
Proof.
  unfold byte_of_Z, Z_of_byte.
  pose proof (land_255_range z) as Hr.
  destruct (Byte.of_N (Z.to_N (Z.land z 255))) as [b|] eqn:E.
  - apply Byte.to_of_N in E. rewrite E, Z2N.id by lia.
    change (Z.land z 255) with (Z.land z (Z.ones 8)). now rewrite Z.land_ones by lia.
  - apply Byte.of_N_None_iff in E. lia.
Qed.

Lemma byte_of_Z_of_byte b : byte_of_Z (Z_of_byte b) = b.
Proof.
  unfold byte_of_Z, Z_of_byte.
  pose proof (Byte.to_N_bounded b) as Hb.
  change 255 with (Z.ones 8). rewrite Z.land_ones by lia.
  change (2 ^ 8) with 256. rewrite Z.mod_small by lia. rewrite N2Z.id, Byte.of_to_N. reflexivity.
Qed.

Lemma u16_bytes v : 0 <= v <= 65535 ->
  Z_of_byte (byte_of_Z v) + Z_of_byte (byte_of_Z (Z.shiftr v 8)) * 2 ^ 8 = v.
Proof.
  intros Hv. rewrite !Z_of_byte_of_Z, Z.shiftr_div_pow2 by lia.
  change (2 ^ 8) with 256.
  rewrite (Z.mod_small (v / 256)) by (split; [apply Z.div_pos; lia | apply Z.div_lt_upper_bound; lia]).
  pose proof (Z.div_mod v 256). lia.
Qed.

Lemma u32_bytes v : 0 <= v <= 4294967295 ->
  Z_of_byte (byte_of_Z v) + Z_of_byte (byte_of_Z (Z.shiftr v 8)) * 2 ^ 8
  + Z_of_byte (byte_of_Z (Z.shiftr v 16)) * 2 ^ 16
  + Z_of_byte (byte_of_Z (Z.shiftr v 24)) * 2 ^ 24 = v.
Proof.
  intros Hv. rewrite !Z_of_byte_of_Z, !Z.shiftr_div_pow2 by lia.
  change (2 ^ 8) with 256. change (2 ^ 16) with 65536. change (2 ^ 24) with 16777216.
  replace (v / 65536) with (v / 256 / 256)
    by (rewrite Z.div_div by lia; reflexivity).
  replace (v / 16777216) with (v / 256 / 256 / 256)
    by (rewrite !Z.div_div by lia; reflexivity).
  pose proof (Z.div_mod v 256 ltac:(lia)).
  pose proof (Z.div_mod (v / 256) 256 ltac:(lia)).
  pose proof (Z.div_mod (v / 256 / 256) 256 ltac:(lia)).
  assert (0 <= v / 256 / 256 / 256 < 256).
  { rewrite !Z.div_div by lia. split; [apply Z.div_pos; lia | apply Z.div_lt_upper_bound; lia]. }
  rewrite (Z.mod_small (v / 256 / 256 / 256)) by lia.
  lia.
Qed.

Lemma int16LE_bytes v : int16 v ->
  int16LE (byte_of_Z v) (byte_of_Z (Z.shiftr v 8)) = v.
Proof.
  unfold int16, int16LE. intros Hv.
  rewrite !Z_of_byte_of_Z, Z.shiftr_div_pow2 by lia.
  change (2 ^ 8) with 256.
  pose proof (Z.div_mod v 256 ltac:(lia)).
  pose proof (Z.mod_pos_bound v 256 ltac:(lia)).
  assert (-128 <= v / 256 < 128) by (split; [apply Z.div_le_lower_bound; lia | apply Z.div_lt_upper_bound; lia]).
  destruct (Z_lt_le_dec v 0).
  - assert (v / 256 < 0) by (apply Z.div_lt_upper_bound; lia).
    replace ((v / 256) mod 256) with (v / 256 + 256)
      by (apply (Z.mod_unique _ _ (-1)); lia).
    case Z.ltb_spec; lia.
  - assert (0 <= v / 256) by (apply Z.div_pos; lia).
    rewrite (Z.mod_small (v / 256)) by lia.
    case Z.ltb_spec; lia.
Qed.

Lemma int16LE_range b0 b1 : int16 (int16LE b0 b1).
Proof.
  unfold int16, int16LE.
  pose proof (Z_of_byte_range b0). pose proof (Z_of_byte_range b1).
  case Z.ltb_spec; lia.
Qed.

(** ** Reading a buffer; the chunk loop *)

Lemma bind_Ok {A B} (a : A) (k : A -> result B) : (Ok a ≫= k) = k a.
Proof. reflexivity. Qed.

Lemma bind_Throw {A B} e (k : A -> result B) : (Throw e ≫= k) = Throw e.
Proof. reflexivity. Qed.

Lemma len_nonneg {A} (l : list A) : 0 <= len l.
Proof. unfold len. lia. Qed.

Lemma len_app {A} (l1 l2 : list A) : len (l1 ++ l2) = len l1 + len l2.
Proof. unfold len. rewrite length_app. lia. Qed.

Lemma slice_length data s e :
  0 <= s -> s <= e -> e <= len data -> length (slice data s e) = Z.to_nat (e - s).
Proof.
  unfold slice, len. intros. rewrite length_take, length_drop. lia.
Qed.

Lemma slice_length_le data s e :
  0 <= s -> length (slice data s e) = Z.to_nat (Z.min (e - s) (len data - s)).
Proof.
  unfold slice, len. intros. rewrite length_take, length_drop. lia.
Qed.

Lemma readUInt16LE_ok data o :
  0 <= o -> o + 2 <= len data ->
  exists v, readUInt16LE data o = Ok v /\ 0 <= v <= 65535.
Proof.
  intros Ho Hl. unfold readUInt16LE.
  destruct (Z.ltb_spec o 0); [lia|].
  pose proof (slice_length data o (o + 2) ltac:(lia) ltac:(lia) ltac:(lia)) as Hs.
  replace (o + 2 - o) with 2 in Hs by lia.
  destruct (slice data o (o + 2)) as [|b0 [|b1 [|? ?]]]; try discriminate.
  eexists; split; [reflexivity|].
  pose proof (Z_of_byte_range b0). pose proof (Z_of_byte_range b1). lia.
Qed.

Lemma readUInt32LE_ok data o :
  0 <= o -> o + 4 <= len data ->
  exists v, readUInt32LE data o = Ok v /\ 0 <= v <= 4294967295.
Proof.
  intros Ho Hl. unfold readUInt32LE.
  destruct (Z.ltb_spec o 0); [lia|].
  pose proof (slice_length data o (o + 4) ltac:(lia) ltac:(lia) ltac:(lia)) as Hs.
  replace (o + 4 - o) with 4 in Hs by lia.
  destruct (slice data o (o + 4)) as [|b0 [|b1 [|b2 [|b3 [|? ?]]]]]; try discriminate.
  eexists; split; [reflexivity|].
  pose proof (Z_of_byte_range b0). pose proof (Z_of_byte_range b1).
  pose proof (Z_of_byte_range b2). pose proof (Z_of_byte_range b3). lia.
Qed.

Lemma readUInt16LE_short data o :
  len data < o + 2 -> readUInt16LE data o = Throw RangeError.
Proof.
  intros Hl. unfold readUInt16LE.
  destruct (Z.ltb_spec o 0); [reflexivity|].
  pose proof (slice_length_le data o (o + 2) ltac:(lia)) as Hs.
  destruct (slice data o (o + 2)) as [|b0 [|b1 [|? ?]]]; try reflexivity.
  simpl in Hs. lia.
Qed.

Lemma readUInt16LE_throws data o e : readUInt16LE data o = Throw e -> e = RangeError.
Proof.
  unfold readUInt16LE. destruct (o <? 0); [congruence|].
  destruct (slice data o (o + 2)) as [|b0 [|b1 [|? ?]]]; congruence.
Qed.

Lemma readUInt32LE_throws data o e : readUInt32LE data o = Throw e -> e = RangeError.
Proof.
  unfold readUInt32LE. destruct (o <? 0); [congruence|].
  destruct (slice data o (o + 4)) as [|b0 [|b1 [|b2 [|b3 [|? ?]]]]]; congruence.
Qed.

Lemma u16At_read data o v : readUInt16LE data o = Ok v -> u16At data o = v.
Proof. unfold u16At. now intros ->. Qed.

Lemma u32At_read data o v : readUInt32LE data o = Ok v -> u32At data o = v.
Proof. unfold u32At. now intros ->. Qed.

Lemma chunkSizeAt_nonneg data o : 0 <= chunkSizeAt data o.
Proof.
  unfold chunkSizeAt, u32At, readUInt32LE.
  destruct (o + 4 <? 0); [lia|].
  destruct (slice data (o + 4) (o + 4 + 4)) as [|b0 [|b1 [|b2 [|b3 [|? ?]]]]]; try lia.
  pose proof (Z_of_byte_range b0). pose proof (Z_of_byte_range b1).
  pose proof (Z_of_byte_range b2). pose proof (Z_of_byte_range b3). lia.
Qed.

Lemma chunkSize_read data o :
  0 <= o -> o + 8 <= len data -> readUInt32LE data (o + 4) = Ok (chunkSizeAt data o).
Proof.
  intros Ho Hl. destruct (readUInt32LE_ok data (o + 4)) as (v & Hv & _); [lia..|].
  unfold chunkSizeAt. now rewrite (u32At_read _ _ _ Hv).
Qed.

(** *** The state of the loop and the format in effect *)

Lemma withFormat_formatOf st : withFormat (formatOf st) st = st.
Proof. now destruct st. Qed.

Lemma formatOf_withFormat f st : formatOf (withFormat f st) = f.
Proof. now destruct f. Qed.

Lemma withFormat_withFormat f g st : withFormat f (withFormat g st) = withFormat f st.
Proof. reflexivity. Qed.

Lemma readFmt_complete data o st :
  0 <= o -> o + 24 <= len data ->
  readFmt data (o + 8) st = Ok (withFormat (fmtFieldsAt data o) st).
Proof.
  intros Ho Hl. unfold readFmt.
  destruct (readUInt16LE_ok data (o + 8 + 2)) as (c & Hc & _); [lia..|].
  destruct (readUInt32LE_ok data (o + 8 + 4)) as (r & Hr & _); [lia..|].
  destruct (readUInt16LE_ok data (o + 8 + 14)) as (b & Hb & _); [lia..|].
  rewrite Hc, bind_Ok, Hr, bind_Ok, Hb, bind_Ok.
  unfold withFormat, fmtFieldsAt. simpl.
  now rewrite (u16At_read _ _ _ Hc), (u32At_read _ _ _ Hr), (u16At_read _ _ _ Hb).
Qed.

Lemma readFmt_truncated data o st :
  len data < o + 24 -> readFmt data (o + 8) st = Throw RangeError.
Proof.
  intros Hl. unfold readFmt.
  destruct (readUInt16LE data (o + 8 + 2)) as [c|e] eqn:Hc;
    [|apply readUInt16LE_throws in Hc; now subst].
  destruct (readUInt32LE data (o + 8 + 4)) as [r|e] eqn:Hr;
    [|apply readUInt32LE_throws in Hr; now subst].
  rewrite !bind_Ok, readUInt16LE_short by lia. reflexivity.
Qed.

(** *** The chunk loop *)

Lemma scanChunks_end fuel data o st :
  len data < o + 8 -> scanChunks fuel data o st = Ok st.
Proof.
  intros Hl. destruct fuel; simpl; destruct (Z.leb_spec (o + 8) (len data)); simpl; (lia || reflexivity).
Qed.

Lemma scanChunks_step fuel data o st :
  0 <= o -> o + 8 <= len data ->
  scanChunks (S fuel) data o st =
    (st1 ← (if String.eqb (chunkIdAt data o) "fmt " then readFmt data (o + 8) st else Ok st);
     if String.eqb (chunkIdAt data o) "data"
     then Ok (withData (o + 8) (chunkSizeAt data o) st1)
     else scanChunks fuel data (o + 8 + chunkSizeAt data o) st1).
Proof.
  intros Ho Hl. simpl.
  destruct (Z.leb_spec (o + 8) (len data)); [|lia]. simpl.
  rewrite chunkSize_read, bind_Ok by lia. reflexivity.
Qed.

Lemma scanChunks_data fuel data o st :
  0 <= o -> o + 8 <= len data -> enoughFuel data o fuel ->
  chunkIdAt data o = "data"%string ->
  scanChunks fuel data o st = Ok (withData (o + 8) (chunkSizeAt data o) st).
Proof.
  intros Ho Hl Hf Hid. destruct fuel as [|fuel]; [unfold enoughFuel in Hf; lia|].
  rewrite scanChunks_step, Hid by lia. reflexivity.
Qed.

Lemma scanChunks_truncated fuel data o st :
  0 <= o -> o + 8 <= len data -> enoughFuel data o fuel ->
  chunkIdAt data o = "fmt "%string -> len data < o + 24 ->
  scanChunks fuel data o st = Throw RangeError.
Proof.
  intros Ho Hl Hf Hid Ht. destruct fuel as [|fuel]; [unfold enoughFuel in Hf; lia|].
  rewrite scanChunks_step, Hid by lia. simpl.
  now rewrite readFmt_truncated by lia.
Qed.

Lemma skips_nonneg data o vs o' : skips data o vs o' -> 0 <= o -> 0 <= o'.
Proof.
  induction 1; intros; [lia|]. apply IHskips. pose proof (chunkSizeAt_nonneg data o). lia.
Qed.

Lemma skips_app data o vs o' ws o'' :
  skips data o vs o' -> skips data o' ws o'' -> skips data o (vs ++ ws) o''.
Proof.
  induction 1; intros; simpl; [assumption|]. constructor; auto.
Qed.

Lemma fmtComplete_app data vs ws :
  fmtComplete data (vs ++ ws) <-> fmtComplete data vs /\ fmtComplete data ws.
Proof. unfold fmtComplete. apply Forall_app. Qed.

(** Skipping complete chunks costs fuel and updates only the format. *)
Lemma scanChunks_skips data o vs o' :
  skips data o vs o' -> 0 <= o -> fmtComplete data vs ->
  forall fuel st, enoughFuel data o fuel ->
  exists fuel', enoughFuel data o' fuel' /\
    scanChunks fuel data o st =
    scanChunks fuel' data o' (withFormat (formatAfter data vs (formatOf st)) st).
Proof.
  induction 1 as [o | o vs o' Hl Hid Hsk IH]; intros Ho Hc fuel st Hf.
  - exists fuel. split; [assumption|]. simpl. now rewrite withFormat_formatOf.
  - destruct fuel as [|fuel]; [unfold enoughFuel in Hf; lia|].
    apply Forall_cons in Hc as [Hc0 Hc].
    pose proof (chunkSizeAt_nonneg data o) as Hsz.
    rewrite scanChunks_step by lia.
    apply String.eqb_neq in Hid. rewrite Hid.
    assert (Hf' : enoughFuel data (o + 8 + chunkSizeAt data o) fuel)
      by (unfold enoughFuel in *; lia).
    destruct (String.eqb_spec (chunkIdAt data o) "fmt ") as [Hfmt|Hfmt].
    + rewrite readFmt_complete, bind_Ok by (try apply Hc0; auto; lia).
      destruct (IH ltac:(lia) Hc fuel (withFormat (fmtFieldsAt data o) st) Hf') as (fuel' & Hf'' & ->).
      exists fuel'. split; [assumption|]. simpl.
      apply String.eqb_eq in Hfmt. rewrite Hfmt.
      now rewrite formatOf_withFormat, withFormat_withFormat.
    + rewrite bind_Ok.
      destruct (IH ltac:(lia) Hc fuel st Hf') as (fuel' & Hf'' & ->).
      exists fuel'. split; [assumption|]. simpl.
      apply String.eqb_neq in Hfmt. now rewrite Hfmt.
Qed.

Lemma scanChunks_outcome data fuel : forall o st,
  0 <= o -> enoughFuel data o fuel ->
  scanOutcome data o st (scanChunks fuel data o st).
Proof.
  induction fuel as [|fuel IH]; intros o st Ho Hf.
  - apply (scan_no_data _ _ _ _ [] o); [constructor|constructor|unfold enoughFuel in Hf; lia|].
    rewrite scanChunks_end by (unfold enoughFuel in Hf; lia).
    simpl. now rewrite withFormat_formatOf.
  - destruct (Z_lt_le_dec (len data) (o + 8)) as [Hend|Hin].
    { apply (scan_no_data _ _ _ _ [] o); [constructor|constructor|lia|].
      rewrite scanChunks_end by lia. simpl. now rewrite withFormat_formatOf. }
    destruct (String.eqb_spec (chunkIdAt data o) "data") as [Hd|Hd].
    { apply (scan_found _ _ _ _ [] o); [constructor|constructor|lia|assumption|].
      rewrite scanChunks_data by (auto; lia). simpl. now rewrite withFormat_formatOf. }
    pose proof (chunkSizeAt_nonneg data o) as Hsz.
    assert (Hf' : enoughFuel data (o + 8 + chunkSizeAt data o) fuel)
      by (unfold enoughFuel in *; lia).
    destruct (String.eqb_spec (chunkIdAt data o) "fmt ") as [Hfmt|Hfmt].
    + destruct (Z_lt_le_dec (len data) (o + 24)) as [Ht|Hfull].
      { apply (scan_truncated _ _ _ _ [] o); [constructor|constructor|lia|assumption|lia|].
        now apply scanChunks_truncated. }
      rewrite scanChunks_step by lia.
      apply String.eqb_eq in Hfmt as Hfmt'. apply String.eqb_neq in Hd as Hd'.
      rewrite Hfmt', Hd', readFmt_complete, bind_Ok by lia.
      destruct (IH (o + 8 + chunkSizeAt data o) (withFormat (fmtFieldsAt data o) st) ltac:(lia) Hf')
        as [vs o' Hs Hc He Hr | vs o' Hs Hc Hl Hid Hr | vs o' Hs Hc Hl Hid Ht Hr].
      * apply (scan_no_data _ _ _ _ (o :: vs) o'); [now constructor| |assumption|].
        { constructor; [intros _; lia | assumption]. }
        rewrite Hr. simpl. rewrite Hfmt'.
        now rewrite formatOf_withFormat, withFormat_withFormat.
      * apply (scan_found _ _ _ _ (o :: vs) o'); [now constructor| |assumption|assumption|].
        { constructor; [intros _; lia | assumption]. }
        rewrite Hr. simpl. rewrite Hfmt'.
        now rewrite formatOf_withFormat, withFormat_withFormat.
      * apply (scan_truncated _ _ _ _ (o :: vs) o'); [now constructor| |assumption|assumption|assumption|].
        { constructor; [intros _; lia | assumption]. }
        assumption.
    + rewrite scanChunks_step by lia.
      apply String.eqb_neq in Hfmt as Hfmt'. apply String.eqb_neq in Hd as Hd'.
      rewrite Hfmt', Hd', bind_Ok.
      destruct (IH (o + 8 + chunkSizeAt data o) st ltac:(lia) Hf')
        as [vs o' Hs Hc He Hr | vs o' Hs Hc Hl Hid Hr | vs o' Hs Hc Hl Hid Ht Hr].
      * apply (scan_no_data _ _ _ _ (o :: vs) o'); [now constructor| |assumption|].
        { constructor; [intros; contradiction | assumption]. }
        rewrite Hr. simpl. now rewrite Hfmt'.
      * apply (scan_found _ _ _ _ (o :: vs) o'); [now constructor| |assumption|assumption|].
        { constructor; [intros; contradiction | assumption]. }
        rewrite Hr. simpl. now rewrite Hfmt'.
      * apply (scan_truncated _ _ _ _ (o :: vs) o'); [now constructor| |assumption|assumption|assumption|].
        { constructor; [intros; contradiction | assumption]. }
        assumption.
Qed.

(** *** Sixteen-bit views *)

Lemma list_pair_ind {A} (P : list A -> Prop) :
  P [] -> (forall x, P [x]) -> (forall x y l, P l -> P (x :: y :: l)) -> forall l, P l.
Proof.
  intros H0 H1 H2.
  fix IH 1. intros [|x [|y l]]; [exact H0 | apply H1 | apply H2, IH].
Qed.

Lemma int16sOf_length bs : length (int16sOf bs) = (length bs / 2)%nat.
Proof.
  induction bs as [| x | x y l IH] using list_pair_ind; [reflexivity..|].
  cbn [int16sOf length]. rewrite IH.
  change (S (S (length l))) with (2 + length l)%nat.
  replace (2 + length l)%nat with (length l + 1 * 2)%nat by lia.
  rewrite Nat.div_add by lia. lia.
Qed.

Lemma int16sOf_take_even bs :
  int16sOf (take (2 * (length bs / 2)) bs) = int16sOf bs.
Proof.
  induction bs as [| x | x y l IH] using list_pair_ind; [reflexivity..|].
  cbn [length].
  replace (S (S (length l))) with (length l + 1 * 2)%nat by lia.
  rewrite Nat.div_add by lia.
  replace (2 * (length l / 2 + 1))%nat with (S (S (2 * (length l / 2))))%nat by lia.
  cbn [take firstn int16sOf]. now rewrite IH.
Qed.

Lemma int16sOf_int16 bs : Forall int16 (int16sOf bs).
Proof.
  induction bs as [| x | x y l IH] using list_pair_ind; cbn [int16sOf]; constructor;
    [apply int16LE_range | assumption].
Qed.

Lemma pcmBytes_length ss : length (pcmBytes ss) = (2 * length ss)%nat.
Proof. induction ss; cbn [pcmBytes flat_map app length] in *; [reflexivity|]. fold (pcmBytes ss). lia. Qed.

Lemma int16sOf_pcmBytes ss : Forall int16 ss -> int16sOf (pcmBytes ss) = ss.
Proof.
  induction 1 as [|s ss Hs _ IH]; [reflexivity|].
  cbn [pcmBytes flat_map app int16sOf]. fold (pcmBytes ss).
  now rewrite int16LE_bytes, IH.
Qed.

Lemma view_payload data a b :
  0 <= a -> a <= len data -> a mod 2 = 0 ->
  Int16Array_view data a (len (slice data a b) / 2) = Ok (int16sOf (slice data a b)).
Proof.
  intros Ha Hl Hev. unfold Int16Array_view.
  rewrite Hev. cbn [Z.eqb negb].
  set (pcm := slice data a b).
  assert (Hn : len pcm <= len data - a).
  { unfold pcm. unfold len at 1. rewrite slice_length_le by lia. lia. }
  pose proof (len_nonneg pcm) as Hp.
  assert (Hk : 0 <= 2 * (len pcm / 2) <= len pcm).
  { pose proof (Z.div_mod (len pcm) 2 ltac:(lia)). pose proof (Z.mod_pos_bound (len pcm) 2 ltac:(lia)). lia. }
  destruct (Z.ltb_spec (len data) (a + 2 * (len pcm / 2))); [lia|].
  f_equal. rewrite <- (int16sOf_take_even pcm). f_equal.
  transitivity (take (2 * (length pcm / 2)) (take (Z.to_nat (b - a)) (drop (Z.to_nat a) data)));
    [|reflexivity].
  rewrite take_take. unfold slice. f_equal.
  replace (a + 2 * (len pcm / 2) - a) with (2 * (len pcm / 2)) by lia.
  assert (length pcm <= Z.to_nat (b - a))%nat.
  { unfold pcm, slice. rewrite length_take. apply Nat.le_min_l. }
  assert (Z.to_nat (2 * (len pcm / 2)) = (2 * (length pcm / 2))%nat) as ->.
  { unfold len. change 2 with (Z.of_nat 2) at 2. rewrite <- Nat2Z.inj_div. lia. }
  assert (2 * (length pcm / 2) <= length pcm)%nat.
  { pose proof (Nat.div_mod_eq (length pcm) 2). lia. }
  lia.
Qed.

(** *** From the walk to the result of [parseWav] *)

Lemma markersOk_eqb data :
  markersOk data <->
  negb (String.eqb (toStringAscii data 0 4) "RIFF") || negb (String.eqb (toStringAscii data 8 12) "WAVE") = false.
Proof.
  unfold markersOk. rewrite orb_false_iff, !negb_false_iff, !String.eqb_eq. reflexivity.
Qed.

Lemma enoughFuel_init data : enoughFuel data 12 (length data).
Proof. unfold enoughFuel, len. lia. Qed.

Lemma parseWav_scan data :
  44 <= len data -> markersOk data ->
  parseWav data = (st ← scanChunks (length data) data 12 scanInit; decodeData data st).
Proof.
  intros Hl Hm. unfold parseWav.
  destruct (Z.ltb_spec (len data) 44); [lia|].
  apply markersOk_eqb in Hm. cbv zeta. now rewrite Hm.
Qed.

Lemma parseWav_found data vs o :
  44 <= len data -> markersOk data -> dataChunkAt data vs o -> fmtComplete data vs ->
  parseWav data =
    decodeData data (withData (o + 8) (chunkSizeAt data o)
                       (withFormat (formatAfter data vs defaultFormat) scanInit)).
Proof.
  intros Hl Hm (Hs & Ho & Hid) Hc.
  rewrite parseWav_scan by assumption.
  destruct (scanChunks_skips _ _ _ _ Hs ltac:(lia) Hc (length data) scanInit (enoughFuel_init data))
    as (fuel' & Hf & ->).
  rewrite scanChunks_data; auto.
  eapply skips_nonneg; eauto; lia.
Qed.

Lemma parseWav_noData data vs o :
  44 <= len data -> markersOk data -> noDataChunk data vs o -> fmtComplete data vs ->
  parseWav data = Throw WavNoDataChunk.
Proof.
  intros Hl Hm (Hs & Ho) Hc.
  rewrite parseWav_scan by assumption.
  destruct (scanChunks_skips _ _ _ _ Hs ltac:(lia) Hc (length data) scanInit (enoughFuel_init data))
    as (fuel' & Hf & ->).
  rewrite scanChunks_end by lia. reflexivity.
Qed.

Lemma parseWav_truncated data vs o :
  44 <= len data -> markersOk data -> skips data 12 vs o -> fmtComplete data vs ->
  o + 8 <= len data -> chunkIdAt data o = "fmt "%string -> len data < o + 24 ->
  parseWav data = Throw RangeError.
Proof.
  intros Hl Hm Hs Hc Ho Hid Ht.
  rewrite parseWav_scan by assumption.
  destruct (scanChunks_skips _ _ _ _ Hs ltac:(lia) Hc (length data) scanInit (enoughFuel_init data))
    as (fuel' & Hf & ->).
  rewrite scanChunks_truncated; auto.
  eapply skips_nonneg; eauto; lia.
Qed.

Lemma decodeData_mono data o size f :
  0 <= o -> o <= len data -> o mod 2 = 0 -> fBits f = 16 -> fChannels f = 1 ->
  decodeData data (withData o size (withFormat f scanInit)) =
    Ok {| sampleRate := fSampleRate f; channels := 1; bitsPerSample := 16;
          samples := int16sOf (slice data o (o + size)) |}.
Proof.
  intros Ho Hl Hev Hb Hc. unfold decodeData. cbn [withData withFormat sPcmOffset sBitsPerSample sChannels sPcmSize sSampleRate].
  destruct (Z.ltb_spec o 0); [lia|].
  rewrite Hb, Hc. cbn [Z.eqb Pos.eqb negb].
  rewrite view_payload by assumption. reflexivity.
Qed.

Lemma decodeData_not16 data o size f :
  0 <= o -> fBits f <> 16 ->
  decodeData data (withData o size (withFormat f scanInit)) = Throw WavNot16Bit.
Proof.
  intros Ho Hb. unfold decodeData. cbn [withData withFormat sPcmOffset sBitsPerSample].
  destruct (Z.ltb_spec o 0); [lia|].
  destruct (Z.eqb_spec (fBits f) 16); [contradiction|reflexivity].
Qed.

(** *** The canonical file *)

Lemma writeUInt32LE_inv v bs : writeUInt32LE v = Ok bs -> 0 <= v <= 4294967295 /\ bs = le32 v.
Proof.
  unfold writeUInt32LE. destruct (Z.ltb_spec v 0), (Z.ltb_spec 4294967295 v); cbn [orb]; try discriminate.
  intros [= <-]. split; [lia|reflexivity].
Qed.

Lemma writeUInt32LE_ok v : 0 <= v <= 4294967295 -> writeUInt32LE v = Ok (le32 v).
Proof.
  intros. unfold writeUInt32LE. destruct (Z.ltb_spec v 0), (Z.ltb_spec 4294967295 v); cbn [orb]; try lia.
  reflexivity.
Qed.

Lemma writeUInt32LE_fail v : ~ 0 <= v <= 4294967295 -> writeUInt32LE v = Throw RangeError.
Proof.
  intros. unfold writeUInt32LE. destruct (Z.ltb_spec v 0), (Z.ltb_spec 4294967295 v); cbn [orb]; try lia;
  reflexivity.
Qed.

Lemma writeInt16LE_ok v : int16 v -> writeInt16LE v = Ok (le16 v).
Proof.
  unfold int16, writeInt16LE. intros.
  destruct (Z.ltb_spec v (-32768)), (Z.ltb_spec 32767 v); cbn [orb]; try lia. reflexivity.
Qed.

Lemma writeInt16LE_inv v bs : writeInt16LE v = Ok bs -> int16 v /\ bs = le16 v.
Proof.
  unfold int16, writeInt16LE.
  destruct (Z.ltb_spec v (-32768)), (Z.ltb_spec 32767 v); cbn [orb]; try discriminate.
  intros [= <-]. split; [lia|reflexivity].
Qed.

Lemma pcmOfSamples_ok ss : Forall int16 ss -> pcmOfSamples ss = Ok (pcmBytes ss).
Proof.
  induction 1 as [|s ss Hs _ IH]; [reflexivity|].
  cbn [pcmOfSamples]. rewrite writeInt16LE_ok, bind_Ok, IH, bind_Ok by assumption. reflexivity.
Qed.

Lemma pcmOfSamples_inv ss bs : pcmOfSamples ss = Ok bs -> Forall int16 ss /\ bs = pcmBytes ss.
Proof.
  revert bs. induction ss as [|s ss IH]; intros bs; cbn [pcmOfSamples].
  - intros [= <-]. split; [constructor|reflexivity].
  - destruct (writeInt16LE s) as [b|] eqn:Hw; [|discriminate]. rewrite bind_Ok.
    destruct (pcmOfSamples ss) as [bs'|] eqn:Hp; [|discriminate]. rewrite bind_Ok.
    intros [= <-]. apply writeInt16LE_inv in Hw as [Hs ->].
    destruct (IH _ eq_refl) as [Hss ->]. split; [now constructor|reflexivity].
Qed.

Lemma pcm16ToWavBuffer_mono pcm sr :
  pcm16ToWavBuffer pcm sr 1 =
    if decide (0 <= 36 + len pcm <= 4294967295 /\ 0 <= sr * 2 <= 4294967295 /\ 0 <= sr)
    then Ok (canonicalHeader sr (len pcm) ++ pcm)
    else Throw RangeError.
Proof.
  unfold pcm16ToWavBuffer. cbv zeta.
  change (16 / 8) with 2. rewrite !Z.mul_1_l, Z.mul_1_r.
  pose proof (len_nonneg pcm) as Hn.
  destruct (decide (0 <= 36 + len pcm <= 4294967295)) as [H1|H1].
  2:{ rewrite (writeUInt32LE_fail (36 + len pcm)) by assumption.
      rewrite decide_False by tauto. reflexivity. }
  rewrite (writeUInt32LE_ok (36 + len pcm)) by assumption. rewrite bind_Ok.
  change (writeUInt32LE 16) with (Ok (le32 16)). rewrite bind_Ok.
  change (writeUInt16LE 1) with (Ok (le16 1)). rewrite !bind_Ok.
  destruct (decide (0 <= sr <= 4294967295)) as [H2|H2].
  2:{ rewrite (writeUInt32LE_fail sr) by assumption. rewrite decide_False by lia. reflexivity. }
  rewrite (writeUInt32LE_ok sr), bind_Ok by assumption.
  destruct (decide (0 <= sr * 2 <= 4294967295)) as [H3|H3].
  2:{ rewrite (writeUInt32LE_fail (sr * 2)) by assumption. rewrite decide_False by lia. reflexivity. }
  rewrite (writeUInt32LE_ok (sr * 2)), bind_Ok by assumption.
  change (writeUInt16LE 2) with (Ok (le16 2)). rewrite !bind_Ok.
  change (writeUInt16LE 16) with (Ok (le16 16)). rewrite !bind_Ok.
  rewrite (writeUInt32LE_ok (len pcm)), bind_Ok by lia.
  rewrite decide_True by lia. reflexivity.
Qed.

Lemma wavOfSamples_ok sr ss :
  fitsHeader sr ss ->
  wavOfSamples sr ss = Ok (canonicalFile sr ss).
Proof.
  intros (H0 & H1 & H2 & H3). unfold wavOfSamples.
  rewrite pcmOfSamples_ok, bind_Ok, pcm16ToWavBuffer_mono by assumption.
  assert (len (pcmBytes ss) = 2 * len ss) as -> by (unfold len; rewrite pcmBytes_length; lia).
  pose proof (len_nonneg ss). rewrite decide_True by lia. reflexivity.
Qed.

Lemma wavOfSamples_inv sr ss W :
  wavOfSamples sr ss = Ok W ->
  fitsHeader sr ss /\ W = canonicalFile sr ss.
Proof.
  unfold wavOfSamples. destruct (pcmOfSamples ss) as [pcm|] eqn:Hp; [|discriminate].
  apply pcmOfSamples_inv in Hp as [Hss ->]. rewrite bind_Ok, pcm16ToWavBuffer_mono.
  assert (len (pcmBytes ss) = 2 * len ss) as -> by (unfold len; rewrite pcmBytes_length; lia).
  case_decide as Hd; [|discriminate]. intros [= <-].
  split; [|reflexivity]. unfold fitsHeader. intuition lia.
Qed.

Lemma wavOfSamples_throws sr ss e : wavOfSamples sr ss = Throw e -> e = RangeError.
Proof.
  unfold wavOfSamples. destruct (pcmOfSamples ss) as [pcm|e'] eqn:Hp.
  - rewrite bind_Ok, pcm16ToWavBuffer_mono. case_decide; congruence.
  - rewrite bind_Throw. intros [= <-].
    clear -Hp. induction ss as [|s ss IH]; cbn [pcmOfSamples] in Hp; [discriminate|].
    unfold writeInt16LE in Hp.
    destruct ((s <? -32768) || (32767 <? s)); [now inversion Hp|].
    rewrite bind_Ok in Hp. destruct (pcmOfSamples ss); [discriminate|].
    rewrite bind_Throw in Hp. inversion Hp; subst. now apply IH.
Qed.

Section Canonical.
Variables (sr : Z) (ss : list Z).
Hypothesis Hfit : fitsHeader sr ss.

Lemma canonical_len : len (canonicalFile sr ss) = 44 + 2 * len ss.
Proof.
  unfold canonicalFile. rewrite len_app.
  assert (len (pcmBytes ss) = 2 * len ss) as -> by (unfold len; rewrite pcmBytes_length; lia).
  reflexivity.
Qed.

Lemma canonical_markers : markersOk (canonicalFile sr ss).
Proof. split; reflexivity. Qed.

Lemma canonical_fmt_id : chunkIdAt (canonicalFile sr ss) 12 = "fmt "%string.
Proof. reflexivity. Qed.

Lemma canonical_data_id : chunkIdAt (canonicalFile sr ss) 36 = "data"%string.
Proof. reflexivity. Qed.

Lemma canonical_fmt_size : chunkSizeAt (canonicalFile sr ss) 12 = 16.
Proof. reflexivity. Qed.

Lemma canonical_data_size : chunkSizeAt (canonicalFile sr ss) 36 = 2 * len ss.
Proof.
  destruct Hfit as (H0 & H1 & H2 & H3). pose proof (len_nonneg ss).
  unfold chunkSizeAt, u32At, readUInt32LE. change (36 + 4 <? 0) with false. cbv iota.
  change (slice (canonicalFile sr ss) (36 + 4) (36 + 4 + 4)) with (le32 (2 * len ss)).
  unfold le32. apply u32_bytes. lia.
Qed.

Lemma canonical_fmt_fields :
  fmtFieldsAt (canonicalFile sr ss) 12 = {| fChannels := 1; fSampleRate := sr; fBits := 16 |}.
Proof.
  destruct Hfit as (H0 & H1 & H2 & H3).
  unfold fmtFieldsAt. f_equal; try reflexivity.
  unfold u32At, readUInt32LE. change (12 + 8 + 4 <? 0) with false. cbv iota.
  change (slice (canonicalFile sr ss) (12 + 8 + 4) (12 + 8 + 4 + 4)) with (le32 sr).
  unfold le32. apply u32_bytes. lia.
Qed.

Lemma canonical_payload : slice (canonicalFile sr ss) 44 (44 + 2 * len ss) = pcmBytes ss.
Proof.
  unfold slice. replace (44 + 2 * len ss - 44) with (2 * len ss) by lia.
  change (drop (Z.to_nat 44) (canonicalFile sr ss)) with (pcmBytes ss).
  apply take_ge. rewrite pcmBytes_length. unfold len. lia.
Qed.

Lemma canonical_walk : dataChunkAt (canonicalFile sr ss) [12] 36 /\ fmtComplete (canonicalFile sr ss) [12].
Proof.
  pose proof canonical_len as Hl. pose proof (len_nonneg ss) as Hn.
  split; [split; [|split]|].
  - constructor; [lia | rewrite canonical_fmt_id; discriminate |].
    rewrite canonical_fmt_size. constructor.
  - lia.
  - apply canonical_data_id.
  - constructor; [intros _; lia | constructor].
Qed.

Lemma parseWav_canonical :
  parseWav (canonicalFile sr ss) = Ok {| sampleRate := sr; channels := 1; bitsPerSample := 16; samples := ss |}.
Proof.
  pose proof canonical_len as Hl. pose proof (len_nonneg ss) as Hn.
  destruct canonical_walk as [Hw Hc].
  rewrite (parseWav_found (canonicalFile sr ss) [12] 36) by (auto using canonical_markers; lia).
  unfold formatAfter. cbn [fold_left]. rewrite canonical_fmt_id. cbn [String.eqb Ascii.eqb Bool.eqb].
  rewrite canonical_fmt_fields, canonical_data_size.
  rewrite decodeData_mono by (try reflexivity; lia).
  cbn [fSampleRate]. change (36 + 8) with 44.
  rewrite canonical_payload, int16sOf_pcmBytes by apply Hfit. reflexivity.
Qed.
End Canonical.

(** *** Loops that store one element per iteration *)

Lemma get_lookup (a : list Z) (i : Z) : 0 <= i -> get a i = a !! Z.to_nat i.
Proof. intros. unfold get. destruct (Z.ltb_spec i 0); [lia|reflexivity]. Qed.

Lemma get_nat (a : list Z) (k : nat) : get a (Z.of_nat k) = a !! k.
Proof. rewrite get_lookup by lia. now rewrite Nat2Z.id. Qed.

Lemma set_length wrap (a : list Z) i v : length (set wrap a i v) = length a.
Proof. unfold set. destruct (i <? 0); [reflexivity|apply length_insert]. Qed.

Lemma set_lookup wrap (a : list Z) i v (k : nat) :
  0 <= i ->
  set wrap a i v !! k =
    if decide (k = Z.to_nat i /\ (k < length a)%nat) then Some (storeValue wrap v) else a !! k.
Proof.
  intros Hi. unfold set. destruct (Z.ltb_spec i 0); [lia|].
  case_decide as Hd.
  - destruct Hd as [-> Hk]. now apply list_lookup_insert_eq.
  - destruct (decide (k = Z.to_nat i)) as [->|Hne].
    + rewrite list_insert_ge by lia. reflexivity.
    + now rewrite list_lookup_insert_ne.
Qed.

Lemma forLoop_pointwise wrap off (h : Z -> option Z -> option Z) (body : Z -> list Z -> list Z) :
  0 <= off ->
  (forall i a, body i a = set wrap a (off + i) (h i (get a (off + i)))) ->
  forall n i0 (a : list Z), 0 <= i0 ->
  length (forLoop n i0 body a) = length a /\
  forall k : nat,
    forLoop n i0 body a !! k =
      if decide (off + i0 <= Z.of_nat k < off + i0 + Z.of_nat n /\ (k < length a)%nat)
      then Some (storeValue wrap (h (Z.of_nat k - off) (a !! k)))
      else a !! k.
Proof.
  intros Hoff Hbody. induction n as [|n IH]; intros i0 a Hi0.
  - split; [reflexivity|]. intros k. cbn [forLoop]. case_decide; [lia|reflexivity].
  - cbn [forLoop]. destruct (IH (i0 + 1) (body i0 a) ltac:(lia)) as [Hlen Hlk].
    rewrite Hbody in Hlen, Hlk. rewrite Hbody.
    rewrite set_length in Hlen, Hlk. split; [assumption|].
    intros k. rewrite Hlk, !set_lookup by lia. rewrite (get_lookup a (off + i0)) by lia.
    repeat case_decide; try lia; try reflexivity.
    match goal with H : _ = Z.to_nat _ /\ _ |- _ => destruct H as [-> _] end.
    replace (Z.of_nat (Z.to_nat (off + i0)) - off) with i0 by lia. reflexivity.
Qed.

Lemma ToInt16_id z : int16 z -> ToInt16 z = z.
Proof. unfold int16, ToInt16. intros. rewrite Z.mod_small; lia. Qed.

Lemma ToInt32_id z : -2147483648 <= z <= 2147483647 -> ToInt32 z = z.
Proof. unfold ToInt32. intros. rewrite Z.mod_small; lia. Qed.

Lemma clamp16_int16 z : int16 (clamp16 z).
Proof. unfold int16, clamp16. lia. Qed.

Lemma zeros_length n : length (zeros n) = Z.to_nat n.
Proof. apply length_replicate. Qed.

Lemma zeros_lookup n (k : nat) :
  zeros n !! k = if decide (k < Z.to_nat n)%nat then Some 0 else None.
Proof.
  unfold zeros. case_decide.
  - now apply lookup_replicate_2.
  - apply lookup_ge_None. rewrite length_replicate. lia.
Qed.

(** *** The down-mix loop against its specification *)

Lemma frameSum_loop (source : list Z) (base : Z) : forall n i s,
  0 <= base -> 0 <= i -> (Z.to_nat (base + i) + n <= length source)%nat ->
  forLoop n i
    (fun channel sum =>
       match sum, get source (base + channel) with
       | Some s, Some x => Some (s + x)
       | _, _ => None
       end) (Some s)
  = Some (s + sumZ (take n (drop (Z.to_nat (base + i)) source))).
Proof.
  induction n as [|n IH]; intros i s Hb Hi Hl.
  - cbn [forLoop]. rewrite take_0. cbn [sumZ fold_right]. f_equal. lia.
  - cbn [forLoop]. rewrite get_lookup by lia.
    destruct (source !! Z.to_nat (base + i)) as [x|] eqn:Hx.
    2:{ apply lookup_ge_None in Hx. lia. }
    rewrite IH by lia.
    f_equal.
    rewrite (drop_S _ _ _ Hx). cbn [take firstn sumZ fold_right].
    replace (Z.to_nat (base + (i + 1))) with (S (Z.to_nat (base + i))) by lia.
    unfold sumZ. lia.
Qed.

Lemma frameSum_spec (source : list Z) (c frame : nat) :
  ((frame + 1) * c <= length source)%nat ->
  frameSum source (Z.of_nat c) (Z.of_nat frame) = Some (sumZ (frameOf c source frame)).
Proof.
  intros Hl. unfold frameSum. rewrite Nat2Z.id.
  rewrite (frameSum_loop source (Z.of_nat frame * Z.of_nat c)) by lia.
  unfold frameOf. rewrite Z.add_0_r, Z.add_0_l. do 4 f_equal. lia.
Qed.

Lemma Qfloor_half_div (p c : Z) :
  0 < c -> Qfloor (inject_Z p / 2 / inject_Z c)%Q = p / 2 / c.
Proof.
  intros Hc. rewrite Z.div_div by lia. rewrite Zdiv_Qdiv.
  apply Qfloor_comp. rewrite inject_Z_mult.
  change (inject_Z 2) with 2%Q. field.
  intros H. apply (inject_Z_injective c 0) in H. lia.
Qed.

Lemma downmix_refines (pcmLength : Z) (source : list Z) (c : nat) :
  (0 < c)%nat -> len source = pcmLength / 2 ->
  downmix pcmLength source (Z.of_nat c) = Ok (downmix_spec c source).
Proof.
  intros Hc Hlen. unfold downmix.
  destruct (Z.eqb_spec (Z.of_nat c) 0); [lia|].
  cbv zeta. f_equal.
  set (totalFrames := (inject_Z pcmLength / 2 / inject_Z (Z.of_nat c))%Q).
  assert (Hfloor : Qfloor totalFrames = Z.of_nat (length source / c)).
  { unfold totalFrames. rewrite Qfloor_half_div by lia. rewrite <- Hlen.
    unfold len. now rewrite Nat2Z.inj_div. }
  assert (Hceil : Qfloor totalFrames <= Qceiling totalFrames).
  { rewrite Zle_Qle. apply Qle_floor_ceiling. }
  rewrite Hfloor in *.
  set (body := fun frame mono => set ToInt16 mono frame _).
  destruct (forLoop_pointwise ToInt16 0
              (fun i _ => monoOfSum (Z.of_nat c) (frameSum source (Z.of_nat c) i)) body
              ltac:(lia) ltac:(reflexivity)
              (Z.to_nat (Qceiling totalFrames)) 0 (zeros (Z.of_nat (length source / c))) ltac:(lia))
    as [Hl Hk].
  apply list_eq. intros k. rewrite Hk. clear Hk Hl.
  unfold downmix_spec. rewrite list_lookup_fmap, zeros_length, zeros_lookup.
  destruct (decide (k < length source / c)%nat) as [Hlt|Hge].
  - rewrite lookup_seq_lt by assumption. cbn [fmap option_fmap option_map].
    rewrite decide_True by lia. f_equal. cbn [Nat.add].
    rewrite Z.sub_0_r, frameSum_spec.
    2:{ pose proof (Nat.div_mod_eq (length source) c).
        assert ((k + 1) * c <= c * (length source / c))%nat by nia. lia. }
    cbn [monoOfSum storeValue]. unfold downmixFrame, Math_round.
    apply ToInt16_id, clamp16_int16.
  - rewrite lookup_seq_ge by lia. cbn.
    rewrite decide_False by lia. rewrite decide_False by lia. reflexivity.
Qed.

Lemma downmix_throws pcmLength source c e :
  downmix pcmLength source c = Throw e -> e = RangeError.
Proof.
  unfold downmix. destruct (c =? 0); [|discriminate].
  destruct (pcmLength =? 0); congruence.
Qed.

Lemma view_throws data o n e : Int16Array_view data o n = Throw e -> e = RangeError.
Proof.
  unfold Int16Array_view. destruct (negb _); [congruence|]. destruct (_ <? _); congruence.
Qed.

Lemma decodeData_throws data st e :
  decodeData data st = Throw e ->
  (e = WavNoDataChunk /\ sPcmOffset st < 0) \/
  (e = WavNot16Bit /\ 0 <= sPcmOffset st /\ sBitsPerSample st <> 16) \/
  (e = RangeError /\ 0 <= sPcmOffset st /\ sBitsPerSample st = 16).
Proof.
  unfold decodeData.
  destruct (Z.ltb_spec (sPcmOffset st) 0); [intros [= <-]; left; split; [reflexivity|lia]|].
  destruct (Z.eqb_spec (sBitsPerSample st) 16); cbn [negb];
    [|intros [= <-]; right; left; auto].
  cbv zeta.
  destruct (Int16Array_view _ _ _) as [source|e'] eqn:Hv.
  - rewrite bind_Ok. destruct (sChannels st =? 1); [discriminate|].
    destruct (downmix _ _ _) as [mono|e''] eqn:Hd; [discriminate|].
    rewrite bind_Throw. intros [= <-]. apply downmix_throws in Hd. auto.
  - rewrite bind_Throw. intros [= <-]. apply view_throws in Hv. auto.
Qed.

Lemma decodeData_downmix data o size f (c : nat) :
  0 <= o -> o <= len data -> o mod 2 = 0 -> fBits f = 16 ->
  fChannels f = Z.of_nat c -> (1 < c)%nat ->
  decodeData data (withData o size (withFormat f scanInit)) =
    Ok {| sampleRate := fSampleRate f; channels := 1; bitsPerSample := 16;
          samples := downmix_spec c (int16sOf (slice data o (o + size))) |}.
Proof.
  intros Ho Hl Hev Hb Hc Hc1. unfold decodeData.
  cbn [withData withFormat sPcmOffset sBitsPerSample sChannels sPcmSize sSampleRate].
  destruct (Z.ltb_spec o 0); [lia|].
  rewrite Hb, Hc. cbn [Z.eqb Pos.eqb negb]. cbv zeta.
  rewrite view_payload, bind_Ok by assumption.
  destruct (Z.eqb_spec (Z.of_nat c) 1); [lia|].
  rewrite downmix_refines; [reflexivity|lia|].
  unfold len. rewrite int16sOf_length. now rewrite Nat2Z.inj_div.
Qed.

(** ** Outcomes of [parseWav] *)

Lemma markersOk_dec data : {markersOk data} + {~ markersOk data}.
Proof.
  unfold markersOk.
  destruct (string_dec (toStringAscii data 0 4) "RIFF"), (string_dec (toStringAscii data 8 12) "WAVE");
    (left; tauto) || (right; tauto).
Qed.

Lemma parseWav_small data : len data < 44 -> parseWav data = Throw WavTooSmall.
Proof. intros. unfold parseWav. destruct (Z.ltb_spec (len data) 44); [reflexivity|lia]. Qed.

Lemma parseWav_badHeader data :
  44 <= len data -> ~ markersOk data -> parseWav data = Throw WavBadHeader.
Proof.
  intros Hl Hm. unfold parseWav. destruct (Z.ltb_spec (len data) 44); [lia|].
  cbv zeta. rewrite markersOk_eqb in Hm. apply not_false_is_true in Hm. now rewrite Hm.
Qed.

(** For an input that passes the two header checks, [parseWav] is its
    decoding step applied to one of the three outcomes of the chunk walk. *)
Lemma parseWav_outcome data :
  44 <= len data -> markersOk data ->
  (exists vs o, noDataChunk data vs o /\ fmtComplete data vs /\
     parseWav data = Throw WavNoDataChunk) \/
  (exists vs o, dataChunkAt data vs o /\ fmtComplete data vs /\
     parseWav data =
       decodeData data (withData (o + 8) (chunkSizeAt data o)
                          (withFormat (formatAfter data vs defaultFormat) scanInit))) \/
  (exists vs o, skips data 12 vs o /\ fmtComplete data vs /\ o + 8 <= len data /\
     chunkIdAt data o = "fmt "%string /\ len data < o + 24 /\
     parseWav data = Throw RangeError).
Proof.
  intros Hl Hm.
  destruct (scanChunks_outcome data (length data) 12 scanInit ltac:(lia) (enoughFuel_init data))
    as [vs o Hs Hc He Hr | vs o Hs Hc Ho Hid Hr | vs o Hs Hc Ho Hid Ht Hr].
  - left. exists vs, o. split; [split; assumption|]. split; [assumption|].
    now apply (parseWav_noData data vs o).
  - right; left. exists vs, o. split; [repeat split; assumption|]. split; [assumption|].
    now apply parseWav_found.
  - right; right. exists vs, o. repeat (split; [assumption|]).
    now apply (parseWav_truncated data vs o).
Qed.

Lemma decodeData_found_throws data o size f e :
  0 <= o ->
  decodeData data (withData o size (withFormat f scanInit)) = Throw e ->
  (e = WavNot16Bit /\ fBits f <> 16) \/ (e = RangeError /\ fBits f = 16).
Proof.
  intros Ho H. apply decodeData_throws in H.
  cbn [withData withFormat sPcmOffset sBitsPerSample] in H.
  destruct H as [[_ H]|[(-> & _ & H)|(-> & _ & H)]]; [lia|auto..].
Qed.

Lemma dataChunkAt_nonneg data vs o : dataChunkAt data vs o -> 0 <= o.
Proof. intros (Hs & _). eapply skips_nonneg; eauto. lia. Qed.

(** *** The model on small inputs *)

Example Math_round_ties :
  Math_round (5 # 2) = 3 /\ Math_round (-5 # 2) = -2 /\ Math_round (-1 # 2) = 0.
Proof. repeat split. Qed.

Example ascii_ignores_high_bit : toStringAscii [xd2; xc9; xc6; xc6] 0 4 = "RIFF"%string.
Proof. reflexivity. Qed.

Example write_then_parse :
  (W ← wavOfSamples 8000 [1; -2; 300; -32768]; parseWav W) =
  Ok {| sampleRate := 8000; channels := 1; bitsPerSample := 16;
        samples := [1; -2; 300; -32768] |}.
Proof. vm_compute. reflexivity. Qed.

Example rate_too_large : wavOfSamples 2147483648 [] = Throw RangeError.
Proof. reflexivity. Qed.

Example downmix_partial_frame :
  downmix 10 [100; -99; 3; 4; 7] 2 = Ok [1; 4].
Proof. vm_compute. reflexivity. Qed.

Example eight_bit_rejected : parseWav eightBitData = Throw WavNot16Bit.
Proof. vm_compute. reflexivity. Qed.

(** ** The codec: claims *)

Lemma reserialize_canonical sr ss W :
  wavOfSamples sr ss = Ok W ->
  parseWav W = Ok {| sampleRate := sr; channels := 1; bitsPerSample := 16; samples := ss |} /\
  (r ← parseWav W; wavOfSamples (sampleRate r) (samples r)) = Ok W.
Proof.
  intros HW. destruct (wavOfSamples_inv _ _ _ HW) as [Hfit ->].
  rewrite parseWav_canonical by assumption. split; [reflexivity|].
  rewrite bind_Ok. cbn [sampleRate samples]. now rewrite <- (wavOfSamples_ok sr ss Hfit).
Qed.

(** C1. Serialising, parsing and serialising again gives the bytes of the
    first serialisation, for every mono buffer with a positive sample rate
    and int16 samples; a buffer whose rate and size fit the 32-bit header
    fields is serialised, and parses back to itself; and for every input
    [W0] that parses, a second parse/serialise cycle applied to
    [serialize(parse(W0))] reproduces those bytes. *)
Theorem wav_round_trip (sr : Z) (ss : list Z) :
  0 < sr -> Forall int16 ss ->
  (W ← wavOfSamples sr ss; r ← parseWav W; wavOfSamples (sampleRate r) (samples r))
    = wavOfSamples sr ss
  /\ (sr * 2 <= 4294967295 -> 36 + 2 * len ss <= 4294967295 ->
      exists W, wavOfSamples sr ss = Ok W /\
        parseWav W = Ok {| sampleRate := sr; channels := 1; bitsPerSample := 16; samples := ss |} /\
        (r ← parseWav W; wavOfSamples (sampleRate r) (samples r)) = Ok W)
  /\ (forall W0 r W, parseWav W0 = Ok r ->
        wavOfSamples (sampleRate r) (samples r) = Ok W ->
        (r' ← parseWav W; wavOfSamples (sampleRate r') (samples r')) = Ok W).
Proof.
  intros Hsr Hss. split; [|split].
  - destruct (wavOfSamples sr ss) as [W|e] eqn:HW; [|reflexivity].
    rewrite bind_Ok. now destruct (reserialize_canonical _ _ _ HW) as [_ ->].
  - intros H1 H2.
    assert (Hfit : fitsHeader sr ss) by (unfold fitsHeader; intuition lia).
    exists (canonicalFile sr ss).
    pose proof (wavOfSamples_ok sr ss Hfit) as HW.
    split; [assumption|]. now apply reserialize_canonical.
  - intros W0 r W _ HW. now apply (reserialize_canonical _ _ _ HW).
Qed.

Lemma wav_round_trip_witness :
  0 < 24000 /\ Forall int16 [1; -2; 300; -32768] /\
  (W ← wavOfSamples 24000 [1; -2; 300; -32768];
   r ← parseWav W; wavOfSamples (sampleRate r) (samples r))
    = wavOfSamples 24000 [1; -2; 300; -32768].
Proof.
  assert (H1 : 0 < 24000) by lia.
  assert (H2 : Forall int16 [1; -2; 300; -32768])
    by (repeat constructor; unfold int16; lia).
  split; [exact H1|]. split; [exact H2|].
  exact (proj1 (wav_round_trip 24000 [1; -2; 300; -32768] H1 H2)).
Defined.

(** Two walks from the same offset follow the same chunks: the shorter
    is the beginning of the longer. *)
Lemma skips_linear data a vs o :
  skips data a vs o -> forall vs' o', skips data a vs' o' ->
  (length vs <= length vs')%nat ->
  exists ws, vs' = vs ++ ws /\ skips data o ws o'.
Proof.
  induction 1 as [o|o vs o1 Hb Hid Hs IH]; intros vs' o' H' Hlen.
  - exists vs'. split; [reflexivity|exact H'].
  - inversion H' as [|? vs1 ? Hb' Hid' Hs']; subst.
    + cbn in Hlen. lia.
    + destruct (IH vs1 o' Hs') as (ws & -> & Hws); [cbn in Hlen; lia|].
      exists ws. split; [reflexivity|assumption].
Qed.

Lemma noDataChunk_excludes_data data vs o vs' o' :
  noDataChunk data vs o -> dataChunkAt data vs' o' -> False.
Proof.
  intros [Hs He] (Hs' & Ho' & Hid').
  destruct (le_ge_dec (length vs) (length vs')) as [Hl|Hl].
  - destruct (skips_linear _ _ _ _ Hs _ _ Hs' Hl) as (ws & _ & Hws).
    inversion Hws; subst; lia.
  - destruct (skips_linear _ _ _ _ Hs' _ _ Hs Hl) as (ws & _ & Hws).
    inversion Hws; subst; [lia|contradiction].
Qed.

Lemma dataChunkAt_unique data vs o vs' o' :
  dataChunkAt data vs o -> dataChunkAt data vs' o' -> vs' = vs /\ o' = o.
Proof.
  intros (Hs & Ho & Hid) (Hs' & Ho' & Hid').
  destruct (le_ge_dec (length vs) (length vs')) as [Hl|Hl].
  - destruct (skips_linear _ _ _ _ Hs _ _ Hs' Hl) as (ws & -> & Hws).
    inversion Hws; subst; [now rewrite app_nil_r|contradiction].
  - destruct (skips_linear _ _ _ _ Hs' _ _ Hs Hl) as (ws & -> & Hws).
    inversion Hws; subst; [now rewrite app_nil_r|contradiction].
Qed.

(** C4, as amended.  An input shorter than 44 bytes, or one whose markers
    do not read "RIFF" and "WAVE", fails with InvalidContainer, and the
    only other input that does is one in which the chunk walk meets no
    "data" chunk.  [parseWav] fails with UnsupportedFormat only when the
    two header checks pass, the walk meets a "data" chunk, and the format
    in effect there (the last "fmt " chunk before it, else the default)
    declares a bit depth other than 16.  And whenever [parseWav] ends in
    an outcome of its own, a walk that meets no "data" chunk gives
    InvalidContainer, and a bit depth other than 16 in effect at the
    "data" chunk gives UnsupportedFormat. *)
Theorem parseWav_failures (data : list byte) :
  (len data < 44 \/ ~ markersOk data -> failsWith (parseWav data) InvalidContainer)
  /\ (failsWith (parseWav data) InvalidContainer ->
        len data < 44 \/ ~ markersOk data \/ exists vs o, noDataChunk data vs o)
  /\ (failsWith (parseWav data) UnsupportedFormat ->
        44 <= len data /\ markersOk data /\
        exists vs o, dataChunkAt data vs o /\
          fBits (formatAfter data vs defaultFormat) <> 16)
  /\ (ownOutcome (parseWav data) -> 44 <= len data -> markersOk data ->
        ((exists vs o, noDataChunk data vs o) ->
           failsWith (parseWav data) InvalidContainer)
        /\ (forall vs o, dataChunkAt data vs o ->
              fBits (formatAfter data vs defaultFormat) <> 16 ->
              failsWith (parseWav data) UnsupportedFormat)).
Proof.
  destruct (Z_lt_le_dec (len data) 44) as [Hs|Hl].
  { pose proof (parseWav_small data Hs) as Hp. rewrite Hp.
    split; [intros _; exists WavTooSmall; auto|].
    split; [auto|]. split; [intros (e & [= <-] & [=])|]. intros _ ?; lia. }
  destruct (markersOk_dec data) as [Hm|Hm].
  2:{ pose proof (parseWav_badHeader data Hl Hm) as Hp. rewrite Hp.
      split; [intros _; exists WavBadHeader; auto|].
      split; [auto|]. split; [intros (e & [= <-] & [=])|]. intros _ _ ?; contradiction. }
  split; [intros [?|?]; [lia|contradiction]|].
  destruct (parseWav_outcome data Hl Hm)
    as [(vs & o & Hn & Hc & Hp)|[(vs & o & Hd & Hc & Hp)|(vs & o & Hs & Hc & Ho & Hid & Ht & Hp)]].
  - rewrite Hp. split; [intros _; right; right; eauto|].
    split; [intros (e & [= <-] & [=])|].
    intros _ _ _. split; [intros _; exists WavNoDataChunk; auto|].
    intros vs' o' Hd' _. destruct (noDataChunk_excludes_data _ _ _ _ _ Hn Hd').
  - pose proof (dataChunkAt_nonneg _ _ _ Hd) as Hn.
    split; [|split].
    + intros (e & He & Hk). rewrite Hp in He.
      apply decodeData_found_throws in He; [|lia].
      destruct He as [[-> _]|[-> _]]; discriminate.
    + intros (e & He & Hk). rewrite Hp in He.
      apply decodeData_found_throws in He; [|lia].
      destruct He as [[-> Hb]|[-> _]]; [|discriminate].
      split; [assumption|]. split; [assumption|]. eauto.
    + intros _ _ _. split.
      * intros (vs' & o' & Hn'). destruct (noDataChunk_excludes_data _ _ _ _ _ Hn' Hd).
      * intros vs' o' Hd' Hb. destruct (dataChunkAt_unique _ _ _ _ _ Hd Hd') as [-> ->].
        rewrite Hp, decodeData_not16 by (assumption || lia).
        exists WavNot16Bit. auto.
  - rewrite Hp. split; [intros (e & [= <-] & [=])|].
    split; [intros (e & [= <-] & [=])|].
    intros [[r [=]]|(k & e & [= <-] & [=])].
Qed.

(** Three inputs on which the amended claim speaks: the first ends in a
    result, the second and the third in errors of [parseWav]'s own. *)
Example parseWav_own_outcomes :
  ownOutcome (parseWav stereoFrame)
  /\ failsWith (parseWav eightBitNoData) InvalidContainer
  /\ failsWith (parseWav eightBitData) UnsupportedFormat.
Proof.
  split; [left; eexists; vm_compute; reflexivity|].
  split; [exists WavNoDataChunk|exists WavNot16Bit]; split; vm_compute; reflexivity.
Qed.

(** C4 as stated fails, in two ways.  [eightBitNoData] has a "fmt " chunk
    that declares 8 bits per sample, and [parseWav] fails on it with
    InvalidContainer, not with UnsupportedFormat: the test for the "data"
    chunk comes first.  [highBitMarkers] does not begin with the bytes of
    "RIFF" nor carry those of "WAVE" at offset 8, and [parseWav] does not
    fail on it: the markers are compared as 7-bit text. *)
Lemma parseWav_failures_counterexample :
  (fBits (fmtFieldsAt eightBitNoData 12) = 8 /\
   chunkIdAt eightBitNoData 12 = "fmt "%string /\
   parseWav eightBitNoData = Throw WavNoDataChunk /\
   ~ failsWith (parseWav eightBitNoData) UnsupportedFormat)
  /\ (44 <= len highBitMarkers /\
      slice highBitMarkers 0 4 <> writeString "RIFF" /\
      slice highBitMarkers 8 12 <> writeString "WAVE" /\
      parseWav highBitMarkers =
        Ok {| sampleRate := 8000; channels := 1; bitsPerSample := 16; samples := [1; -2] |} /\
      ~ failsWith (parseWav highBitMarkers) InvalidContainer).
Proof.
  split.
  - split; [vm_compute; reflexivity|]. split; [vm_compute; reflexivity|].
    assert (H : parseWav eightBitNoData = Throw WavNoDataChunk) by (vm_compute; reflexivity).
    split; [exact H|]. rewrite H. intros (e & [= <-] & [=]).
  - split; [vm_compute; discriminate|].
    split; [vm_compute; discriminate|]. split; [vm_compute; discriminate|].
    assert (H : parseWav highBitMarkers =
                Ok {| sampleRate := 8000; channels := 1; bitsPerSample := 16;
                      samples := [1; -2] |}) by (vm_compute; reflexivity).
    split; [exact H|]. rewrite H. intros (e & [=] & _).
Qed.

(** A "fmt " chunk whose header is the last thing in the input: the
    reads of its fields are not guarded and the runtime's RangeError
    escapes, where a cut-off chunk of any other kind ends the walk with
    "WAV data chunk not found". *)
Example truncatedFmt_escapes :
  len truncatedFmt = 44 /\ markersOk truncatedFmt /\
  parseWav truncatedFmt = Throw RangeError /\ kindOf RangeError = None.
Proof. repeat split; vm_compute; reflexivity. Qed.

(** C7. When the format in effect at the "data" chunk declares [c > 1]
    channels of 16 bits, [parseWav] returns the down-mix the specification
    describes: per frame, the average over the channels, rounded to
    nearest and clamped to int16.  A frame (100, -100) of a two-channel
    file gives 0. *)
Theorem parseWav_downmix (data : list byte) (vs : list Z) (o : Z) (c : nat) :
  44 <= len data -> markersOk data ->
  dataChunkAt data vs o -> fmtComplete data vs ->
  fChannels (formatAfter data vs defaultFormat) = Z.of_nat c -> (1 < c)%nat ->
  fBits (formatAfter data vs defaultFormat) = 16 ->
  (o + 8) mod 2 = 0 ->
  parseWav data =
    Ok {| sampleRate := fSampleRate (formatAfter data vs defaultFormat);
          channels := 1; bitsPerSample := 16;
          samples := downmix_spec c (int16sOf (payloadAt data o)) |}
  /\ downmixFrame 2 [100; -100] = 0
  /\ parseWav stereoFrame =
       Ok {| sampleRate := 8000; channels := 1; bitsPerSample := 16; samples := [0] |}.
Proof.
  intros Hl Hm Hd Hc Hch Hc1 Hb Hev.
  pose proof (dataChunkAt_nonneg _ _ _ Hd) as Hn.
  split; [|split; vm_compute; reflexivity].
  rewrite (parseWav_found data vs o) by assumption.
  destruct Hd as (_ & Ho & _).
  rewrite (decodeData_downmix data (o + 8) _ _ c) by (assumption || lia).
  reflexivity.
Qed.

Lemma stereoFrame_walk :
  44 <= len stereoFrame /\ markersOk stereoFrame /\
  dataChunkAt stereoFrame [12] 36 /\ fmtComplete stereoFrame [12].
Proof.
  split; [vm_compute; discriminate|]. split; [split; reflexivity|]. split.
  - split; [|split; [vm_compute; discriminate|reflexivity]].
    constructor; [vm_compute; discriminate | vm_compute; discriminate |].
    change (12 + 8 + chunkSizeAt stereoFrame 12) with 36. constructor.
  - constructor; [intros _; vm_compute; discriminate | constructor].
Qed.

Lemma parseWav_downmix_witness :
  44 <= len stereoFrame /\ markersOk stereoFrame /\
  dataChunkAt stereoFrame [12] 36 /\ fmtComplete stereoFrame [12] /\
  fChannels (formatAfter stereoFrame [12] defaultFormat) = 2 /\
  fBits (formatAfter stereoFrame [12] defaultFormat) = 16 /\
  parseWav stereoFrame =
    Ok {| sampleRate := fSampleRate (formatAfter stereoFrame [12] defaultFormat);
          channels := 1; bitsPerSample := 16;
          samples := downmix_spec 2 (int16sOf (payloadAt stereoFrame 36)) |}.
Proof.
  destruct stereoFrame_walk as (H1 & H2 & H3 & H4).
  assert (H5 : fChannels (formatAfter stereoFrame [12] defaultFormat) = Z.of_nat 2) by reflexivity.
  assert (H6 : fBits (formatAfter stereoFrame [12] defaultFormat) = 16) by reflexivity.
  repeat (split; [assumption|]).
  refine (proj1 (parseWav_downmix stereoFrame [12] 36 2 H1 H2 H3 H4 H5 _ H6 _)).
  - lia.
  - reflexivity.
Defined.

(** The defaults of the chunk loop.  An input of at least 44 bytes with
    both markers, in which the chunk walk meets a "data" chunk without
    passing a "fmt " chunk, is parsed as mono 16-bit PCM at the rate 24000
    when its payload starts at an even offset. *)
Lemma parseWav_default_format (data : list byte) (vs : list Z) (o : Z) :
  44 <= len data -> markersOk data ->
  dataChunkAt data vs o ->
  Forall (fun v => chunkIdAt data v <> "fmt "%string) vs ->
  (o + 8) mod 2 = 0 ->
  parseWav data =
    Ok {| sampleRate := 24000; channels := 1; bitsPerSample := 16;
          samples := int16sOf (payloadAt data o) |}.
Proof.
  intros Hl Hm Hd Hnf Hev.
  pose proof (dataChunkAt_nonneg _ _ _ Hd) as Hn.
  assert (Hf : formatAfter data vs defaultFormat = defaultFormat).
  { unfold formatAfter. generalize defaultFormat. clear -Hnf.
    induction Hnf as [|v vs Hv _ IH]; intros f; [reflexivity|].
    cbn [fold_left]. apply String.eqb_neq in Hv. rewrite Hv. apply IH. }
  assert (Hc : fmtComplete data vs).
  { unfold fmtComplete. eapply Forall_impl; [exact Hnf|]. cbn. intros v Hv Hf'. contradiction. }
  rewrite (parseWav_found data vs o) by assumption.
  destruct Hd as (_ & Ho & _). rewrite Hf.
  rewrite decodeData_mono by (try reflexivity; assumption || lia).
  reflexivity.
Qed.

Lemma headerlessData_walk :
  44 <= len headerlessData /\ markersOk headerlessData /\
  dataChunkAt headerlessData [12] 36 /\
  Forall (fun v => chunkIdAt headerlessData v <> "fmt "%string) [12].
Proof.
  split; [vm_compute; discriminate|]. split; [split; reflexivity|]. split.
  - split; [|split; [vm_compute; discriminate|reflexivity]].
    constructor; [vm_compute; discriminate | vm_compute; discriminate |].
    change (12 + 8 + chunkSizeAt headerlessData 12) with 36. constructor.
  - constructor; [vm_compute; discriminate | constructor].
Qed.

Example headerlessData_default_format :
  44 <= len headerlessData /\ markersOk headerlessData /\
  dataChunkAt headerlessData [12] 36 /\
  parseWav headerlessData =
    Ok {| sampleRate := 24000; channels := 1; bitsPerSample := 16;
          samples := int16sOf (payloadAt headerlessData 36) |}.
Proof.
  destruct headerlessData_walk as (H1 & H2 & H3 & H4).
  repeat (split; [assumption|]).
  exact (parseWav_default_format headerlessData [12] 36 H1 H2 H3 H4 eq_refl).
Qed.

(** C9.  [oddOffsetData] is 49 bytes long, has both markers, a "data"
    chunk and no "fmt " chunk, and [parseWav] fails on it where the claim
    has it succeed with one channel of 16 bits at 24000 Hz: a chunk of
    one byte puts the payload at offset 29, the walk adds no pad byte, and
    the 16-bit view of the payload is built without a test of its offset,
    so the runtime's RangeError escapes. *)
Theorem parseWav_odd_offset_fails :
  44 <= len oddOffsetData /\ markersOk oddOffsetData /\
  dataChunkAt oddOffsetData [12] 21 /\
  chunkIdAt oddOffsetData 12 <> "fmt "%string /\
  (21 + 8) mod 2 = 1 /\
  parseWav oddOffsetData = Throw RangeError /\
  ~ succeeds (parseWav oddOffsetData).
Proof.
  split; [vm_compute; discriminate|]. split; [split; reflexivity|]. split.
  - split; [|split; [vm_compute; discriminate|reflexivity]].
    constructor; [vm_compute; discriminate | vm_compute; discriminate |].
    change (12 + 8 + chunkSizeAt oddOffsetData 12) with 21. constructor.
  - split; [vm_compute; discriminate|]. split; [reflexivity|].
    assert (H : parseWav oddOffsetData = Throw RangeError) by (vm_compute; reflexivity).
    split; [exact H|]. rewrite H. intros [r [=]].
Qed.

(** ** Rounding *)

Lemma Qfloor_plus_half (z : Z) : Qfloor (inject_Z z + (1 # 2))%Q = z.
Proof.
  pose proof (Qfloor_le (inject_Z z + (1 # 2))) as H1.
  pose proof (Qlt_floor (inject_Z z + (1 # 2))) as H2.
  set (f := Qfloor (inject_Z z + (1 # 2))%Q) in *.
  rewrite inject_Z_plus in H2. change (inject_Z 1) with 1%Q in H2.
  assert (inject_Z f < inject_Z (z + 1))%Q as H3
    by (rewrite inject_Z_plus; change (inject_Z 1) with 1%Q; lra).
  assert (inject_Z (z - 1) < inject_Z f)%Q as H4.
  { replace (z - 1) with (z + -1) by lia. rewrite inject_Z_plus.
    change (inject_Z (-1)) with (-1 # 1)%Q. lra. }
  rewrite <- Zlt_Qlt in H3, H4. lia.
Qed.

Lemma Math_round_le (x : Q) (z : Z) : (x <= inject_Z z)%Q -> Math_round x <= z.
Proof.
  intros H. unfold Math_round. rewrite <- (Qfloor_plus_half z).
  apply Qfloor_resp_le. lra.
Qed.

Lemma Math_round_ge (x : Q) (z : Z) : (inject_Z z <= x)%Q -> z <= Math_round x.
Proof.
  intros H. unfold Math_round. rewrite <- (Qfloor_plus_half z) at 1.
  apply Qfloor_resp_le. lra.
Qed.

Lemma Math_round_Z (z : Z) : Math_round (inject_Z z) = z.
Proof. apply Qfloor_plus_half. Qed.

Lemma Math_round_below (x : Q) : (inject_Z (Math_round x) <= x + (1 # 2))%Q.
Proof. apply Qfloor_le. Qed.

Lemma ToInt16_range z : int16 (ToInt16 z).
Proof.
  unfold int16, ToInt16. pose proof (Z.mod_pos_bound (z + 32768) 65536 ltac:(lia)). lia.
Qed.

Lemma storeValue_int16 v : int16 (storeValue ToInt16 v).
Proof. destruct v; cbn; [apply ToInt16_range|unfold int16; lia]. Qed.

Lemma get_Some (a : list Z) (i : Z) :
  0 <= i < len a -> exists x, get a i = Some x /\ a !! Z.to_nat i = Some x.
Proof.
  intros Hi. rewrite get_lookup by lia.
  destruct (a !! Z.to_nat i) as [x|] eqn:Hx; [eauto|].
  apply lookup_ge_None in Hx. unfold len in Hi. lia.
Qed.

Lemma len_nonempty {A} (l : list A) : l <> [] -> 1 <= len l.
Proof. unfold len. destruct l; [contradiction|cbn; lia]. Qed.

(** ** The resampler *)

Section Interpolation.
Variables (samples : list Z) (ratio : Q).
Hypothesis Hne : samples <> [].
Hypothesis Hin : Forall int16 samples.
Hypothesis Hratio : (0 < ratio)%Q.

Lemma sourcePosition_bounds index :
  0 <= index < Z.max 1 (Math_round (inject_Z (len samples) * ratio)%Q) ->
  (0 <= inject_Z index / ratio)%Q /\ (inject_Z index / ratio < inject_Z (len samples))%Q.
Proof using Hne Hratio.
  intros [H0 H1]. pose proof (len_nonempty samples Hne) as Hl.
  assert (0 <= inject_Z index)%Q as Hi by (change 0%Q with (inject_Z 0); now rewrite <- Zle_Qle).
  split.
  - apply Qle_shift_div_l; [assumption|]. lra.
  - apply Qlt_shift_div_r; [assumption|].
    destruct (Z.eq_dec index 0) as [->|Hnz].
    + change (inject_Z 0) with 0%Q.
      assert (1 <= inject_Z (len samples))%Q
        by (change 1%Q with (inject_Z 1); now rewrite <- Zle_Qle).
      nra.
    + assert (index + 1 <= Math_round (inject_Z (len samples) * ratio)) as Hr
        by lia.
      rewrite Zle_Qle, inject_Z_plus in Hr. change (inject_Z 1) with 1%Q in Hr.
      pose proof (Math_round_below (inject_Z (len samples) * ratio)). lra.
Qed.

Lemma interpolate_in_range index :
  0 <= index < Z.max 1 (Math_round (inject_Z (len samples) * ratio)%Q) ->
  exists v, interpolate samples ratio index = Some v /\ int16 v.
Proof using Hne Hin Hratio.
  intros Hidx. destruct (sourcePosition_bounds index Hidx) as [Hp0 Hp1].
  unfold interpolate. cbv zeta. unfold Math_floor.
  set (pos := (inject_Z index / ratio)%Q) in *.
  pose proof (Qfloor_le pos) as Hf1. pose proof (Qlt_floor pos) as Hf2.
  set (left := Qfloor pos) in *.
  assert (0 <= left) as Hl0.
  { unfold left. rewrite <- (Qfloor_Z 0). now apply Qfloor_resp_le. }
  assert (left < len samples) as Hl1.
  { rewrite Zlt_Qlt. lra. }
  destruct (get_Some samples left ltac:(lia)) as (l & -> & Hl).
  destruct (get_Some samples (Z.min (left + 1) (len samples - 1)) ltac:(lia)) as (r & -> & Hr).
  eexists; split; [reflexivity|].
  rewrite Forall_lookup in Hin.
  pose proof (Hin _ _ Hl) as [Hla Hlb]. pose proof (Hin _ _ Hr) as [Hra Hrb].
  rewrite Zle_Qle in Hla, Hlb, Hra, Hrb.
  rewrite inject_Z_plus in Hf2. change (inject_Z 1) with 1%Q in Hf2.
  set (alpha := (pos - inject_Z left)%Q).
  assert (0 <= alpha)%Q by (unfold alpha; lra).
  assert (alpha < 1)%Q by (unfold alpha; lra).
  change (inject_Z (-32768)) with (-32768 # 1)%Q in *.
  change (inject_Z 32767) with (32767 # 1)%Q in *.
  split.
  - apply Math_round_ge. change (inject_Z (-32768)) with (-32768 # 1)%Q. nra.
  - apply Math_round_le. change (inject_Z 32767) with (32767 # 1)%Q. nra.
Qed.
End Interpolation.

Lemma ratio_pos (sr tr : Z) : 0 < sr -> 0 < tr -> (0 < inject_Z tr / inject_Z sr)%Q.
Proof.
  intros Hs Ht. apply Qlt_shift_div_l.
  - change 0%Q with (inject_Z 0). now rewrite <- Zlt_Qlt.
  - rewrite Qmult_0_l. change 0%Q with (inject_Z 0). now rewrite <- Zlt_Qlt.
Qed.

(** The general branch of [resampleLinear], element by element. *)
Lemma resample_loop_lookup (samples : list Z) (ratio : Q) (n : Z) (k : nat) :
  0 <= n ->
  forLoop (Z.to_nat n) 0
    (fun index output => set ToInt16 output index (interpolate samples ratio index))
    (zeros n) !! k =
  if decide (Z.of_nat k < n)
  then Some (storeValue ToInt16 (interpolate samples ratio (Z.of_nat k)))
  else None.
Proof.
  intros Hn.
  destruct (forLoop_pointwise ToInt16 0 (fun i _ => interpolate samples ratio i)
              (fun index output => set ToInt16 output index (interpolate samples ratio index))
              ltac:(lia) ltac:(reflexivity) (Z.to_nat n) 0 (zeros n) ltac:(lia)) as [_ Hk].
  rewrite Hk, zeros_length, zeros_lookup, Z.sub_0_r.
  repeat case_decide; try lia; reflexivity.
Qed.

Lemma resample_loop_length (samples : list Z) (ratio : Q) (n : Z) :
  length (forLoop (Z.to_nat n) 0
    (fun index output => set ToInt16 output index (interpolate samples ratio index))
    (zeros n)) = Z.to_nat n.
Proof.
  destruct (forLoop_pointwise ToInt16 0 (fun i _ => interpolate samples ratio i)
              (fun index output => set ToInt16 output index (interpolate samples ratio index))
              ltac:(lia) ltac:(reflexivity) (Z.to_nat n) 0 (zeros n) ltac:(lia)) as [Hl _].
  now rewrite Hl, zeros_length.
Qed.

Lemma resampleLinear_general (samples : list Z) (sr tr : Z) :
  sr <> tr -> sr <> 0 -> tr <> 0 ->
  resampleLinear samples sr tr =
    let ratio := (inject_Z tr / inject_Z sr)%Q in
    let targetLength := Z.max 1 (Math_round (inject_Z (len samples) * ratio)%Q) in
    Ok (forLoop (Z.to_nat targetLength) 0
          (fun index output => set ToInt16 output index (interpolate samples ratio index))
          (zeros targetLength)).
Proof.
  intros H1 H2 H3. unfold resampleLinear.
  destruct (Z.eqb_spec sr tr); [contradiction|].
  destruct (Z.eqb_spec sr 0); [contradiction|].
  destruct (Z.eqb_spec tr 0); [contradiction|]. reflexivity.
Qed.

(** Whatever the rates, the resampler maps int16 samples to int16 samples. *)
Lemma resampleLinear_int16 (samples : list Z) (sr tr : Z) out :
  Forall int16 samples -> resampleLinear samples sr tr = Ok out -> Forall int16 out.
Proof.
  intros Hin. unfold resampleLinear.
  destruct (sr =? tr); [now intros [= <-]|].
  destruct (sr =? 0).
  { destruct samples as [|first rest]; [now intros [= <-]|].
    destruct (0 <? tr); [discriminate|]. intros [= <-].
    constructor; [now inversion Hin|constructor]. }
  destruct (tr =? 0); [intros [= <-]; repeat constructor; unfold int16; lia|].
  cbv zeta. intros [= <-]. apply Forall_lookup. intros k x Hx.
  rewrite resample_loop_lookup in Hx by lia.
  case_decide; [|discriminate]. injection Hx as <-. apply storeValue_int16.
Qed.

Example resample_doubles :
  resampleLinear [0; 100; 200; 300] 4 8 = Ok [0; 50; 100; 150; 200; 250; 300; 300].
Proof. vm_compute. reflexivity. Qed.

Example resample_halves : resampleLinear [0; 100; 200; 300] 8 4 = Ok [0; 200].
Proof. vm_compute. reflexivity. Qed.

Example resample_extremes :
  resampleLinear [32767; -32768; 32767] 3 7 =
  Ok [32767; 4681; -23406; -14044; 14043; 32767; 32767].
Proof. vm_compute. reflexivity. Qed.

Example resample_empty : resampleLinear [] 3 7 = Ok [0].
Proof. vm_compute. reflexivity. Qed.

(** C3. For a non-empty buffer of int16 samples and two positive rates the
    resampler returns a buffer of int16 samples; when the rates differ,
    every output sample is the rounded interpolation itself, which already
    lies in the int16 domain, so that the store into the [Int16Array] does
    not change it. *)
Theorem resample_stays_int16 (samples : list Z) (sr tr : Z) :
  samples <> [] -> Forall int16 samples -> 0 < sr -> 0 < tr ->
  exists out, resampleLinear samples sr tr = Ok out /\ Forall int16 out /\
    (sr <> tr ->
       let ratio := (inject_Z tr / inject_Z sr)%Q in
       len out = Z.max 1 (Math_round (inject_Z (len samples) * ratio)%Q) /\
       forall index, 0 <= index < len out ->
         exists v, interpolate samples ratio index = Some v /\ int16 v /\
                   get out index = Some v).
Proof.
  intros Hne Hin Hsr Htr.
  destruct (Z.eq_dec sr tr) as [->|Hd].
  { exists samples. unfold resampleLinear. rewrite Z.eqb_refl.
    split; [reflexivity|]. split; [assumption|]. contradiction. }
  rewrite resampleLinear_general by lia. cbv zeta.
  set (ratio := (inject_Z tr / inject_Z sr)%Q).
  set (T := Z.max 1 (Math_round (inject_Z (len samples) * ratio)%Q)).
  eexists; split; [reflexivity|].
  assert (HT : len (forLoop (Z.to_nat T) 0
            (fun index output => set ToInt16 output index (interpolate samples ratio index))
            (zeros T)) = T).
  { unfold len. rewrite resample_loop_length. lia. }
  split; [|intros _; split; [exact HT|]].
  - apply (resampleLinear_int16 samples sr tr); [assumption|].
    now rewrite resampleLinear_general by lia.
  - rewrite HT. intros index Hidx.
    destruct (interpolate_in_range samples ratio Hne Hin (ratio_pos sr tr Hsr Htr) index Hidx)
      as (v & Hv & Hr).
    exists v. split; [assumption|]. split; [assumption|].
    rewrite get_lookup by lia. rewrite resample_loop_lookup by lia.
    rewrite decide_True by lia. rewrite Z2Nat.id by lia. rewrite Hv. cbn [storeValue].
    now rewrite ToInt16_id.
Qed.

Lemma resample_stays_int16_witness :
  [0; 100; 32767; -32768] <> [] /\ Forall int16 [0; 100; 32767; -32768] /\ 0 < 3 /\ 0 < 7 /\
  exists out, resampleLinear [0; 100; 32767; -32768] 3 7 = Ok out /\ Forall int16 out.
Proof.
  assert (H1 : [0; 100; 32767; -32768] <> @nil Z) by discriminate.
  assert (H2 : Forall int16 [0; 100; 32767; -32768]) by (repeat constructor; unfold int16; lia).
  assert (H3 : 0 < 3) by lia. assert (H4 : 0 < 7) by lia.
  split; [exact H1|]. split; [exact H2|]. split; [exact H3|]. split; [exact H4|].
  destruct (resample_stays_int16 [0; 100; 32767; -32768] 3 7 H1 H2 H3 H4) as (out & Ho & Hi & _).
  exists out. split; assumption.
Defined.

(** Parsing gives int16 samples. *)
Lemma downmix_int16 pcmLength source c out :
  downmix pcmLength source c = Ok out -> Forall int16 out.
Proof.
  unfold downmix. destruct (c =? 0).
  - destruct (pcmLength =? 0); [|discriminate]. intros [= <-]. constructor.
  - cbv zeta. intros [= <-]. apply Forall_lookup. intros k x Hx.
    set (body := fun frame mono => set ToInt16 mono frame _) in Hx.
    destruct (forLoop_pointwise ToInt16 0
                (fun i _ => monoOfSum c (frameSum source c i)) body
                ltac:(lia) ltac:(reflexivity)
                (Z.to_nat (Qceiling (inject_Z pcmLength / 2 / inject_Z c)))
                0 (zeros (Qfloor (inject_Z pcmLength / 2 / inject_Z c))) ltac:(lia)) as [_ Hk].
    rewrite Hk in Hx. case_decide.
    + injection Hx as <-. apply storeValue_int16.
    + rewrite zeros_lookup in Hx. case_decide; [|discriminate].
      injection Hx as <-. unfold int16; lia.
Qed.

Lemma parseWav_int16 data r : parseWav data = Ok r -> Forall int16 (samples r).
Proof.
  unfold parseWav. destruct (len data <? 44); [discriminate|]. cbv zeta.
  destruct (_ || _); [discriminate|].
  destruct (scanChunks _ _ _ _) as [st|]; [|discriminate]. rewrite bind_Ok.
  unfold decodeData. destruct (_ <? 0); [discriminate|]. destruct (negb _); [discriminate|].
  cbv zeta. destruct (Int16Array_view _ _ _) as [source|] eqn:Hv; [|discriminate].
  rewrite bind_Ok.
  assert (Forall int16 source).
  { unfold Int16Array_view in Hv. destruct (negb _); [discriminate|].
    destruct (_ <? _); [discriminate|]. injection Hv as <-. apply int16sOf_int16. }
  destruct (_ =? 1); [now intros [= <-]|].
  destruct (downmix _ _ _) as [mono|] eqn:Hd; [|discriminate]. rewrite bind_Ok.
  intros [= <-]. cbn. eapply downmix_int16; eauto.
Qed.

Lemma sourceOf_int16 fs sr seg src : sourceOf fs sr seg = Ok src -> Forall int16 src.
Proof.
  unfold sourceOf. destruct (fs !! wavPath seg) as [data|]; [|discriminate].
  destruct (parseWav data) as [wav|] eqn:Hp; [|discriminate]. rewrite bind_Ok.
  apply resampleLinear_int16. eapply parseWav_int16; eauto.
Qed.

(** ** The compositor *)

Lemma ToInt32_add_l a b : ToInt32 (ToInt32 a + b) = ToInt32 (a + b).
Proof.
  unfold ToInt32.
  replace ((a + 2147483648) mod 4294967296 - 2147483648 + b + 2147483648)
    with ((a + 2147483648) mod 4294967296 + b) by lia.
  rewrite Zplus_mod_idemp_l. f_equal. f_equal. lia.
Qed.

Lemma writableCount_bounds sr total seg src :
  0 <= writableCount sr total seg src /\
  writableCount sr total seg src <= len src /\
  writableCount sr total seg src <= targetWindowSamples sr seg /\
  (segmentStartIndex sr seg <= total ->
   segmentStartIndex sr seg + writableCount sr total seg src <= total).
Proof.
  unfold writableCount, targetWindowSamples. pose proof (len_nonneg src). cbv zeta. lia.
Qed.

Lemma segmentStartIndex_nonneg sr seg : 0 <= segmentStartIndex sr seg.
Proof. unfold segmentStartIndex. lia. Qed.

Lemma placeSegment_spec sr total seg src (acc : list Z) :
  length (placeSegment sr total seg src acc) = length acc /\
  forall k : nat,
    placeSegment sr total seg src acc !! k =
      if decide (segmentStartIndex sr seg <= Z.of_nat k
                   < segmentStartIndex sr seg + writableCount sr total seg src
                 /\ (k < length acc)%nat)
      then (fun a => ToInt32 (a + default 0 (src !! Z.to_nat (Z.of_nat k - segmentStartIndex sr seg))))
             <$> acc !! k
      else acc !! k.
Proof.
  pose proof (segmentStartIndex_nonneg sr seg) as Hs.
  destruct (writableCount_bounds sr total seg src) as (Hw0 & Hw1 & _).
  unfold placeSegment. cbv zeta.
  set (body := fun sampleIndex accumulator => addAt accumulator _ _).
  destruct (forLoop_pointwise ToInt32 (segmentStartIndex sr seg)
              (fun i a => match a, get src i with Some x, Some y => Some (x + y) | _, _ => None end)
              body Hs ltac:(reflexivity)
              (Z.to_nat (writableCount sr total seg src)) 0 acc ltac:(lia)) as [Hl Hk].
  split; [exact Hl|]. intros k. rewrite Hk. clear Hk Hl.
  rewrite Z.add_0_r, Z2Nat.id by lia.
  case_decide as Hd; [|reflexivity].
  destruct Hd as [Hwin Hlt].
  destruct (lookup_lt_is_Some_2 acc k Hlt) as [a Ha]. rewrite Ha.
  destruct (get_Some src (Z.of_nat k - segmentStartIndex sr seg) ltac:(lia)) as (s & -> & ->).
  reflexivity.
Qed.

Lemma placeSegment_length sr total seg src (acc : list Z) :
  length (placeSegment sr total seg src acc) = length acc.
Proof. apply placeSegment_spec. Qed.

Lemma placeLoaded_length fs sr total acc seg :
  length (placeLoaded fs sr total acc seg) = length acc.
Proof.
  unfold placeLoaded. destruct (sourceOf fs sr seg); [apply placeSegment_length|reflexivity].
Qed.

Lemma placeSegment_comm sr total s1 src1 s2 src2 (acc : list Z) :
  placeSegment sr total s1 src1 (placeSegment sr total s2 src2 acc) =
  placeSegment sr total s2 src2 (placeSegment sr total s1 src1 acc).
Proof.
  apply list_eq. intros k.
  destruct (placeSegment_spec sr total s1 src1 (placeSegment sr total s2 src2 acc)) as [_ ->].
  destruct (placeSegment_spec sr total s2 src2 (placeSegment sr total s1 src1 acc)) as [_ ->].
  rewrite !placeSegment_length.
  destruct (placeSegment_spec sr total s1 src1 acc) as [_ ->].
  destruct (placeSegment_spec sr total s2 src2 acc) as [_ ->].
  repeat case_decide; try reflexivity.
  destruct (acc !! k) as [a|]; [|reflexivity]. cbn. f_equal.
  rewrite !ToInt32_add_l. f_equal. lia.
Qed.

Lemma placeLoaded_comm fs sr total acc s1 s2 :
  placeLoaded fs sr total (placeLoaded fs sr total acc s1) s2 =
  placeLoaded fs sr total (placeLoaded fs sr total acc s2) s1.
Proof.
  unfold placeLoaded.
  destruct (sourceOf fs sr s1), (sourceOf fs sr s2); try reflexivity.
  apply placeSegment_comm.
Qed.

Lemma fold_placeLoaded_perm fs sr total segs segs' :
  Permutation segs segs' ->
  forall acc, fold_left (placeLoaded fs sr total) segs acc =
              fold_left (placeLoaded fs sr total) segs' acc.
Proof.
  induction 1 as [|s l l' _ IH|s1 s2 l|l l' l'' _ IH1 _ IH2]; intros acc; cbn [fold_left].
  - reflexivity.
  - apply IH.
  - now rewrite placeLoaded_comm.
  - now rewrite IH1.
Qed.

(** *** Running the effects *)

Lemma loadSource_run sr seg w :
  loadSource sr seg w =
    ({| files := files w; trace := trace w ++ [EvReadFile (wavPath seg)] |},
     sourceOf (files w) sr seg).
Proof.
  unfold loadSource, readWavPcm16Mono, ioBind, fs_readFile, ioLift, sourceOf.
  destruct (files w !! wavPath seg) as [data|]; [|reflexivity].
  destruct (parseWav data); reflexivity.
Qed.

Lemma accumulate_files sr total segs : forall acc w,
  files (accumulateSegments sr total segs acc w).1 = files w.
Proof.
  induction segs as [|seg rest IH]; intros acc w; [reflexivity|].
  cbn [accumulateSegments]. unfold ioBind at 1. rewrite loadSource_run.
  destruct (sourceOf (files w) sr seg); [|reflexivity].
  rewrite IH. reflexivity.
Qed.

Lemma accumulate_ok sr total segs : forall acc w,
  Forall (loads (files w) sr) segs ->
  accumulateSegments sr total segs acc w =
    ({| files := files w; trace := trace w ++ map (fun s => EvReadFile (wavPath s)) segs |},
     Ok (fold_left (placeLoaded (files w) sr total) segs acc)).
Proof.
  induction segs as [|seg rest IH]; intros acc w Hall.
  - cbn. rewrite app_nil_r. now destruct w.
  - apply Forall_cons in Hall as [Hload Hall].
    cbn [accumulateSegments]. unfold ioBind at 1. rewrite loadSource_run.
    cbn [map fold_left]. unfold placeLoaded at 2.
    destruct (sourceOf (files w) sr seg) as [src|e] eqn:Hsrc;
      [|destruct Hload as [? Hload]; rewrite Hsrc in Hload; discriminate].
    rewrite IH by exact Hall. cbn [files trace]. now rewrite <- app_assoc.
Qed.

Lemma accumulate_throws sr total segs : forall acc w e,
  (accumulateSegments sr total segs acc w).2 = Throw e ->
  Exists (fun s => sourceOf (files w) sr s = Throw e) segs.
Proof.
  induction segs as [|seg rest IH]; intros acc w e; [discriminate|].
  cbn [accumulateSegments]. unfold ioBind at 1. rewrite loadSource_run.
  destruct (sourceOf (files w) sr seg) as [src|e'] eqn:Hs.
  - intros H. apply IH in H. now right.
  - cbn. intros [= <-]. now left.
Qed.

Lemma accumulate_ok_inv sr total segs : forall acc w a,
  (accumulateSegments sr total segs acc w).2 = Ok a -> Forall (loads (files w) sr) segs.
Proof.
  induction segs as [|seg rest IH]; intros acc w a; [constructor|].
  cbn [accumulateSegments]. unfold ioBind at 1. rewrite loadSource_run.
  destruct (sourceOf (files w) sr seg) as [src|e'] eqn:Hs; [|discriminate].
  intros H. apply IH in H. constructor; [now exists src|exact H].
Qed.

Lemma finalSamplesOf_spec total (acc : list Z) :
  len acc = total -> finalSamplesOf total acc = map clamp16 acc.
Proof.
  intros Hl. unfold finalSamplesOf.
  set (body := fun index finalSamples => set ToInt16 finalSamples index _).
  destruct (forLoop_pointwise ToInt16 0 (fun i _ => clampSample (get acc i)) body
              ltac:(lia) ltac:(reflexivity) (Z.to_nat total) 0 (zeros total) ltac:(lia))
    as [_ Hk].
  apply list_eq. intros k. rewrite Hk, zeros_length, zeros_lookup, list_lookup_fmap, Z.sub_0_r.
  rewrite get_nat. unfold len in Hl.
  destruct (acc !! k) as [a|] eqn:Ha.
  - apply lookup_lt_Some in Ha as Hlt.
    rewrite decide_True by lia. cbn. f_equal. apply ToInt16_id, clamp16_int16.
  - apply lookup_ge_None in Ha as Hge.
    rewrite decide_False by lia. rewrite decide_False by lia. reflexivity.
Qed.

Lemma fold_placeLoaded_length fs sr total segs : forall acc,
  length (fold_left (placeLoaded fs sr total) segs acc) = length acc.
Proof.
  induction segs as [|s rest IH]; intros acc; [reflexivity|].
  cbn [fold_left]. now rewrite IH, placeLoaded_length.
Qed.

Lemma totalSamplesOf_pos sr md first rest : 1 <= totalSamplesOf sr md first rest.
Proof. unfold totalSamplesOf. cbv zeta. lia. Qed.

Lemma mixTimeline_empty params w :
  segments params = [] -> mixTimeline params w = (w, Throw NoSegments).
Proof. intros H. unfold mixTimeline. now rewrite H. Qed.

Lemma mixTimeline_files params w : files (mixTimeline params w).1 = files w.
Proof.
  unfold mixTimeline. destruct (segments params) as [|first rest]; [reflexivity|].
  unfold ioBind, ioEvent, ioRet. cbv zeta.
  match goal with |- context [accumulateSegments ?a ?b ?c ?d ?e] =>
    pose proof (accumulate_files a b c d e) as Hf;
    destruct (accumulateSegments a b c d e) as [w1 [acc|e1]] end; exact Hf.
Qed.

Lemma mixTimeline_ok params w first rest :
  segments params = first :: rest ->
  Forall (loads (files w) (rateOf params)) (first :: rest) ->
  mixTimeline params w =
    ({| files := files w;
        trace := trace w ++
          [EvMkdirFor (outputWavPath params);
           EvAllocAccumulator (totalSamplesOf (rateOf params) (mediaDurationSec params) first rest)] ++
          map (fun s => EvReadFile (wavPath s)) (first :: rest) |},
     Ok (rateOf params, mixedSamples (files w) params first rest)).
Proof.
  intros Hs Hall. unfold mixTimeline. rewrite Hs.
  unfold ioBind at 1. unfold ioEvent at 1. cbv zeta.
  unfold ioBind at 1. unfold ioEvent at 1.
  unfold ioBind at 1. fold (rateOf params).
  rewrite accumulate_ok by exact Hall. cbn [files trace]. unfold ioRet.
  f_equal.
  - f_equal. rewrite <- !app_assoc. reflexivity.
  - f_equal. f_equal. unfold mixedSamples. cbv zeta.
    apply finalSamplesOf_spec.
    unfold len. rewrite fold_placeLoaded_length, zeros_length.
    pose proof (totalSamplesOf_pos (rateOf params) (mediaDurationSec params) first rest). lia.
Qed.

Lemma mixTimeline_throws params w e :
  (mixTimeline params w).2 = Throw e ->
  (segments params = [] /\ e = NoSegments) \/
  (segments params <> [] /\
   Exists (fun s => sourceOf (files w) (rateOf params) s = Throw e) (segments params)).
Proof.
  unfold mixTimeline. destruct (segments params) as [|first rest] eqn:Hs.
  - cbn. intros [= <-]. now left.
  - unfold ioBind at 1. unfold ioEvent at 1. cbv zeta.
    unfold ioBind at 1. unfold ioEvent at 1.
    unfold ioBind at 1. fold (rateOf params).
    match goal with |- context [accumulateSegments ?a ?b ?c ?d ?e] =>
      pose proof (accumulate_throws a b c d e) as Ht;
      destruct (accumulateSegments a b c d e) as [w1 [acc|e1]] end; [discriminate|].
    cbn. intros [= <-]. right. split; [discriminate|]. apply (Ht e1 eq_refl).
Qed.

Lemma mixTimeline_ok_inv params w out :
  (mixTimeline params w).2 = Ok out ->
  exists first rest, segments params = first :: rest /\
    Forall (loads (files w) (rateOf params)) (first :: rest).
Proof.
  unfold mixTimeline. destruct (segments params) as [|first rest] eqn:Hs; [discriminate|].
  unfold ioBind at 1. unfold ioEvent at 1. cbv zeta.
  unfold ioBind at 1. unfold ioEvent at 1.
  unfold ioBind at 1. fold (rateOf params).
  match goal with |- context [accumulateSegments ?a ?b ?c ?d ?e] =>
    pose proof (accumulate_ok_inv a b c d e) as Ht;
    destruct (accumulateSegments a b c d e) as [w1 [acc|e1]] end; [|discriminate].
  intros _. exists first, rest. split; [reflexivity|]. apply (Ht acc eq_refl).
Qed.

Lemma compose_run params w :
  composeDubbedTimeline params w =
    match mixTimeline params w with
    | (w1, Ok (sr, final)) =>
        match wavOfSamples sr final with
        | Ok bytes =>
            ({| files := <[outputWavPath params := bytes]> (files w1);
                trace := trace w1 ++ [EvWriteFile (outputWavPath params)] |}, Ok tt)
        | Throw e => (w1, Throw e)
        end
    | (w1, Throw e) => (w1, Throw e)
    end.
Proof.
  unfold composeDubbedTimeline, ioBind, writeWavPcm16Mono, ioBind, ioLift, fs_writeFile.
  destruct (mixTimeline params w) as [w1 [[sr final]|e]]; [|reflexivity].
  cbn [fst snd]. destruct (wavOfSamples sr final); reflexivity.
Qed.

(** *** The length of the timeline does not depend on the order *)

Lemma fold_Qmax_isMax l : forall x, isMaxOf (fold_left Qmax l x) (x :: l).
Proof.
  induction l as [|y l IH]; intros x; cbn [fold_left].
  - split; [constructor; [apply Qle_refl|constructor]|left; reflexivity].
  - destruct (IH (Qmax x y)) as [Hall Hex].
    apply Forall_cons in Hall as [Hm Hall]. split.
    + constructor; [|constructor; [|exact Hall]].
      * eapply Qle_trans; [apply Q.le_max_l|exact Hm].
      * eapply Qle_trans; [apply Q.le_max_r|exact Hm].
    + apply Exists_cons in Hex as [Hex|Hex].
      * destruct (Q.max_dec x y) as [Hd|Hd].
        -- left. eapply Qeq_trans; [exact Hex|exact Hd].
        -- right. left. eapply Qeq_trans; [exact Hex|exact Hd].
      * right. now right.
Qed.

Lemma isMaxOf_unique m l m' l' :
  isMaxOf m l -> isMaxOf m' l' -> (forall y, y ∈ l <-> y ∈ l') -> (m == m')%Q.
Proof.
  intros [Ha He] [Ha' He'] Hsame.
  rewrite Forall_forall in Ha, Ha'. rewrite Exists_exists in He, He'.
  destruct He as (y & Hy & Hmy). destruct He' as (y' & Hy' & Hmy').
  apply Qle_antisym.
  - eapply Qle_trans; [apply Qle_lteq; right; exact Hmy|]. apply Ha'. now apply Hsame.
  - eapply Qle_trans; [apply Qle_lteq; right; exact Hmy'|]. apply Ha. now apply Hsame.
Qed.

Lemma inferredDurationOf_perm f r f' r' :
  Permutation (f :: r) (f' :: r') ->
  (inferredDurationOf f r == inferredDurationOf f' r')%Q.
Proof.
  intros Hp. unfold inferredDurationOf.
  eapply isMaxOf_unique; [apply fold_Qmax_isMax..|].
  intros y.
  change (endSec f :: map endSec r ++ map (fun s => (startSec s + durationSec s)%Q) (f :: r))
    with (map endSec (f :: r) ++ map (fun s => (startSec s + durationSec s)%Q) (f :: r)).
  change (endSec f' :: map endSec r' ++ map (fun s => (startSec s + durationSec s)%Q) (f' :: r'))
    with (map endSec (f' :: r') ++ map (fun s => (startSec s + durationSec s)%Q) (f' :: r')).
  assert (HP : Permutation
            (map endSec (f :: r) ++ map (fun s => (startSec s + durationSec s)%Q) (f :: r))
            (map endSec (f' :: r') ++ map (fun s => (startSec s + durationSec s)%Q) (f' :: r')))
    by (apply Permutation_app; apply Permutation_map; exact Hp).
  now rewrite HP.
Qed.

Lemma totalSamplesOf_perm sr md f r f' r' :
  Permutation (f :: r) (f' :: r') ->
  totalSamplesOf sr md f r = totalSamplesOf sr md f' r'.
Proof.
  intros Hp. unfold totalSamplesOf, Math_ceil. cbv zeta. f_equal.
  apply Qceiling_comp. apply Qmult_comp; [|reflexivity].
  apply Q.max_compat; [reflexivity|]. now apply inferredDurationOf_perm.
Qed.

(** *** What can be thrown *)

Lemma parseWav_throws data e :
  parseWav data = Throw e ->
  e = WavTooSmall \/ e = WavBadHeader \/ e = WavNoDataChunk \/ e = WavNot16Bit \/ e = RangeError.
Proof.
  intros H.
  destruct (Z_lt_le_dec (len data) 44) as [Hs|Hl].
  { rewrite parseWav_small in H by assumption. injection H as <-. auto. }
  destruct (markersOk_dec data) as [Hm|Hm].
  2:{ rewrite parseWav_badHeader in H by assumption. injection H as <-. auto. }
  destruct (parseWav_outcome data Hl Hm)
    as [(vs & o & _ & _ & Hp)|[(vs & o & Hd & _ & Hp)|(vs & o & _ & _ & _ & _ & _ & Hp)]];
    rewrite Hp in H.
  - injection H as <-. auto.
  - apply decodeData_found_throws in H; [|pose proof (dataChunkAt_nonneg _ _ _ Hd); lia].
    destruct H as [[-> _]|[-> _]]; auto.
  - injection H as <-. auto 6.
Qed.

Lemma resampleLinear_throws samples sr tr e :
  resampleLinear samples sr tr = Throw e -> e = RangeError.
Proof.
  unfold resampleLinear. destruct (sr =? tr); [discriminate|].
  destruct (sr =? 0).
  - destruct samples; [discriminate|]. destruct (0 <? tr); congruence.
  - destruct (tr =? 0); discriminate.
Qed.

Lemma sourceOf_throws fs sr seg e : sourceOf fs sr seg = Throw e -> e <> NoSegments.
Proof.
  unfold sourceOf. destruct (fs !! wavPath seg) as [data|]; [|intros [= <-]; discriminate].
  destruct (parseWav data) as [wav|e'] eqn:Hp.
  - rewrite bind_Ok. intros H. apply resampleLinear_throws in H. now subst.
  - rewrite bind_Throw. intros [= <-]. apply parseWav_throws in Hp.
    intuition (subst; discriminate).
Qed.

(** C8. [composeDubbedTimeline] fails with EmptyInput exactly when the
    segment list is empty, and for the empty list it throws with the world
    untouched: no directory made, no accumulator allocated, nothing read
    or written. *)
Theorem compose_empty_input (params : ComposeParams) (w : World) :
  (failsWith (composeDubbedTimeline params w).2 EmptyInput <-> segments params = [])
  /\ (segments params = [] -> composeDubbedTimeline params w = (w, Throw NoSegments)).
Proof.
  assert (Hempty : segments params = [] -> composeDubbedTimeline params w = (w, Throw NoSegments)).
  { intros H. rewrite compose_run, mixTimeline_empty by assumption. reflexivity. }
  split; [split|exact Hempty].
  - intros (e & He & Hk).
    assert (e = NoSegments) as -> by (destruct e; cbn in Hk; congruence).
    rewrite compose_run in He.
    destruct (mixTimeline params w) as [w1 [[sr final]|e]] eqn:Hm.
    + destruct (wavOfSamples sr final) as [bytes|e] eqn:Hw; [discriminate|].
      cbn in He. injection He as ->. apply wavOfSamples_throws in Hw. discriminate.
    + cbn in He. injection He as ->.
      assert (Ht : (mixTimeline params w).2 = Throw NoSegments) by now rewrite Hm.
      apply mixTimeline_throws in Ht as [[Hs _]|[_ Hex]]; [exact Hs|].
      apply Exists_exists in Hex as (s & _ & Hs). now apply sourceOf_throws in Hs.
  - intros H. rewrite (Hempty H). exists NoSegments. split; reflexivity.
Qed.

(** *** Reordering the segments *)

Lemma loads_perm fs sr segs segs' :
  Permutation segs segs' -> Forall (loads fs sr) segs -> Forall (loads fs sr) segs'.
Proof. intros Hp. now rewrite Hp. Qed.

Lemma mixTimeline_perm params segs' w out :
  Permutation (segments params) segs' ->
  (mixTimeline params w).2 = Ok out ->
  (mixTimeline (withSegments params segs') w).2 = Ok out.
Proof.
  intros Hp Hm.
  destruct (mixTimeline_ok_inv _ _ _ Hm) as (f & r & Hs & Hall).
  rewrite (mixTimeline_ok params w f r Hs Hall) in Hm. cbn [snd] in Hm. injection Hm as <-.
  rewrite Hs in Hp.
  destruct segs' as [|f' r']; [now apply Permutation_nil_r in Hp|].
  rewrite (mixTimeline_ok (withSegments params (f' :: r')) w f' r' eq_refl).
  2:{ eapply loads_perm; [exact Hp|]. exact Hall. }
  cbn [snd]. f_equal. f_equal. unfold mixedSamples, rateOf. cbn [withSegments targetSampleRate mediaDurationSec].
  cbv zeta. rewrite (totalSamplesOf_perm _ _ f r f' r' Hp).
  now rewrite (fold_placeLoaded_perm _ _ _ _ _ Hp).
Qed.

Lemma withSegments_id params : withSegments params (segments params) = params.
Proof. now destruct params. Qed.

Lemma withSegments_twice params s1 s2 :
  withSegments (withSegments params s1) s2 = withSegments params s2.
Proof. reflexivity. Qed.

(** C6. Composing a permutation of a non-empty segment list gives the same
    buffer: the mixed samples agree, the same file store results, and one
    run succeeds exactly when the other does. *)
Theorem compose_order_independent (params : ComposeParams)
    (segs' : list SynthesizedSegment) (w : World) :
  segments params <> [] -> Permutation (segments params) segs' ->
  (forall out, (mixTimeline params w).2 = Ok out <->
               (mixTimeline (withSegments params segs') w).2 = Ok out)
  /\ files (composeDubbedTimeline params w).1 =
     files (composeDubbedTimeline (withSegments params segs') w).1
  /\ (succeeds (composeDubbedTimeline params w).2 <->
      succeeds (composeDubbedTimeline (withSegments params segs') w).2).
Proof.
  intros Hne Hp.
  assert (Hiff : forall out, (mixTimeline params w).2 = Ok out <->
                             (mixTimeline (withSegments params segs') w).2 = Ok out).
  { intros out. split; [now apply mixTimeline_perm|].
    intros H. apply (mixTimeline_perm _ (segments params)) in H; [|now symmetry].
    now rewrite withSegments_twice, withSegments_id in H. }
  split; [exact Hiff|].
  rewrite !compose_run.
  pose proof (mixTimeline_files params w) as Hf.
  pose proof (mixTimeline_files (withSegments params segs') w) as Hf'.
  destruct (mixTimeline params w) as [w1 [[sr final]|e]] eqn:Hm.
  - pose proof (proj1 (Hiff (sr, final)) eq_refl) as H.
    destruct (mixTimeline (withSegments params segs') w) as [w1' r'] eqn:Hm'.
    cbn in H. subst r'. cbn [fst snd] in *. cbn [withSegments outputWavPath].
    destruct (wavOfSamples sr final) as [bytes|e]; cbn [fst snd files].
    + split; [now rewrite Hf, Hf'|]. split; intros _; now exists tt.
    + split; [now rewrite Hf, Hf'|]. split; intros [? [=]].
  - destruct (mixTimeline (withSegments params segs') w) as [w1' [[sr' final']|e']] eqn:Hm'.
    + pose proof (proj2 (Hiff (sr', final')) eq_refl) as H. discriminate.
    + cbn [fst snd] in *. split; [now rewrite Hf, Hf'|]. split; intros [? [=]].
Qed.

Lemma writable_in_total sr total seg src (j : nat) :
  Z.of_nat j < writableCount sr total seg src ->
  segmentStartIndex sr seg + Z.of_nat j < total /\ Z.of_nat j < len src.
Proof. unfold writableCount. cbv zeta. lia. Qed.

Lemma int16_ToInt32 v : int16 v -> ToInt32 v = v.
Proof. unfold int16. intros. apply ToInt32_id. lia. Qed.

(** C5. Two segments with the same start index that both hold the value
    [V] at the same writable position give [clamp(2V)] at the output index
    of that position: the second is added to the first. *)
Theorem overlap_is_added (params : ComposeParams) (w : World)
    (s1 s2 : SynthesizedSegment) (src1 src2 : list Z) (j : nat) (V : Z) :
  segments params = [s1; s2] ->
  sourceOf (files w) (rateOf params) s1 = Ok src1 ->
  sourceOf (files w) (rateOf params) s2 = Ok src2 ->
  segmentStartIndex (rateOf params) s1 = segmentStartIndex (rateOf params) s2 ->
  Z.of_nat j < writableCount (rateOf params)
                 (totalSamplesOf (rateOf params) (mediaDurationSec params) s1 [s2]) s1 src1 ->
  Z.of_nat j < writableCount (rateOf params)
                 (totalSamplesOf (rateOf params) (mediaDurationSec params) s1 [s2]) s2 src2 ->
  src1 !! j = Some V -> src2 !! j = Some V ->
  exists final, (mixTimeline params w).2 = Ok (rateOf params, final) /\
    get final (segmentStartIndex (rateOf params) s1 + Z.of_nat j) = Some (clamp16 (2 * V)).
Proof.
  intros Hs H1 H2 Hst Hw1 Hw2 Hv1 Hv2.
  set (sr := rateOf params) in *.
  set (total := totalSamplesOf sr (mediaDurationSec params) s1 [s2]) in *.
  pose proof (segmentStartIndex_nonneg sr s1) as Hs0.
  assert (Hall : Forall (loads (files w) sr) [s1; s2]).
  { repeat constructor; [now exists src1|now exists src2]. }
  rewrite (mixTimeline_ok params w s1 [s2] Hs Hall). cbn [snd].
  eexists; split; [reflexivity|].
  unfold mixedSamples. cbv zeta. fold sr. fold total. cbn [fold_left].
  unfold placeLoaded. rewrite H1, H2.
  destruct (writable_in_total _ _ _ _ _ Hw1) as [Ht1 _].
  rewrite get_lookup by lia. rewrite list_lookup_fmap.
  destruct (placeSegment_spec sr total s2 src2 (placeSegment sr total s1 src1 (zeros total)))
    as [_ ->].
  destruct (placeSegment_spec sr total s1 src1 (zeros total)) as [Hl ->].
  rewrite Hl, zeros_length, zeros_lookup, <- Hst.
  rewrite !decide_True by lia.
  replace (Z.to_nat (Z.of_nat (Z.to_nat (segmentStartIndex sr s1 + Z.of_nat j))
                     - segmentStartIndex sr s1)) with j by lia.
  rewrite Hv1, Hv2. cbn [fmap option_fmap option_map from_option id].
  rewrite Z.add_0_l.
  assert (Hi : int16 V).
  { pose proof (sourceOf_int16 _ _ _ _ H1) as Hf. rewrite Forall_lookup in Hf. eauto. }
  rewrite (int16_ToInt32 V Hi).
  rewrite ToInt32_id by (unfold int16 in Hi; lia).
  do 2 f_equal. lia.
Qed.

Lemma startIndex_negative sr seg :
  0 < sr -> (startSec seg < 0)%Q -> segmentStartIndex sr seg = 0.
Proof.
  intros Hsr Hneg. unfold segmentStartIndex.
  assert (Math_round (startSec seg * inject_Z sr) <= 0); [|lia].
  apply Math_round_le. change (inject_Z 0) with 0%Q.
  assert (0 < inject_Z sr)%Q by (change 0%Q with (inject_Z 0); now rewrite <- Zlt_Qlt).
  nra.
Qed.

Lemma resampleLinear_same samples sr : resampleLinear samples sr sr = Ok samples.
Proof. unfold resampleLinear. now rewrite Z.eqb_refl. Qed.

Lemma zeros_int16 n : Forall int16 (zeros n).
Proof. apply Forall_replicate. unfold int16. lia. Qed.

Lemma tone_total path : totalSamplesOf 24000 (Some 3%Q) (toneSegment path) [] = 72000.
Proof. reflexivity. Qed.

Lemma tone_start path : segmentStartIndex 24000 (toneSegment path) = 24000.
Proof. reflexivity. Qed.

Lemma tone_window path : targetWindowSamples 24000 (toneSegment path) = 24000.
Proof. reflexivity. Qed.

Lemma tone_placed path (tone : list Z) :
  len tone = 24000 -> Forall int16 tone ->
  map clamp16 (placeSegment 24000 72000 (toneSegment path) tone (zeros 72000)) =
  zeros 24000 ++ tone ++ zeros 24000.
Proof.
  intros Hl Hi. apply list_eq. intros k.
  rewrite list_lookup_fmap.
  destruct (placeSegment_spec 24000 72000 (toneSegment path) tone (zeros 72000)) as [_ ->].
  assert (Hw : writableCount 24000 72000 (toneSegment path) tone = 24000).
  { unfold writableCount. rewrite tone_start, tone_window, Hl. reflexivity. }
  rewrite Hw, tone_start, zeros_length, zeros_lookup.
  unfold len in Hl.
  destruct (decide (k < Z.to_nat 24000)%nat) as [H1|H1].
  { rewrite lookup_app_l by (rewrite zeros_length; lia).
    rewrite zeros_lookup, decide_False by lia. rewrite !decide_True by lia. reflexivity. }
  rewrite lookup_app_r by (rewrite zeros_length; lia). rewrite zeros_length.
  destruct (decide (k - Z.to_nat 24000 < length tone)%nat) as [H2|H2].
  { rewrite lookup_app_l by lia.
    rewrite decide_True by lia. rewrite decide_True by lia.
    replace (Z.to_nat (Z.of_nat k - 24000)) with (k - Z.to_nat 24000)%nat by lia.
    destruct (lookup_lt_is_Some_2 tone _ H2) as [t Ht]. rewrite Ht.
    cbn [fmap option_fmap option_map from_option id]. rewrite Z.add_0_l. f_equal.
    rewrite Forall_lookup in Hi. pose proof (Hi _ _ Ht) as Hti.
    rewrite (int16_ToInt32 t Hti). unfold clamp16, int16 in *. lia. }
  rewrite lookup_app_r by lia. rewrite zeros_lookup.
  rewrite decide_False by lia.
  destruct (decide (k < Z.to_nat 72000)%nat).
  - rewrite decide_True by lia. reflexivity.
  - rewrite decide_False by lia. reflexivity.
Qed.

(** C2. One segment from second 1 to second 2 that holds one second of a
    tone at 24000 Hz, composed at 24000 Hz over at least 3 seconds, gives
    exactly 72000 samples: 24000 zeros, the tone unchanged, 24000 zeros;
    and that buffer is what is written. *)
Theorem compose_single_tone (w : World) (path output : string)
    (W : list byte) (r : WavReadResult) (tone : list Z) :
  files w !! path = Some W -> parseWav W = Ok r ->
  sampleRate r = 24000 -> samples r = tone -> len tone = 24000 ->
  resampleLinear tone 24000 24000 = Ok tone
  /\ (mixTimeline (toneParams path output) w).2 =
       Ok (24000, zeros 24000 ++ tone ++ zeros 24000)
  /\ len (zeros 24000 ++ tone ++ zeros 24000) = 72000
  /\ composeDubbedTimeline (toneParams path output) w =
       ({| files := <[output := canonicalFile 24000 (zeros 24000 ++ tone ++ zeros 24000)]> (files w);
           trace := trace w ++ [EvMkdirFor output; EvAllocAccumulator 72000;
                                EvReadFile path; EvWriteFile output] |},
        Ok tt).
Proof.
  intros Hfile Hparse Hrate Hsamples Hl.
  assert (Hi : Forall int16 tone) by (subst tone; eapply parseWav_int16; eauto).
  assert (Hsrc : sourceOf (files w) 24000 (toneSegment path) = Ok tone).
  { unfold sourceOf. cbn [toneSegment wavPath]. rewrite Hfile, Hparse, bind_Ok, Hrate, Hsamples.
    apply resampleLinear_same. }
  assert (Hall : Forall (loads (files w) (rateOf (toneParams path output))) [toneSegment path]).
  { repeat constructor. now exists tone. }
  pose proof (mixTimeline_ok (toneParams path output) w (toneSegment path) [] eq_refl Hall) as Hmix.
  assert (Hmixed : mixedSamples (files w) (toneParams path output) (toneSegment path) [] =
                   zeros 24000 ++ tone ++ zeros 24000).
  { unfold mixedSamples. cbv zeta.
    change (rateOf (toneParams path output)) with 24000.
    change (mediaDurationSec (toneParams path output)) with (Some 3%Q).
    rewrite tone_total. cbn [fold_left]. unfold placeLoaded. rewrite Hsrc.
    now apply tone_placed. }
  rewrite Hmixed in Hmix.
  change (rateOf (toneParams path output)) with 24000 in Hmix.
  change (mediaDurationSec (toneParams path output)) with (Some 3%Q) in Hmix.
  rewrite tone_total in Hmix.
  assert (Hlen : len (zeros 24000 ++ tone ++ zeros 24000) = 72000).
  { rewrite !len_app, Hl. unfold len. rewrite zeros_length. lia. }
  split; [apply resampleLinear_same|]. split; [now rewrite Hmix|]. split; [exact Hlen|].
  rewrite compose_run, Hmix.
  rewrite wavOfSamples_ok.
  2:{ unfold fitsHeader. rewrite Hlen. repeat split; try lia.
      repeat (apply Forall_app; split); auto using zeros_int16. }
  cbn [files trace outputWavPath toneParams map app toneSegment wavPath].
  f_equal. f_equal. now rewrite <- app_assoc.
Qed.

(** *** The example timelines *)

Lemma toneSamples_len : len toneSamples = 24000.
Proof. unfold toneSamples, len. rewrite length_map, length_seqZ. lia. Qed.

Lemma toneSamples_int16 : Forall int16 toneSamples.
Proof.
  unfold toneSamples. apply Forall_forall. intros x Hx.
  apply list_elem_of_In, in_map_iff in Hx as (i & <- & _).
  pose proof (Z.mod_pos_bound i 100 ltac:(lia)). unfold int16. lia.
Qed.

Lemma toneFile_parses :
  parseWav toneFile =
    Ok {| sampleRate := 24000; channels := 1; bitsPerSample := 16; samples := toneSamples |}.
Proof.
  apply parseWav_canonical. unfold fitsHeader. rewrite toneSamples_len.
  repeat split; try lia. apply toneSamples_int16.
Qed.

Lemma compose_single_tone_witness :
  files toneWorld !! "tone.wav"%string = Some toneFile /\
  len toneSamples = 24000 /\
  (mixTimeline (toneParams "tone.wav" "dubbed.wav") toneWorld).2 =
    Ok (24000, zeros 24000 ++ toneSamples ++ zeros 24000).
Proof.
  assert (H1 : files toneWorld !! "tone.wav"%string = Some toneFile) by apply lookup_singleton_eq.
  split; [exact H1|]. split; [exact toneSamples_len|].
  exact (proj1 (proj2 (compose_single_tone toneWorld "tone.wav" "dubbed.wav" toneFile _ toneSamples
                  H1 toneFile_parses eq_refl eq_refl toneSamples_len))).
Defined.

Lemma clipA_source :
  sourceOf (files clipWorld) 10 segA = Ok [30000; 30000; 3; 4; 5; 6; 7].
Proof. vm_compute. reflexivity. Qed.

Lemma clipB_source :
  sourceOf (files clipWorld) 10 segB = Ok [10000; 15000; 20000; 25000; 30000; 30000].
Proof. vm_compute. reflexivity. Qed.

Example compose_clips :
  (mixTimeline (clipParams [segA; segB]) clipWorld).2 =
  Ok (10, [10000; 15000; 20000; 25000; 30000; 32767; 30000; 3; 4; 5; 6; 7;
           0; 0; 0; 0; 0; 0; 0; 0; 0; 0; 0; 0; 0; 0; 0; 0; 0; 0]).
Proof. vm_compute. reflexivity. Qed.

Example compose_nothing :
  composeDubbedTimeline (clipParams []) clipWorld = (clipWorld, Throw NoSegments).
Proof. reflexivity. Qed.

Lemma overlap_is_added_witness :
  segmentStartIndex 10 segA = 5 /\
  [30000; 30000; 3; 4; 5; 6; 7] !! 0%nat = Some 30000 /\
  exists final, (mixTimeline (clipParams [segA; segA]) clipWorld).2 = Ok (10, final) /\
    get final 5 = Some (clamp16 (2 * 30000)).
Proof.
  split; [reflexivity|]. split; [reflexivity|].
  refine (overlap_is_added (clipParams [segA; segA]) clipWorld segA segA
            [30000; 30000; 3; 4; 5; 6; 7] [30000; 30000; 3; 4; 5; 6; 7] 0 30000
            eq_refl clipA_source clipA_source eq_refl _ _ eq_refl eq_refl);
    vm_compute; reflexivity.
Defined.

Lemma compose_order_independent_witness :
  Permutation [segA; segB] [segB; segA] /\
  files (composeDubbedTimeline (clipParams [segA; segB]) clipWorld).1 =
  files (composeDubbedTimeline (clipParams [segB; segA]) clipWorld).1.
Proof.
  assert (Hp : Permutation [segA; segB] [segB; segA]) by apply perm_swap.
  split; [exact Hp|].
  refine (proj1 (proj2 (compose_order_independent (clipParams [segA; segB]) [segB; segA]
                          clipWorld _ Hp))).
  discriminate.
Defined.

Lemma parseWav_never_out_of_fuel data : parseWav data <> Throw OutOfFuel.
Proof. intros H. apply parseWav_throws in H. intuition discriminate. Qed.

(** * Further properties: the codec, the resampler, the compositor and their callers *)

Import WavFile WavFileSpec MixSpec MixExamples.

(** ** The writer for raw PCM *)

Lemma writeUInt16LE_ok v : 0 <= v <= 65535 -> writeUInt16LE v = Ok (le16 v).
Proof.
  intros H. unfold writeUInt16LE.
  destruct (Z.ltb_spec v 0); [lia|]. destruct (Z.ltb_spec 65535 v); [lia|]. reflexivity.
Qed.

Lemma writeUInt16LE_fail v : ~ 0 <= v <= 65535 -> writeUInt16LE v = Throw RangeError.
Proof.
  intros H. unfold writeUInt16LE.
  destruct (Z.ltb_spec v 0); [reflexivity|]. destruct (Z.ltb_spec 65535 v); [reflexivity|]. lia.
Qed.

Lemma pcm16ToWavBuffer_general pcm sr c :
  pcm16ToWavBuffer pcm sr c =
    if decide (headerFits sr c (len pcm))
    then Ok (wavHeader sr c (len pcm) ++ pcm)
    else Throw RangeError.
Proof.
  unfold pcm16ToWavBuffer, headerFits. cbv zeta.
  change (16 / 8) with 2.
  pose proof (len_nonneg pcm) as Hn.
  destruct (decide (0 <= 36 + len pcm <= 4294967295)) as [H1|H1].
  2:{ rewrite (writeUInt32LE_fail (36 + len pcm)) by assumption.
      rewrite decide_False by lia. reflexivity. }
  rewrite (writeUInt32LE_ok (36 + len pcm)) by assumption. rewrite bind_Ok.
  change (writeUInt32LE 16) with (Ok (le32 16)). rewrite bind_Ok.
  change (writeUInt16LE 1) with (Ok (le16 1)). rewrite !bind_Ok.
  destruct (decide (0 <= c <= 65535)) as [Hc|Hc].
  2:{ rewrite (writeUInt16LE_fail c) by assumption. rewrite decide_False by lia. reflexivity. }
  rewrite (writeUInt16LE_ok c), bind_Ok by assumption.
  destruct (decide (0 <= sr <= 4294967295)) as [H2|H2].
  2:{ rewrite (writeUInt32LE_fail sr) by assumption. rewrite decide_False by lia. reflexivity. }
  rewrite (writeUInt32LE_ok sr), bind_Ok by assumption.
  destruct (decide (0 <= sr * c * 2 <= 4294967295)) as [H3|H3].
  2:{ rewrite (writeUInt32LE_fail (sr * c * 2)) by assumption.
      rewrite decide_False by lia. reflexivity. }
  rewrite (writeUInt32LE_ok (sr * c * 2)), bind_Ok by assumption.
  destruct (decide (0 <= c * 2 <= 65535)) as [H4|H4].
  2:{ rewrite (writeUInt16LE_fail (c * 2)) by assumption.
      rewrite decide_False by lia. reflexivity. }
  rewrite (writeUInt16LE_ok (c * 2)), bind_Ok by assumption.
  change (writeUInt16LE 16) with (Ok (le16 16)). rewrite !bind_Ok.
  rewrite (writeUInt32LE_ok (len pcm)), bind_Ok by lia.
  rewrite decide_True by lia. reflexivity.
Qed.

Lemma pcm16ToWavBuffer_inv pcm sr c W :
  pcm16ToWavBuffer pcm sr c = Ok W ->
  headerFits sr c (len pcm) /\ W = wavHeader sr c (len pcm) ++ pcm.
Proof.
  rewrite pcm16ToWavBuffer_general. case_decide; [|discriminate].
  intros [= <-]. split; [assumption|reflexivity].
Qed.

Section Header.
Variables (sr c : Z) (pcm : list byte).
Hypothesis Hfit : headerFits sr c (len pcm).

Lemma wavFile_len : len (wavHeader sr c (len pcm) ++ pcm) = 44 + len pcm.
Proof. rewrite len_app. reflexivity. Qed.

Lemma wavFile_markers : markersOk (wavHeader sr c (len pcm) ++ pcm).
Proof. split; reflexivity. Qed.

Lemma wavFile_riff_size : u32At (wavHeader sr c (len pcm) ++ pcm) 4 = 36 + len pcm.
Proof.
  destruct Hfit as (H0 & H1 & H2 & H3 & H4). pose proof (len_nonneg pcm).
  unfold u32At, readUInt32LE. change (4 <? 0) with false. cbv iota.
  change (slice (wavHeader sr c (len pcm) ++ pcm) 4 (4 + 4)) with (le32 (36 + len pcm)).
  unfold le32. apply u32_bytes. lia.
Qed.

Lemma wavFile_fmt_id : chunkIdAt (wavHeader sr c (len pcm) ++ pcm) 12 = "fmt "%string.
Proof. reflexivity. Qed.

Lemma wavFile_data_id : chunkIdAt (wavHeader sr c (len pcm) ++ pcm) 36 = "data"%string.
Proof. reflexivity. Qed.

Lemma wavFile_fmt_size : chunkSizeAt (wavHeader sr c (len pcm) ++ pcm) 12 = 16.
Proof. reflexivity. Qed.

Lemma wavFile_tag : u16At (wavHeader sr c (len pcm) ++ pcm) 20 = 1.
Proof. reflexivity. Qed.

Lemma wavFile_bits : u16At (wavHeader sr c (len pcm) ++ pcm) 34 = 16.
Proof. reflexivity. Qed.

Lemma wavFile_channels : u16At (wavHeader sr c (len pcm) ++ pcm) 22 = c.
Proof.
  destruct Hfit as (H0 & H1 & H2 & H3 & H4).
  unfold u16At, readUInt16LE. change (22 <? 0) with false. cbv iota.
  change (slice (wavHeader sr c (len pcm) ++ pcm) 22 (22 + 2)) with (le16 c).
  unfold le16. apply u16_bytes. lia.
Qed.

Lemma wavFile_rate : u32At (wavHeader sr c (len pcm) ++ pcm) 24 = sr.
Proof.
  destruct Hfit as (H0 & H1 & H2 & H3 & H4).
  unfold u32At, readUInt32LE. change (24 <? 0) with false. cbv iota.
  change (slice (wavHeader sr c (len pcm) ++ pcm) 24 (24 + 4)) with (le32 sr).
  unfold le32. apply u32_bytes. lia.
Qed.

Lemma wavFile_byte_rate : u32At (wavHeader sr c (len pcm) ++ pcm) 28 = sr * c * 2.
Proof.
  destruct Hfit as (H0 & H1 & H2 & H3 & H4).
  unfold u32At, readUInt32LE. change (28 <? 0) with false. cbv iota.
  change (slice (wavHeader sr c (len pcm) ++ pcm) 28 (28 + 4)) with (le32 (sr * c * 2)).
  unfold le32. apply u32_bytes. lia.
Qed.

Lemma wavFile_block_align : u16At (wavHeader sr c (len pcm) ++ pcm) 32 = c * 2.
Proof.
  destruct Hfit as (H0 & H1 & H2 & H3 & H4).
  unfold u16At, readUInt16LE. change (32 <? 0) with false. cbv iota.
  change (slice (wavHeader sr c (len pcm) ++ pcm) 32 (32 + 2)) with (le16 (c * 2)).
  unfold le16. apply u16_bytes. lia.
Qed.

Lemma wavFile_data_size : chunkSizeAt (wavHeader sr c (len pcm) ++ pcm) 36 = len pcm.
Proof.
  destruct Hfit as (H0 & H1 & H2 & H3 & H4). pose proof (len_nonneg pcm).
  unfold chunkSizeAt, u32At, readUInt32LE. change (36 + 4 <? 0) with false. cbv iota.
  change (slice (wavHeader sr c (len pcm) ++ pcm) (36 + 4) (36 + 4 + 4)) with (le32 (len pcm)).
  unfold le32. apply u32_bytes. lia.
Qed.

Lemma wavFile_payload :
  slice (wavHeader sr c (len pcm) ++ pcm) 44 (44 + len pcm) = pcm.
Proof.
  unfold slice. replace (44 + len pcm - 44) with (len pcm) by lia.
  change (drop (Z.to_nat 44) (wavHeader sr c (len pcm) ++ pcm)) with pcm.
  apply take_ge. unfold len. lia.
Qed.

Lemma wavFile_fmt_fields :
  fmtFieldsAt (wavHeader sr c (len pcm) ++ pcm) 12 =
    {| fChannels := c; fSampleRate := sr; fBits := 16 |}.
Proof.
  unfold fmtFieldsAt. change (12 + 8 + 2) with 22. change (12 + 8 + 4) with 24.
  change (12 + 8 + 14) with 34.
  now rewrite wavFile_channels, wavFile_rate, wavFile_bits.
Qed.

Lemma wavFile_walk :
  dataChunkAt (wavHeader sr c (len pcm) ++ pcm) [12] 36 /\
  fmtComplete (wavHeader sr c (len pcm) ++ pcm) [12].
Proof.
  pose proof wavFile_len as Hl. pose proof (len_nonneg pcm) as Hn.
  split; [split; [|split]|].
  - constructor; [lia | rewrite wavFile_fmt_id; discriminate |].
    rewrite wavFile_fmt_size. constructor.
  - lia.
  - apply wavFile_data_id.
  - constructor; [intros _; lia | constructor].
Qed.

Lemma parseWav_wavFile_decode :
  parseWav (wavHeader sr c (len pcm) ++ pcm) =
    decodeData (wavHeader sr c (len pcm) ++ pcm)
      (withData 44 (len pcm)
         (withFormat {| fChannels := c; fSampleRate := sr; fBits := 16 |} scanInit)).
Proof.
  pose proof wavFile_len as Hl. pose proof (len_nonneg pcm) as Hn.
  destruct wavFile_walk as [Hw Hc].
  rewrite (parseWav_found _ [12] 36) by (auto using wavFile_markers; lia).
  unfold formatAfter. cbn [fold_left]. rewrite wavFile_fmt_id. cbn [String.eqb Ascii.eqb Bool.eqb].
  rewrite wavFile_fmt_fields, wavFile_data_size. reflexivity.
Qed.
End Header.

(** X1. The file [pcm16ToWavBuffer] returns is a 44-byte header followed by
    the PCM bytes unchanged, and each header field reads back as the value
    it was written from. *)
Theorem pcm16ToWavBuffer_layout (pcm : list byte) (sr c : Z) (W : list byte) :
  pcm16ToWavBuffer pcm sr c = Ok W ->
  len W = 44 + len pcm /\ slice W 44 (len W) = pcm /\
  markersOk W /\ u32At W 4 = len W - 8 /\
  chunkIdAt W 12 = "fmt "%string /\ chunkSizeAt W 12 = 16 /\
  u16At W 20 = 1 /\ u16At W 22 = c /\ u32At W 24 = sr /\
  u16At W 32 = 2 * c /\ u32At W 28 = sr * u16At W 32 /\ u16At W 34 = 16 /\
  chunkIdAt W 36 = "data"%string /\ chunkSizeAt W 36 = len pcm.
Proof.
  intros HW. apply pcm16ToWavBuffer_inv in HW as [Hfit ->].
  pose proof (wavFile_len sr c pcm) as Hl.
  rewrite Hl, (wavFile_payload sr c pcm), (wavFile_riff_size sr c pcm Hfit),
    (wavFile_channels sr c pcm Hfit), (wavFile_rate sr c pcm Hfit),
    (wavFile_block_align sr c pcm Hfit), (wavFile_byte_rate sr c pcm Hfit),
    (wavFile_data_size sr c pcm Hfit).
  repeat split; try reflexivity; lia.
Qed.

Lemma pcm16ToWavBuffer_layout_witness :
  pcm16ToWavBuffer [x01; x02; x03; x04] 8000 2
    = Ok (wavHeader 8000 2 4 ++ [x01; x02; x03; x04]) /\
  u32At (wavHeader 8000 2 4 ++ [x01; x02; x03; x04]) 28 = 32000.
Proof.
  assert (H : pcm16ToWavBuffer [x01; x02; x03; x04] 8000 2
              = Ok (wavHeader 8000 2 4 ++ [x01; x02; x03; x04])) by reflexivity.
  split; [exact H|].
  destruct (pcm16ToWavBuffer_layout _ _ _ _ H)
    as (_ & _ & _ & _ & _ & _ & _ & _ & _ & Hb & Hr & _).
  rewrite Hr, Hb. reflexivity.
Defined.

(** X2. [pcm16ToWavBuffer] succeeds exactly when every header field fits
    the integer slot it is written to; otherwise the writer of that slot
    raises a RangeError, and no other error is possible. *)
Theorem pcm16ToWavBuffer_range (pcm : list byte) (sr c : Z) :
  (succeeds (pcm16ToWavBuffer pcm sr c) <->
     36 + len pcm <= 4294967295 /\ 0 <= c <= 32767 /\
     0 <= sr <= 4294967295 /\ sr * c * 2 <= 4294967295)
  /\ (forall e, pcm16ToWavBuffer pcm sr c = Throw e -> e = RangeError).
Proof.
  rewrite pcm16ToWavBuffer_general. unfold headerFits. split.
  - split.
    + intros [W HW]. case_decide; [|discriminate]. lia.
    + intros H. rewrite decide_True by nia. eexists; reflexivity.
  - intros e. case_decide; congruence.
Qed.

(** ** Reading back what was written *)

Lemma downmix_spec_one (source : list Z) :
  Forall int16 source -> downmix_spec 1 source = source.
Proof.
  intros Hin. unfold downmix_spec. apply list_eq. intros k.
  rewrite list_lookup_fmap, Nat.div_1_r.
  destruct (decide (k < length source)%nat) as [Hlt|Hge].
  - rewrite lookup_seq_lt by assumption. cbn [fmap option_fmap option_map Nat.add].
    destruct (lookup_lt_is_Some_2 source k Hlt) as [x Hx]. rewrite Hx. f_equal.
    unfold frameOf. rewrite Nat.mul_1_r.
    rewrite (drop_S source x k Hx). cbn [take].
    unfold downmixFrame. cbn [sumZ fold_right]. rewrite Z.add_0_r.
    change (inject_Z (Z.of_nat 1)) with 1%Q.
    assert (Hq : (inject_Z x / 1 + (1 # 2) == inject_Z x + (1 # 2))%Q) by field.
    rewrite (Qfloor_comp _ _ Hq), Qfloor_plus_half.
    rewrite Forall_lookup in Hin. specialize (Hin _ _ Hx).
    unfold clamp16, int16 in *. lia.
  - rewrite lookup_seq_ge by lia. cbn.
    symmetry. apply lookup_ge_None. lia.
Qed.

Lemma parseWav_written (pcm : list byte) (sr : Z) (c : nat) :
  (1 <= c)%nat -> headerFits sr (Z.of_nat c) (len pcm) ->
  parseWav (wavHeader sr (Z.of_nat c) (len pcm) ++ pcm) =
    Ok {| sampleRate := sr; channels := 1; bitsPerSample := 16;
          samples := downmix_spec c (int16sOf pcm) |}.
Proof.
  intros Hc Hfit. rewrite parseWav_wavFile_decode by assumption.
  pose proof (wavFile_len sr (Z.of_nat c) pcm) as Hl. pose proof (len_nonneg pcm) as Hn.
  destruct (decide (c = 1)%nat) as [->|Hc1].
  - rewrite decodeData_mono by (try reflexivity; lia). cbn [fSampleRate].
    rewrite (wavFile_payload sr (Z.of_nat 1) pcm).
    rewrite downmix_spec_one by apply int16sOf_int16. reflexivity.
  - rewrite (decodeData_downmix _ _ _ _ c) by (try reflexivity; lia). cbn [fSampleRate].
    rewrite (wavFile_payload sr (Z.of_nat c) pcm). reflexivity.
Qed.

(** [writeWavPcm16Mono] is the loop that fills [pcm] followed by
    [writeWavFromPcm16] with one channel (wav.ts:126-133). *)
Lemma writeWavPcm16Mono_via_raw (path : string) (sr : Z) (ss : list Z) (w : World) :
  writeWavPcm16Mono path sr ss w =
    ioBind (ioLift (pcmOfSamples ss))
           (fun pcm => writeWavFromPcm16 path pcm sr (Some 1)) w.
Proof.
  unfold writeWavPcm16Mono, writeWavFromPcm16, wavOfSamples, ioBind, ioLift.
  destruct (pcmOfSamples ss) as [pcm|e]; [|reflexivity].
  rewrite bind_Ok. reflexivity.
Qed.

(** X3. Raw PCM bytes stored with [writeWavFromPcm16] (one channel) and read
    back with [readWavPcm16Mono] come out as the little-endian 16-bit
    samples of those bytes, at the rate that was given; no other file
    changes, and a write that fails leaves the world as it was. *)
Theorem writeWavFromPcm16_then_read (path : string) (pcm : list byte) (sr : Z)
    (ch : option Z) (w : World) :
  default 1 ch = 1 ->
  (forall e, (writeWavFromPcm16 path pcm sr ch w).2 = Throw e ->
     e = RangeError /\ (writeWavFromPcm16 path pcm sr ch w).1 = w)
  /\ ((writeWavFromPcm16 path pcm sr ch w).2 = Ok tt ->
      let w1 := (writeWavFromPcm16 path pcm sr ch w).1 in
      (readWavPcm16Mono path w1).2 =
        Ok {| sampleRate := sr; channels := 1; bitsPerSample := 16;
              samples := int16sOf pcm |}
      /\ files (readWavPcm16Mono path w1).1 = files w1
      /\ forall p, p <> path -> files w1 !! p = files w !! p).
Proof.
  intros Hch. unfold writeWavFromPcm16, ioBind, ioLift. rewrite Hch.
  rewrite pcm16ToWavBuffer_general.
  destruct (decide (headerFits sr 1 (len pcm))) as [Hfit|Hfit].
  - split; [discriminate|]. intros _. cbv zeta. unfold fs_writeFile. cbn [fst snd].
    unfold readWavPcm16Mono, ioBind, fs_readFile, ioLift. cbn [files fst snd].
    rewrite lookup_insert_eq. cbn [fst snd files].
    split; [|split; [reflexivity|]].
    + pose proof (parseWav_written pcm sr 1 ltac:(lia) Hfit) as Hp.
      change (Z.of_nat 1) with 1 in Hp. rewrite Hp.
      rewrite downmix_spec_one by apply int16sOf_int16. reflexivity.
    + intros p Hp. now rewrite lookup_insert_ne.
  - split; [|discriminate]. cbn [fst snd]. intros e [= <-]. split; reflexivity.
Qed.

Lemma writeWavFromPcm16_then_read_witness :
  (writeWavFromPcm16 "s.wav" [x01; x00; xff; xff; x07] 24000 None
     {| files := ∅; trace := [] |}).2 = Ok tt /\
  (readWavPcm16Mono "s.wav"
     (writeWavFromPcm16 "s.wav" [x01; x00; xff; xff; x07] 24000 None
        {| files := ∅; trace := [] |}).1).2 =
    Ok {| sampleRate := 24000; channels := 1; bitsPerSample := 16; samples := [1; -1] |}.
Proof.
  assert (H : (writeWavFromPcm16 "s.wav" [x01; x00; xff; xff; x07] 24000 None
                 {| files := ∅; trace := [] |}).2 = Ok tt) by reflexivity.
  split; [exact H|].
  destruct (writeWavFromPcm16_then_read "s.wav" [x01; x00; xff; xff; x07] 24000 None
              {| files := ∅; trace := [] |} eq_refl) as [_ Hok].
  destruct (Hok H) as [Hr _]. exact Hr.
Defined.

(** X4. A file that [pcm16ToWavBuffer] writes for [c >= 1] interleaved
    channels parses back as mono at the same rate: the samples are the
    frame-by-frame average (rounded, clamped) of the 16-bit samples of the
    PCM bytes. *)
Theorem pcm16ToWavBuffer_then_parse (pcm : list byte) (sr : Z) (c : nat) (W : list byte) :
  (1 <= c)%nat ->
  pcm16ToWavBuffer pcm sr (Z.of_nat c) = Ok W ->
  parseWav W =
    Ok {| sampleRate := sr; channels := 1; bitsPerSample := 16;
          samples := downmix_spec c (int16sOf pcm) |}.
Proof.
  intros Hc HW. apply pcm16ToWavBuffer_inv in HW as [Hfit ->].
  now apply parseWav_written.
Qed.

Lemma pcm16ToWavBuffer_then_parse_witness :
  (1 <= 2)%nat /\
  parseWav (wavHeader 8000 2 8 ++ [x64; x00; x9c; xff; x0a; x00; x15; x00]) =
    Ok {| sampleRate := 8000; channels := 1; bitsPerSample := 16; samples := [0; 16] |}.
Proof.
  assert (H1 : (1 <= 2)%nat) by lia.
  split; [exact H1|].
  exact (pcm16ToWavBuffer_then_parse [x64; x00; x9c; xff; x0a; x00; x15; x00] 8000 2
           (wavHeader 8000 2 8 ++ [x64; x00; x9c; xff; x0a; x00; x15; x00]) H1 eq_refl).
Defined.

(** ** What a successful parse returns *)

Lemma u32At_range data o : 0 <= u32At data o <= 4294967295.
Proof.
  unfold u32At, readUInt32LE.
  destruct (o <? 0); [lia|].
  destruct (slice data o (o + 4)) as [|b0 [|b1 [|b2 [|b3 [|? ?]]]]]; try lia.
  pose proof (Z_of_byte_range b0). pose proof (Z_of_byte_range b1).
  pose proof (Z_of_byte_range b2). pose proof (Z_of_byte_range b3). lia.
Qed.

Lemma u16At_range data o : 0 <= u16At data o <= 65535.
Proof.
  unfold u16At, readUInt16LE.
  destruct (o <? 0); [lia|].
  destruct (slice data o (o + 2)) as [|b0 [|b1 [|? ?]]]; try lia.
  pose proof (Z_of_byte_range b0). pose proof (Z_of_byte_range b1). lia.
Qed.

Lemma formatAfter_ranges data vs : forall f,
  0 <= fChannels f <= 65535 -> 0 <= fSampleRate f <= 4294967295 ->
  0 <= fChannels (formatAfter data vs f) <= 65535 /\
  0 <= fSampleRate (formatAfter data vs f) <= 4294967295.
Proof.
  unfold formatAfter. induction vs as [|v vs IH]; intros f Hc Hr; cbn [fold_left]; [auto|].
  apply IH; destruct (String.eqb _ _); try assumption; cbn [fmtFieldsAt fChannels fSampleRate].
  - apply u16At_range.
  - apply u32At_range.
Qed.

Lemma skips_le data o vs o' : skips data o vs o' -> o <= o'.
Proof.
  induction 1 as [|o vs o' H1 H2 H3 IH]; [lia|].
  pose proof (chunkSizeAt_nonneg data o). lia.
Qed.

Lemma Ok_inj {A} (a b : A) : Ok a = Ok b -> a = b.
Proof. now intros [= ->]. Qed.

Lemma downmix_length pcmLength source c out :
  downmix pcmLength source c = Ok out -> 0 <= pcmLength -> 0 <= c ->
  2 * len out <= pcmLength.
Proof.
  unfold downmix. intros H Hp Hc. destruct (Z.eqb_spec c 0) as [->|Hc0].
  - destruct (Z.eqb_spec pcmLength 0); [|discriminate]. injection H as <-. unfold len. cbn [length]. lia.
  - cbv zeta in H. apply Ok_inj in H. subst out.
    set (body := fun frame mono => set ToInt16 mono frame _).
    destruct (forLoop_pointwise ToInt16 0
                (fun i _ => monoOfSum c (frameSum source c i)) body
                ltac:(lia) ltac:(reflexivity)
                (Z.to_nat (Qceiling (inject_Z pcmLength / 2 / inject_Z c)))
                0 (zeros (Qfloor (inject_Z pcmLength / 2 / inject_Z c))) ltac:(lia)) as [Hl _].
    unfold len. rewrite Hl, zeros_length, Qfloor_half_div by lia.
    pose proof (Z.mul_div_le pcmLength 2 ltac:(lia)) as Hhalf.
    assert (0 <= pcmLength / 2) as Hh0 by (apply Z.div_pos; lia).
    set (h := pcmLength / 2) in *.
    assert (h / c <= h) by (apply Z.div_le_upper_bound; [lia|nia]).
    assert (0 <= h / c) by (apply Z.div_pos; lia).
    lia.
Qed.

Lemma view_length data o n source :
  Int16Array_view data o n = Ok source -> 0 <= o -> 0 <= n -> len source = n.
Proof.
  unfold Int16Array_view. destruct (negb _); [discriminate|].
  destruct (Z.ltb_spec (len data) (o + 2 * n)); [discriminate|].
  intros [= <-] Ho Hn. unfold len. rewrite int16sOf_length, slice_length by lia.
  replace (o + 2 * n - o) with (2 * n) by lia.
  rewrite Z2Nat.inj_mul by lia. change (Z.to_nat 2) with 2%nat.
  rewrite Nat.mul_comm, Nat.div_mul by lia. lia.
Qed.

Lemma decodeData_ok_inv data st r :
  decodeData data st = Ok r -> 0 <= sChannels st ->
  channels r = 1 /\ bitsPerSample r = 16 /\ sampleRate r = sSampleRate st /\
  2 * len (samples r) <= Z.max 0 (len data - sPcmOffset st).
Proof.
  unfold decodeData. intros H Hc.
  destruct (Z.ltb_spec (sPcmOffset st) 0) as [|Ho]; [discriminate|].
  destruct (Z.eqb_spec (sBitsPerSample st) 16) as [Hb|]; [|discriminate].
  cbn [negb] in H. cbv zeta in H.
  set (pcm := slice data (sPcmOffset st) (sPcmOffset st + sPcmSize st)) in *.
  assert (Hpcm : len pcm <= Z.max 0 (len data - sPcmOffset st)).
  { unfold len at 1, pcm. rewrite slice_length_le by assumption. lia. }
  pose proof (len_nonneg pcm) as Hp0.
  assert (0 <= len pcm / 2) by (apply Z.div_pos; lia).
  pose proof (Z.mul_div_le (len pcm) 2 ltac:(lia)) as Hhalf.
  destruct (Int16Array_view _ _ _) as [source|] eqn:Hv; [|discriminate].
  rewrite bind_Ok in H. apply view_length in Hv; [|lia..].
  destruct (Z.eqb_spec (sChannels st) 1) as [Hc1|Hc1].
  - injection H as <-. cbn. repeat split; try assumption; lia.
  - destruct (downmix _ _ _) as [mono|] eqn:Hd; [|discriminate]. rewrite bind_Ok in H.
    injection H as <-. cbn. apply downmix_length in Hd; [|lia..].
    repeat split; try assumption; lia.
Qed.

(** X5. Whatever the input, a successful parse returns one channel of
    16-bit samples: every sample lies in the int16 range, the rate is a
    32-bit unsigned value, and there are no more samples than the bytes
    after the first 20 can hold. *)
Theorem parseWav_result_shape (data : list byte) (r : WavReadResult) :
  parseWav data = Ok r ->
  channels r = 1 /\ bitsPerSample r = 16 /\
  0 <= sampleRate r <= 4294967295 /\
  Forall int16 (samples r) /\
  2 * len (samples r) + 20 <= len data.
Proof.
  intros Hr.
  destruct (Z.ltb_spec (len data) 44) as [Hs|Hs];
    [rewrite parseWav_small in Hr by assumption; discriminate|].
  destruct (markersOk_dec data) as [Hm|Hm];
    [|rewrite parseWav_badHeader in Hr by assumption; discriminate].
  pose proof (parseWav_int16 data r Hr) as Hin.
  destruct (parseWav_outcome data Hs Hm)
    as [(vs & o & _ & _ & He)|[(vs & o & Hd & Hc & He)|(vs & o & _ & _ & _ & _ & _ & He)]];
    try congruence.
  rewrite He in Hr. destruct Hd as (Hsk & Ho & _).
  pose proof (skips_le _ _ _ _ Hsk) as Hle.
  destruct (formatAfter_ranges data vs defaultFormat) as [Hch Hrate]; [cbn; lia..|].
  apply decodeData_ok_inv in Hr as (H1 & H2 & H3 & H4); [|cbn; lia].
  cbn [withData withFormat sSampleRate sPcmOffset] in H3, H4.
  repeat split; try assumption; try lia.
Qed.

Lemma parseWav_result_shape_witness :
  parseWav stereoFrame =
    Ok {| sampleRate := 8000; channels := 1; bitsPerSample := 16; samples := [0] |} /\
  2 * len [0] + 20 <= len stereoFrame.
Proof.
  assert (H : parseWav stereoFrame =
    Ok {| sampleRate := 8000; channels := 1; bitsPerSample := 16; samples := [0] |})
    by reflexivity.
  split; [exact H|].
  destruct (parseWav_result_shape stereoFrame _ H) as (_ & _ & _ & _ & Hl). exact Hl.
Defined.

(** ** Bytes after the data chunk *)

Lemma slice_app_prefix (data extra : list byte) s e :
  0 <= s -> e <= len data -> slice (data ++ extra) s e = slice data s e.
Proof.
  intros Hs He. unfold slice, len in *.
  destruct (Z.le_gt_cases s e) as [Hse|Hse].
  - rewrite drop_app_le by lia. rewrite take_app_le; [reflexivity|].
    rewrite length_drop. lia.
  - replace (Z.to_nat (e - s)) with 0%nat by lia. reflexivity.
Qed.

Lemma chunkIdAt_prefix data extra o :
  0 <= o -> o + 4 <= len data -> chunkIdAt (data ++ extra) o = chunkIdAt data o.
Proof. intros. unfold chunkIdAt, toStringAscii. now rewrite slice_app_prefix. Qed.

Lemma u32At_prefix data extra o :
  0 <= o -> o + 4 <= len data -> u32At (data ++ extra) o = u32At data o.
Proof. intros. unfold u32At, readUInt32LE. now rewrite slice_app_prefix. Qed.

Lemma u16At_prefix data extra o :
  0 <= o -> o + 2 <= len data -> u16At (data ++ extra) o = u16At data o.
Proof. intros. unfold u16At, readUInt16LE. now rewrite slice_app_prefix. Qed.

Lemma chunkSizeAt_prefix data extra o :
  0 <= o -> o + 8 <= len data -> chunkSizeAt (data ++ extra) o = chunkSizeAt data o.
Proof. intros. unfold chunkSizeAt. apply u32At_prefix; lia. Qed.

Lemma markersOk_prefix data extra :
  12 <= len data -> markersOk (data ++ extra) <-> markersOk data.
Proof.
  intros H. unfold markersOk, toStringAscii. now rewrite !slice_app_prefix by lia.
Qed.

Lemma walk_prefix data extra o vs o' :
  skips data o vs o' -> 0 <= o -> fmtComplete data vs ->
  skips (data ++ extra) o vs o' /\ fmtComplete (data ++ extra) vs /\
  forall f, formatAfter (data ++ extra) vs f = formatAfter data vs f.
Proof.
  induction 1 as [|o vs o' H1 H2 H3 IH]; intros Ho Hc.
  - split; [constructor|]. split; [constructor|reflexivity].
  - pose proof (chunkSizeAt_nonneg data o) as Hsz.
    apply Forall_cons in Hc as [Hc1 Hc].
    destruct IH as (IH1 & IH2 & IH3); [lia|assumption|].
    pose proof (len_nonneg extra) as Hex.
    assert (Hid : chunkIdAt (data ++ extra) o = chunkIdAt data o)
      by (apply chunkIdAt_prefix; lia).
    split; [|split].
    + constructor.
      * rewrite len_app. lia.
      * now rewrite Hid.
      * now rewrite chunkSizeAt_prefix by lia.
    + constructor; [|assumption]. rewrite len_app, Hid. intros Hf. specialize (Hc1 Hf). lia.
    + intros f. unfold formatAfter in *. cbn [fold_left]. rewrite Hid, IH3.
      destruct (String.eqb_spec (chunkIdAt data o) "fmt ") as [Hf|Hf]; [|reflexivity].
      specialize (Hc1 Hf). unfold fmtFieldsAt.
      now rewrite !u16At_prefix, u32At_prefix by lia.
Qed.

Lemma decodeData_prefix data extra st :
  0 <= sPcmOffset st -> 0 <= sPcmSize st -> sPcmOffset st + sPcmSize st <= len data ->
  decodeData (data ++ extra) st = decodeData data st.
Proof.
  intros Ho Hsz Hfit. unfold decodeData. cbv zeta.
  rewrite (slice_app_prefix data extra) by lia.
  set (pcm := slice data (sPcmOffset st) (sPcmOffset st + sPcmSize st)).
  assert (Hlen : len pcm <= Z.max 0 (sPcmSize st)).
  { unfold len at 1, pcm. rewrite slice_length_le by assumption. lia. }
  pose proof (len_nonneg pcm) as Hp0.
  pose proof (Z.mul_div_le (len pcm) 2 ltac:(lia)) as Hhalf.
  assert (Hv : Int16Array_view (data ++ extra) (sPcmOffset st) (len pcm / 2) =
               Int16Array_view data (sPcmOffset st) (len pcm / 2)).
  { unfold Int16Array_view. destruct (negb _); [reflexivity|].
    pose proof (len_nonneg extra). rewrite len_app.
    destruct (Z.ltb_spec (len data + len extra) (sPcmOffset st + 2 * (len pcm / 2))); [lia|].
    destruct (Z.ltb_spec (len data) (sPcmOffset st + 2 * (len pcm / 2))); [lia|].
    now rewrite slice_app_prefix by lia. }
  now rewrite Hv.
Qed.

(** X6. Once the chunk walk has found a "data" chunk whose payload lies
    wholly inside the input, nothing after that payload is looked at:
    appending any bytes to the input does not change what [parseWav]
    returns. *)
Theorem parseWav_ignores_trailing (data extra : list byte) (vs : list Z) (o : Z) :
  44 <= len data ->
  dataChunkAt data vs o -> fmtComplete data vs ->
  o + 8 + chunkSizeAt data o <= len data ->
  parseWav (data ++ extra) = parseWav data.
Proof.
  intros Hlen (Hsk & Ho & Hid) Hc Hfit.
  pose proof (len_nonneg extra) as Hex.
  pose proof (skips_le _ _ _ _ Hsk) as Hle.
  destruct (markersOk_dec data) as [Hm|Hm].
  2:{ rewrite (parseWav_badHeader data) by assumption.
      apply parseWav_badHeader; [rewrite len_app; lia|].
      now rewrite markersOk_prefix by lia. }
  destruct (walk_prefix data extra 12 vs o Hsk ltac:(lia) Hc) as (Hsk' & Hc' & Hf).
  assert (Hd : dataChunkAt data vs o) by (split; [assumption|split; assumption]).
  rewrite (parseWav_found data vs o) by assumption.
  rewrite (parseWav_found (data ++ extra) vs o).
  - rewrite Hf, chunkSizeAt_prefix by lia.
    pose proof (chunkSizeAt_nonneg data o).
    apply decodeData_prefix; cbn; lia.
  - rewrite len_app; lia.
  - now apply markersOk_prefix; [lia|].
  - split; [assumption|]. split; [rewrite len_app; lia|].
    rewrite chunkIdAt_prefix by lia. assumption.
  - assumption.
Qed.

Lemma parseWav_ignores_trailing_witness :
  44 <= len stereoFrame /\ dataChunkAt stereoFrame [12] 36 /\
  36 + 8 + chunkSizeAt stereoFrame 36 <= len stereoFrame /\
  parseWav (stereoFrame ++ writeString "LIST" ++ le32 4 ++ writeString "abcd") =
  parseWav stereoFrame.
Proof.
  destruct stereoFrame_walk as (H1 & _ & H2 & H3).
  assert (H4 : 36 + 8 + chunkSizeAt stereoFrame 36 <= len stereoFrame) by (vm_compute; discriminate).
  split; [exact H1|]. split; [exact H2|]. split; [exact H4|].
  exact (parseWav_ignores_trailing stereoFrame _ [12] 36 H1 H2 H3 H4).
Defined.

(** ** When [parseWav] succeeds *)

Lemma view_odd data o n : o mod 2 <> 0 -> Int16Array_view data o n = Throw RangeError.
Proof.
  intros H. unfold Int16Array_view.
  destruct (Z.eqb_spec (o mod 2) 0); [contradiction|reflexivity].
Qed.

Lemma len_nil_iff {A} (l : list A) : len l = 0 <-> l = [].
Proof. unfold len. destruct l; cbn; split; intros; try reflexivity; try discriminate; lia. Qed.

Lemma decodeData_succeeds data o size f :
  0 <= o -> o <= len data ->
  succeeds (decodeData data (withData o size (withFormat f scanInit))) <->
  fBits f = 16 /\ o mod 2 = 0 /\ (fChannels f <> 0 \/ slice data o (o + size) = []).
Proof.
  intros Ho Hl. unfold decodeData.
  cbn [withData withFormat sPcmOffset sBitsPerSample sChannels sPcmSize sSampleRate].
  destruct (Z.ltb_spec o 0); [lia|].
  destruct (Z.eqb_spec (fBits f) 16) as [Hb|Hb]; cbn [negb].
  2:{ split; [intros [? ?]; discriminate|intros [? _]; contradiction]. }
  cbv zeta.
  destruct (Z.eq_dec (o mod 2) 0) as [He|He].
  2:{ rewrite view_odd by assumption. rewrite bind_Throw.
      split; [intros [? ?]; discriminate|intros (_ & ? & _); contradiction]. }
  rewrite view_payload, bind_Ok by assumption.
  destruct (Z.eqb_spec (fChannels f) 1) as [Hc|Hc].
  { split; [intros _; repeat split; try assumption; left; lia|intros _; eexists; reflexivity]. }
  unfold downmix. destruct (Z.eqb_spec (fChannels f) 0) as [Hc0|Hc0].
  - destruct (Z.eqb_spec (len (slice data o (o + size))) 0) as [Hp|Hp].
    + rewrite bind_Ok. split; [|intros _; eexists; reflexivity].
      intros _. repeat split; try assumption. right. now apply len_nil_iff.
    + rewrite bind_Throw. split; [intros [? ?]; discriminate|].
      intros (_ & _ & [Hn|Hn]); [contradiction|]. apply len_nil_iff in Hn. contradiction.
  - cbv zeta. rewrite bind_Ok. split; [|intros _; eexists; reflexivity].
    intros _. repeat split; try assumption. now left.
Qed.

(** X7. [parseWav] succeeds exactly when the input has at least 44 bytes
    and the two markers, the chunk walk finds a "data" chunk with every
    "fmt " chunk before it complete, the format in effect declares 16 bits,
    the payload starts at an even offset, and the channel count is not zero
    (unless the payload is empty). *)
Theorem parseWav_succeeds_iff (data : list byte) :
  succeeds (parseWav data) <->
  44 <= len data /\ markersOk data /\
  exists vs o, dataChunkAt data vs o /\ fmtComplete data vs /\
    fBits (formatAfter data vs defaultFormat) = 16 /\
    (o + 8) mod 2 = 0 /\
    (fChannels (formatAfter data vs defaultFormat) <> 0 \/ payloadAt data o = []).
Proof.
  split.
  - intros Hok.
    destruct (Z.ltb_spec (len data) 44) as [Hs|Hs];
      [rewrite parseWav_small in Hok by assumption; destruct Hok; discriminate|].
    destruct (markersOk_dec data) as [Hm|Hm];
      [|rewrite parseWav_badHeader in Hok by assumption; destruct Hok; discriminate].
    split; [assumption|]. split; [assumption|].
    destruct (parseWav_outcome data Hs Hm)
      as [(vs & o & _ & _ & He)|[(vs & o & Hd & Hc & He)|(vs & o & _ & _ & _ & _ & _ & He)]];
      try (rewrite He in Hok; destruct Hok; discriminate).
    rewrite He in Hok. exists vs, o. split; [assumption|]. split; [assumption|].
    pose proof (dataChunkAt_nonneg _ _ _ Hd) as Ho. destruct Hd as (_ & Hlen & _).
    apply decodeData_succeeds in Hok; [|lia..]. exact Hok.
  - intros (Hs & Hm & vs & o & Hd & Hc & Hb & He & Hch).
    rewrite (parseWav_found data vs o) by assumption.
    pose proof (dataChunkAt_nonneg _ _ _ Hd) as Ho. destruct Hd as (_ & Hlen & _).
    apply decodeData_succeeds; [lia..|]. auto.
Qed.

(** X8. For a one-channel 16-bit file the samples are the little-endian
    16-bit words of the data chunk's payload as far as it is present in
    the input: a declared size that runs past the end of the input is cut
    there, and an odd last byte is dropped. *)
Theorem parseWav_mono_payload (data : list byte) (vs : list Z) (o : Z) :
  44 <= len data -> markersOk data ->
  dataChunkAt data vs o -> fmtComplete data vs ->
  fChannels (formatAfter data vs defaultFormat) = 1 ->
  fBits (formatAfter data vs defaultFormat) = 16 ->
  (o + 8) mod 2 = 0 ->
  parseWav data =
    Ok {| sampleRate := fSampleRate (formatAfter data vs defaultFormat);
          channels := 1; bitsPerSample := 16;
          samples := int16sOf (payloadAt data o) |}
  /\ len (int16sOf (payloadAt data o)) =
       Z.min (chunkSizeAt data o) (len data - (o + 8)) / 2.
Proof.
  intros Hs Hm Hd Hc Hch Hb He.
  pose proof (dataChunkAt_nonneg _ _ _ Hd) as Ho.
  pose proof (chunkSizeAt_nonneg data o) as Hsz.
  rewrite (parseWav_found data vs o) by assumption.
  destruct Hd as (_ & Hlen & _).
  rewrite decodeData_mono by (try assumption; lia).
  split; [reflexivity|].
  unfold payloadAt, len at 1. rewrite int16sOf_length, slice_length_le by lia.
  replace (o + 8 + chunkSizeAt data o - (o + 8)) with (chunkSizeAt data o) by lia.
  rewrite Nat2Z.inj_div. rewrite Z2Nat.id by lia. reflexivity.
Qed.

Lemma parseWav_mono_payload_witness :
  44 <= len headerlessData /\ markersOk headerlessData /\
  dataChunkAt headerlessData [12] 36 /\
  len (int16sOf (payloadAt headerlessData 36)) =
    Z.min (chunkSizeAt headerlessData 36) (len headerlessData - (36 + 8)) / 2.
Proof.
  destruct headerlessData_walk as (H1 & H2 & H3 & H4).
  split; [exact H1|]. split; [exact H2|]. split; [exact H3|].
  assert (Hc : fmtComplete headerlessData [12]).
  { constructor; [|constructor]. intros Hf. exfalso.
    apply Forall_cons in H4 as [H4 _]. exact (H4 Hf). }
  destruct (parseWav_mono_payload headerlessData [12] 36 H1 H2 H3 Hc eq_refl eq_refl eq_refl)
    as [_ Hn]. exact Hn.
Defined.

(** ** A chunk the parser does not know *)

Lemma slice_shift (a b c : list byte) (s e : Z) :
  len a <= s ->
  slice (a ++ b ++ c) (s + len b) (e + len b) = slice (a ++ c) s e.
Proof.
  intros Hs. pose proof (len_nonneg a) as Ha. unfold slice, len in *.
  replace (e + Z.of_nat (length b) - (s + Z.of_nat (length b))) with (e - s) by lia.
  f_equal. rewrite !drop_app_ge by lia. f_equal. lia.
Qed.

Section Inserted.
Variables (head chunk rest : list byte).
Hypothesis Hhead : len head = 12.

Lemma inserted_chunkIdAt o :
  12 <= o -> chunkIdAt (head ++ chunk ++ rest) (o + len chunk) = chunkIdAt (head ++ rest) o.
Proof using Hhead.
  intros Ho. unfold chunkIdAt, toStringAscii.
  replace (o + len chunk + 4) with (o + 4 + len chunk) by lia.
  now rewrite slice_shift by lia.
Qed.

Lemma inserted_u32At o :
  12 <= o -> u32At (head ++ chunk ++ rest) (o + len chunk) = u32At (head ++ rest) o.
Proof using Hhead.
  intros Ho. pose proof (len_nonneg chunk). unfold u32At, readUInt32LE.
  destruct (Z.ltb_spec (o + len chunk) 0); [lia|]. destruct (Z.ltb_spec o 0); [lia|].
  replace (o + len chunk + 4) with (o + 4 + len chunk) by lia.
  now rewrite slice_shift by lia.
Qed.

Lemma inserted_u16At o :
  12 <= o -> u16At (head ++ chunk ++ rest) (o + len chunk) = u16At (head ++ rest) o.
Proof using Hhead.
  intros Ho. pose proof (len_nonneg chunk). unfold u16At, readUInt16LE.
  destruct (Z.ltb_spec (o + len chunk) 0); [lia|]. destruct (Z.ltb_spec o 0); [lia|].
  replace (o + len chunk + 2) with (o + 2 + len chunk) by lia.
  now rewrite slice_shift by lia.
Qed.

Lemma inserted_chunkSizeAt o :
  12 <= o -> chunkSizeAt (head ++ chunk ++ rest) (o + len chunk) = chunkSizeAt (head ++ rest) o.
Proof using Hhead.
  intros Ho. unfold chunkSizeAt.
  replace (o + len chunk + 4) with (o + 4 + len chunk) by lia.
  apply inserted_u32At. lia.
Qed.

Lemma inserted_len : len (head ++ chunk ++ rest) = len (head ++ rest) + len chunk.
Proof. rewrite !len_app. lia. Qed.

Lemma inserted_walk o vs o' :
  skips (head ++ rest) o vs o' -> 12 <= o -> fmtComplete (head ++ rest) vs ->
  skips (head ++ chunk ++ rest) (o + len chunk) (map (fun v => v + len chunk) vs) (o' + len chunk) /\
  fmtComplete (head ++ chunk ++ rest) (map (fun v => v + len chunk) vs) /\
  forall f, formatAfter (head ++ chunk ++ rest) (map (fun v => v + len chunk) vs) f =
            formatAfter (head ++ rest) vs f.
Proof using Hhead.
  induction 1 as [|o vs o' H1 H2 H3 IH]; intros Ho Hc.
  - split; [constructor|]. split; [constructor|reflexivity].
  - pose proof (chunkSizeAt_nonneg (head ++ rest) o) as Hsz.
    apply Forall_cons in Hc as [Hc1 Hc].
    destruct IH as (IH1 & IH2 & IH3); [lia|assumption|].
    cbn [map]. split; [|split].
    + constructor.
      * rewrite inserted_len. lia.
      * now rewrite inserted_chunkIdAt by lia.
      * rewrite inserted_chunkSizeAt by lia.
        replace (o + len chunk + 8 + chunkSizeAt (head ++ rest) o)
          with (o + 8 + chunkSizeAt (head ++ rest) o + len chunk) by lia.
        exact IH1.
    + constructor; [|assumption].
      rewrite inserted_chunkIdAt, inserted_len by lia. intros Hf. specialize (Hc1 Hf). lia.
    + intros f. unfold formatAfter in *. cbn [fold_left].
      rewrite inserted_chunkIdAt, IH3 by lia.
      destruct (String.eqb (chunkIdAt (head ++ rest) o) "fmt "); [|reflexivity].
      unfold fmtFieldsAt.
      replace (o + len chunk + 8 + 2) with (o + 8 + 2 + len chunk) by lia.
      replace (o + len chunk + 8 + 4) with (o + 8 + 4 + len chunk) by lia.
      replace (o + len chunk + 8 + 14) with (o + 8 + 14 + len chunk) by lia.
      now rewrite !inserted_u16At, inserted_u32At by lia.
Qed.

Lemma inserted_decodeData o size st :
  12 <= o -> len chunk mod 2 = 0 ->
  decodeData (head ++ chunk ++ rest) (withData (o + len chunk) size st) =
  decodeData (head ++ rest) (withData o size st).
Proof using Hhead.
  intros Ho Hev. pose proof (len_nonneg chunk) as Hk. unfold decodeData.
  cbn [withData sPcmOffset sBitsPerSample sChannels sPcmSize sSampleRate].
  destruct (Z.ltb_spec (o + len chunk) 0); [lia|]. destruct (Z.ltb_spec o 0); [lia|].
  destruct (negb _); [reflexivity|]. cbv zeta.
  replace (o + len chunk + size) with (o + size + len chunk) by lia.
  rewrite slice_shift by lia.
  set (pcm := slice (head ++ rest) o (o + size)).
  assert (Hv : Int16Array_view (head ++ chunk ++ rest) (o + len chunk) (len pcm / 2) =
               Int16Array_view (head ++ rest) o (len pcm / 2)).
  { unfold Int16Array_view.
    replace ((o + len chunk) mod 2) with (o mod 2)
      by (rewrite Z.add_mod, Hev, Z.add_0_r, Z.mod_mod by lia; reflexivity).
    destruct (negb _); [reflexivity|]. rewrite inserted_len.
    destruct (Z.ltb_spec (len (head ++ rest) + len chunk) (o + len chunk + 2 * (len pcm / 2)));
      destruct (Z.ltb_spec (len (head ++ rest)) (o + 2 * (len pcm / 2))); try lia; [reflexivity|].
    replace (o + len chunk + 2 * (len pcm / 2)) with (o + 2 * (len pcm / 2) + len chunk) by lia.
    now rewrite slice_shift by lia. }
  now rewrite Hv.
Qed.
End Inserted.

Lemma slice_middle (a b c : list byte) :
  slice (a ++ b ++ c) (len a) (len a + len b) = b.
Proof.
  unfold slice, len. replace (Z.of_nat (length a) + Z.of_nat (length b) - Z.of_nat (length a))
    with (Z.of_nat (length b)) by lia.
  rewrite !Nat2Z.id, drop_app_length. apply take_app_length.
Qed.

(** X9. A chunk that is neither "fmt " nor "data", of even length and
    placed right after the 12-byte RIFF header, is skipped: the parser
    returns what it returns for the input without that chunk. *)
Theorem parseWav_skips_unknown_chunk (head id payload rest : list byte) :
  len head = 12 -> len id = 4 ->
  toStringAscii id 0 4 <> "data"%string -> toStringAscii id 0 4 <> "fmt "%string ->
  len payload mod 2 = 0 -> len payload <= 4294967295 ->
  44 <= len (head ++ rest) ->
  parseWav (head ++ (id ++ le32 (len payload) ++ payload) ++ rest) = parseWav (head ++ rest).
Proof.
  intros Hhead Hid Hnd Hnf Hev Hsz Hlen.
  set (chunk := id ++ le32 (len payload) ++ payload).
  set (data := head ++ rest) in *. set (data' := head ++ chunk ++ rest).
  pose proof (len_nonneg payload) as Hp0.
  assert (Hk : len chunk = 8 + len payload).
  { unfold chunk. rewrite !len_app, Hid. unfold le32, len at 1. cbn [length]. lia. }
  assert (Hk2 : len chunk mod 2 = 0).
  { rewrite Hk, Z.add_mod, Hev by lia. reflexivity. }
  assert (Hlen' : len data' = len data + len chunk) by apply inserted_len.
  assert (Hid' : chunkIdAt data' 12 = toStringAscii id 0 4).
  { unfold chunkIdAt, toStringAscii, data', chunk. f_equal. f_equal.
    rewrite <- !app_assoc. rewrite <- Hhead.
    replace (len head + 4) with (len head + len id) by lia.
    rewrite slice_middle. unfold slice. rewrite drop_0. symmetry. apply take_ge.
    unfold len in Hid. lia. }
  assert (Hsize' : chunkSizeAt data' 12 = len payload).
  { unfold chunkSizeAt, u32At, readUInt32LE. change (12 + 4 <? 0) with false. cbv iota.
    assert (slice data' (12 + 4) (12 + 4 + 4) = le32 (len payload)) as ->.
    { unfold data', chunk. rewrite <- !app_assoc. rewrite (app_assoc head id).
      replace (12 + 4) with (len (head ++ id)) by (rewrite len_app; lia).
      change (len (head ++ id) + 4)
        with (len (head ++ id) + len (le32 (len payload))).
      apply slice_middle. }
    unfold le32. apply u32_bytes. lia. }
  assert (Hm : markersOk data' <-> markersOk data).
  { unfold markersOk, toStringAscii, data', data.
    rewrite !(slice_app_prefix head) by lia. reflexivity. }
  destruct (markersOk_dec data) as [Hmk|Hmk].
  2:{ rewrite (parseWav_badHeader data) by assumption.
      apply parseWav_badHeader; [lia|]. now rewrite Hm. }
  assert (Hmk' : markersOk data') by now apply Hm.
  assert (Hfirst : forall vs o, skips data 12 vs o -> fmtComplete data vs ->
            skips data' 12 (12 :: map (fun v => v + len chunk) vs) (o + len chunk) /\
            fmtComplete data' (12 :: map (fun v => v + len chunk) vs) /\
            formatAfter data' (12 :: map (fun v => v + len chunk) vs) defaultFormat =
              formatAfter data vs defaultFormat).
  { intros vs o Hsk Hc.
    destruct (inserted_walk head chunk rest Hhead 12 vs o Hsk ltac:(lia) Hc) as (H1 & H2 & H3).
    split; [|split].
    - constructor; [lia|now rewrite Hid'|].
      rewrite Hsize'. replace (12 + 8 + len payload) with (12 + len chunk) by lia. exact H1.
    - constructor; [|exact H2]. rewrite Hid'. intros Hf. contradiction.
    - unfold formatAfter at 1. cbn [fold_left]. rewrite Hid'.
      destruct (String.eqb_spec (toStringAscii id 0 4) "fmt "); [contradiction|].
      apply H3. }
  destruct (parseWav_outcome data Hlen Hmk)
    as [(vs & o & [Hsk Hend] & Hc & He)
       |[(vs & o & (Hsk & Ho & Hdata) & Hc & He)
        |(vs & o & Hsk & Hc & Ho & Hf & Ht & He)]];
    rewrite He; destruct (Hfirst vs o Hsk Hc) as (H1 & H2 & H3);
    pose proof (skips_le _ _ _ _ Hsk) as Hle.
  - apply (parseWav_noData data' (12 :: map (fun v => v + len chunk) vs) (o + len chunk));
      try assumption; [lia|].
    split; [exact H1|lia].
  - rewrite (parseWav_found data' (12 :: map (fun v => v + len chunk) vs) (o + len chunk));
      try assumption; try lia.
    + rewrite H3. unfold data'. rewrite inserted_chunkSizeAt by (assumption || lia).
      replace (o + len chunk + 8) with (o + 8 + len chunk) by lia.
      apply inserted_decodeData; [assumption|lia|assumption].
    + split; [exact H1|]. split; [lia|].
      unfold data'. rewrite inserted_chunkIdAt by (assumption || lia). exact Hdata.
  - apply (parseWav_truncated data' (12 :: map (fun v => v + len chunk) vs) (o + len chunk));
      try assumption; try lia.
    unfold data'. rewrite inserted_chunkIdAt by (assumption || lia). exact Hf.
Qed.

Lemma parseWav_skips_unknown_chunk_witness :
  parseWav (riffWave ++ (writeString "LIST" ++ le32 2 ++ [x41; x42]) ++ drop 12 toneFile) =
  parseWav (riffWave ++ drop 12 toneFile).
Proof.
  apply (parseWav_skips_unknown_chunk riffWave (writeString "LIST") [x41; x42] (drop 12 toneFile)).
  - reflexivity.
  - reflexivity.
  - discriminate.
  - discriminate.
  - reflexivity.
  - vm_compute. discriminate.
  - vm_compute. discriminate.
Defined.

(** ** Header fields the parser does not read *)

Section LooseHeader.
Variables (riffSize tag byteRate blockAlign sr c : Z) (pcm : list byte).
Hypothesis Hc : 0 <= c <= 65535.
Hypothesis Hsr : 0 <= sr <= 4294967295.
Hypothesis Hn : len pcm <= 4294967295.

Lemma looseFile_len :
  len (wavHeaderWith riffSize tag byteRate blockAlign sr c (len pcm) ++ pcm) = 44 + len pcm.
Proof. rewrite len_app. reflexivity. Qed.

Lemma looseFile_fmt_fields :
  fmtFieldsAt (wavHeaderWith riffSize tag byteRate blockAlign sr c (len pcm) ++ pcm) 12 =
    {| fChannels := c; fSampleRate := sr; fBits := 16 |}.
Proof using Hc Hsr.
  unfold fmtFieldsAt. f_equal.
  - unfold u16At, readUInt16LE. change (12 + 8 + 2 <? 0) with false. cbv iota.
    change (slice _ (12 + 8 + 2) (12 + 8 + 2 + 2)) with (le16 c).
    unfold le16. apply u16_bytes. lia.
  - unfold u32At, readUInt32LE. change (12 + 8 + 4 <? 0) with false. cbv iota.
    change (slice _ (12 + 8 + 4) (12 + 8 + 4 + 4)) with (le32 sr).
    unfold le32. apply u32_bytes. lia.
Qed.

Lemma looseFile_data_size :
  chunkSizeAt (wavHeaderWith riffSize tag byteRate blockAlign sr c (len pcm) ++ pcm) 36 = len pcm.
Proof using Hn.
  pose proof (len_nonneg pcm).
  unfold chunkSizeAt, u32At, readUInt32LE. change (36 + 4 <? 0) with false. cbv iota.
  change (slice _ (36 + 4) (36 + 4 + 4)) with (le32 (len pcm)).
  unfold le32. apply u32_bytes. lia.
Qed.

Lemma looseFile_payload :
  slice (wavHeaderWith riffSize tag byteRate blockAlign sr c (len pcm) ++ pcm) 44 (44 + len pcm) = pcm.
Proof.
  unfold slice. replace (44 + len pcm - 44) with (len pcm) by lia.
  change (drop (Z.to_nat 44) _) with pcm.
  apply take_ge. unfold len. lia.
Qed.

Lemma parseWav_looseFile_decode :
  parseWav (wavHeaderWith riffSize tag byteRate blockAlign sr c (len pcm) ++ pcm) =
    decodeData (wavHeaderWith riffSize tag byteRate blockAlign sr c (len pcm) ++ pcm)
      (withData 44 (len pcm)
         (withFormat {| fChannels := c; fSampleRate := sr; fBits := 16 |} scanInit)).
Proof using Hc Hsr Hn.
  pose proof looseFile_len as Hl. pose proof (len_nonneg pcm) as Hp.
  set (W := wavHeaderWith riffSize tag byteRate blockAlign sr c (len pcm) ++ pcm) in *.
  assert (Hm : markersOk W) by (split; reflexivity).
  assert (Hfmt : chunkIdAt W 12 = "fmt "%string) by reflexivity.
  assert (Hfsz : chunkSizeAt W 12 = 16) by reflexivity.
  assert (Hdid : chunkIdAt W 36 = "data"%string) by reflexivity.
  assert (Hw : dataChunkAt W [12] 36).
  { split; [|split; [lia|exact Hdid]].
    constructor; [lia|rewrite Hfmt; discriminate|]. rewrite Hfsz. constructor. }
  assert (Hcomp : fmtComplete W [12]) by (constructor; [intros _; lia|constructor]).
  rewrite (parseWav_found W [12] 36) by (assumption || lia).
  unfold formatAfter. cbn [fold_left]. rewrite Hfmt. cbn [String.eqb Ascii.eqb Bool.eqb].
  unfold W. rewrite looseFile_fmt_fields, looseFile_data_size. reflexivity.
Qed.
End LooseHeader.

(** X10. The parser reads neither the RIFF size, nor the format tag, nor
    the byte rate, nor the block align: whatever these four fields of a
    44-byte header hold, the file parses as 16-bit PCM with the channel
    count and the rate of the header. *)
Theorem parseWav_unread_fields (riffSize tag byteRate blockAlign sr : Z) (c : nat)
    (pcm : list byte) :
  (1 <= c)%nat -> Z.of_nat c <= 65535 -> 0 <= sr <= 4294967295 ->
  len pcm <= 4294967295 ->
  parseWav (wavHeaderWith riffSize tag byteRate blockAlign sr (Z.of_nat c) (len pcm) ++ pcm) =
    Ok {| sampleRate := sr; channels := 1; bitsPerSample := 16;
          samples := downmix_spec c (int16sOf pcm) |}.
Proof.
  intros Hc1 Hc2 Hsr Hn.
  rewrite parseWav_looseFile_decode by (assumption || lia).
  pose proof (looseFile_len riffSize tag byteRate blockAlign sr (Z.of_nat c) pcm) as Hl.
  pose proof (len_nonneg pcm) as Hp.
  destruct (decide (c = 1)%nat) as [->|Hne].
  - rewrite decodeData_mono by (try reflexivity; lia). cbn [fSampleRate].
    rewrite looseFile_payload.
    rewrite downmix_spec_one by apply int16sOf_int16. reflexivity.
  - rewrite (decodeData_downmix _ _ _ _ c) by (try reflexivity; lia). cbn [fSampleRate].
    rewrite looseFile_payload. reflexivity.
Qed.

Lemma parseWav_unread_fields_witness :
  parseWav (wavHeaderWith 0 3 7 9 8000 1 4 ++ [x01; x00; xff; x7f]) =
    Ok {| sampleRate := 8000; channels := 1; bitsPerSample := 16; samples := [1; 32767] |}.
Proof.
  exact (parseWav_unread_fields 0 3 7 9 8000 1 [x01; x00; xff; x7f]
           ltac:(lia) ltac:(lia) ltac:(lia) ltac:(vm_compute; discriminate)).
Defined.

(** ** The resampler, position by position *)

Lemma Qfloor_eq (x : Q) (z : Z) :
  (inject_Z z <= x)%Q -> (x < inject_Z z + 1)%Q -> Qfloor x = z.
Proof.
  intros H1 H2.
  pose proof (Qfloor_le x) as H3. pose proof (Qlt_floor x) as H4.
  rewrite inject_Z_plus in H4. change (inject_Z 1) with 1%Q in H4.
  assert (inject_Z (Qfloor x) < inject_Z (z + 1))%Q as H5
    by (rewrite inject_Z_plus; change (inject_Z 1) with 1%Q; lra).
  assert (inject_Z z < inject_Z (Qfloor x + 1))%Q as H6
    by (rewrite inject_Z_plus; change (inject_Z 1) with 1%Q; lra).
  rewrite <- Zlt_Qlt in H5, H6. lia.
Qed.

Lemma Math_round_comp (x y : Q) : (x == y)%Q -> Math_round x = Math_round y.
Proof. intros H. unfold Math_round. apply Qfloor_comp. now rewrite H. Qed.

(** The interpolation at an output index whose source position is
    [left + alpha]. *)
Lemma interpolate_at (samples : list Z) (ratio : Q) (index left : Z) (alpha : Q) (l r : Z) :
  (inject_Z index / ratio == inject_Z left + alpha)%Q ->
  (0 <= alpha)%Q -> (alpha < 1)%Q ->
  get samples left = Some l ->
  get samples (Z.min (left + 1) (len samples - 1)) = Some r ->
  interpolate samples ratio index =
    Some (Math_round (inject_Z l * (1 - alpha) + inject_Z r * alpha)%Q).
Proof.
  intros Hpos Ha0 Ha1 Hl Hr. unfold interpolate. cbv zeta. unfold Math_floor.
  assert (Hf : Qfloor (inject_Z index / ratio) = left).
  { apply Qfloor_eq; rewrite Hpos; lra. }
  rewrite Hf, Hl, Hr. f_equal. apply Math_round_comp. rewrite Hpos. ring.
Qed.

Lemma interpolate_between (samples : list Z) (ratio : Q) (lo hi index : Z) :
  samples <> [] -> (0 < ratio)%Q ->
  Forall (fun x => lo <= x <= hi) samples ->
  0 <= index < Z.max 1 (Math_round (inject_Z (len samples) * ratio)%Q) ->
  exists v, interpolate samples ratio index = Some v /\ lo <= v <= hi.
Proof.
  intros Hne Hratio Hin Hidx.
  destruct (sourcePosition_bounds samples ratio Hne Hratio index Hidx) as [Hp0 Hp1].
  set (pos := (inject_Z index / ratio)%Q) in *.
  pose proof (Qfloor_le pos) as Hf1. pose proof (Qlt_floor pos) as Hf2.
  set (left := Qfloor pos) in *.
  assert (0 <= left) as Hl0.
  { unfold left. rewrite <- (Qfloor_Z 0). now apply Qfloor_resp_le. }
  assert (left < len samples) as Hl1.
  { rewrite Zlt_Qlt. lra. }
  destruct (get_Some samples left ltac:(lia)) as (l & Hgl & Hl).
  destruct (get_Some samples (Z.min (left + 1) (len samples - 1)) ltac:(lia)) as (r & Hgr & Hr).
  rewrite inject_Z_plus in Hf2. change (inject_Z 1) with 1%Q in Hf2.
  set (alpha := (pos - inject_Z left)%Q).
  assert (0 <= alpha)%Q as Ha0 by (unfold alpha; lra).
  assert (alpha < 1)%Q as Ha1 by (unfold alpha; lra).
  rewrite (interpolate_at samples ratio index left alpha l r); try assumption.
  2:{ fold pos. unfold alpha. ring. }
  eexists; split; [reflexivity|].
  rewrite Forall_lookup in Hin.
  pose proof (Hin _ _ Hl) as [Hla Hlb]. pose proof (Hin _ _ Hr) as [Hra Hrb].
  rewrite Zle_Qle in Hla, Hlb, Hra, Hrb.
  split.
  - apply Math_round_ge. nra.
  - apply Math_round_le. nra.
Qed.

Lemma resample_general_lookup (samples : list Z) (sr tr : Z) (out : list Z) :
  sr <> tr -> sr <> 0 -> tr <> 0 ->
  resampleLinear samples sr tr = Ok out ->
  let ratio := (inject_Z tr / inject_Z sr)%Q in
  let targetLength := Z.max 1 (Math_round (inject_Z (len samples) * ratio)%Q) in
  len out = targetLength /\
  forall index, 0 <= index < targetLength ->
    get out index = Some (storeValue ToInt16 (interpolate samples ratio index)).
Proof.
  intros H1 H2 H3. rewrite resampleLinear_general by assumption. cbv zeta.
  intros Ho. apply Ok_inj in Ho. subst out. split.
  - unfold len at 1. rewrite resample_loop_length. lia.
  - intros index Hidx. rewrite get_lookup by lia.
    rewrite resample_loop_lookup by lia. rewrite decide_True by lia.
    now rewrite Z2Nat.id by lia.
Qed.

(** X11. Linear interpolation never overshoots: if every input sample lies
    between [lo] and [hi], so does every output sample.  In particular a
    constant buffer is resampled to a constant buffer of the same value. *)
Theorem resample_within_bounds (samples : list Z) (sr tr lo hi : Z) (out : list Z) :
  samples <> [] -> Forall int16 samples -> 0 < sr -> 0 < tr ->
  Forall (fun x => lo <= x <= hi) samples ->
  resampleLinear samples sr tr = Ok out ->
  Forall (fun x => lo <= x <= hi) out.
Proof.
  intros Hne Hin Hsr Htr Hb Ho.
  destruct (Z.eq_dec sr tr) as [->|Hd].
  { rewrite resampleLinear_same in Ho. apply Ok_inj in Ho. now subst out. }
  destruct (resample_general_lookup samples sr tr out Hd ltac:(lia) ltac:(lia) Ho) as [Hlen Hk].
  apply Forall_lookup. intros k x Hx.
  assert (Hkk : 0 <= Z.of_nat k < len out).
  { apply lookup_lt_Some in Hx. unfold len. lia. }
  rewrite Hlen in Hkk. specialize (Hk _ Hkk). rewrite get_nat, Hx in Hk.
  destruct (interpolate_between samples _ lo hi _ Hne (ratio_pos sr tr Hsr Htr) Hb Hkk)
    as (v & Hv & Hvb).
  destruct (interpolate_in_range samples _ Hne Hin (ratio_pos sr tr Hsr Htr) _ Hkk)
    as (v' & Hv' & Hv16).
  rewrite Hv in Hv'. injection Hv' as <-.
  rewrite Hv in Hk. cbn [storeValue] in Hk. rewrite ToInt16_id in Hk by assumption.
  injection Hk as ->. assumption.
Qed.

Lemma resample_within_bounds_witness :
  resampleLinear [7; 7; 9] 3 8 = Ok [7; 7; 7; 7; 8; 9; 9; 9] /\
  Forall (fun x => 7 <= x <= 9) [7; 7; 7; 7; 8; 9; 9; 9].
Proof.
  assert (H : resampleLinear [7; 7; 9] 3 8 = Ok [7; 7; 7; 7; 8; 9; 9; 9])
    by (vm_compute; reflexivity).
  split; [exact H|].
  apply (resample_within_bounds [7; 7; 9] 3 8 7 9 _); try exact H; try lia.
  - discriminate.
  - repeat constructor; unfold int16; lia.
  - repeat constructor; lia.
Defined.

Lemma inject_Z_nonzero (z : Z) : z <> 0 -> ~ (inject_Z z == 0)%Q.
Proof. intros Hz H. apply (inject_Z_injective z 0) in H. contradiction. Qed.

Lemma inject_Z_pos (z : Z) : 0 < z -> (0 < inject_Z z)%Q.
Proof. intros H. change 0%Q with (inject_Z 0). now rewrite <- Zlt_Qlt. Qed.

Lemma inject_Z_nonneg (z : Z) : 0 <= z -> (0 <= inject_Z z)%Q.
Proof. intros H. change 0%Q with (inject_Z 0). now rewrite <- Zle_Qle. Qed.

Lemma Math_round_ratio_bounds (n sr tr : Z) :
  0 < sr ->
  let R := Math_round (inject_Z n * (inject_Z tr / inject_Z sr))%Q in
  2 * sr * R <= 2 * n * tr + sr /\ 2 * n * tr - sr < 2 * sr * R.
Proof.
  intros Hsr R.
  pose proof (Math_round_below (inject_Z n * (inject_Z tr / inject_Z sr))) as Hb.
  pose proof (Qlt_floor (inject_Z n * (inject_Z tr / inject_Z sr) + (1 # 2))) as Ha.
  fold (Math_round (inject_Z n * (inject_Z tr / inject_Z sr))) in Ha. fold R in Ha, Hb.
  rewrite inject_Z_plus in Ha. change (inject_Z 1) with 1%Q in Ha.
  set (q := (inject_Z tr / inject_Z sr)%Q) in *.
  assert (Hq : (q * inject_Z sr == inject_Z tr)%Q).
  { unfold q. field. apply inject_Z_nonzero. lia. }
  pose proof (inject_Z_pos sr Hsr) as Hs.
  split.
  - rewrite Zle_Qle. rewrite inject_Z_plus, !inject_Z_mult.
    change (inject_Z 2) with 2%Q.
    assert (inject_Z sr * inject_Z R <= inject_Z sr * (inject_Z n * q + (1 # 2)))%Q
      by (apply Qmult_le_l; assumption).
    assert (inject_Z sr * (inject_Z n * q + (1 # 2))
            == inject_Z n * inject_Z tr + inject_Z sr * (1 # 2))%Q as He
      by (rewrite <- Hq; ring).
    rewrite He in H. lra.
  - rewrite Zlt_Qlt. unfold Z.sub. rewrite inject_Z_plus, inject_Z_opp, !inject_Z_mult.
    change (inject_Z 2) with 2%Q.
    assert (inject_Z sr * (inject_Z n * q + (1 # 2)) < inject_Z sr * (inject_Z R + 1))%Q
      by (apply Qmult_lt_l; assumption).
    assert (inject_Z sr * (inject_Z n * q + (1 # 2))
            == inject_Z n * inject_Z tr + inject_Z sr * (1 # 2))%Q as He
      by (rewrite <- Hq; ring).
    rewrite He in H. lra.
Qed.

(** Integer up-sampling: the output sample [j] steps after the input
    sample [i]. *)
Lemma upsample_lookup (samples : list Z) (sr k : Z) (out : list Z) (i j : Z) :
  samples <> [] -> Forall int16 samples -> 0 < sr -> 2 <= k ->
  resampleLinear samples sr (k * sr) = Ok out ->
  0 <= i < len samples -> 0 <= j < k ->
  len out = k * len samples /\
  exists l r, get samples i = Some l /\
    get samples (Z.min (i + 1) (len samples - 1)) = Some r /\
    get out (k * i + j) =
      Some (Math_round (inject_Z (l * (k - j) + r * j) / inject_Z k)).
Proof.
  intros Hne Hin Hsr Hk Ho Hi Hj.
  pose proof (len_nonempty samples Hne) as Hn.
  assert (Htr : 0 < k * sr) by nia.
  assert (Hd : sr <> k * sr) by nia.
  destruct (resample_general_lookup samples sr (k * sr) out Hd ltac:(lia) ltac:(lia) Ho)
    as [Hlen Hget].
  cbv zeta in Hlen, Hget.
  pose proof (inject_Z_nonzero sr ltac:(lia)) as Hsr0.
  pose proof (inject_Z_nonzero k ltac:(lia)) as Hk0.
  assert (HT : Z.max 1 (Math_round (inject_Z (len samples) * (inject_Z (k * sr) / inject_Z sr)))
               = k * len samples).
  { assert (Hq : (inject_Z (len samples) * (inject_Z (k * sr) / inject_Z sr)
                  == inject_Z (k * len samples))%Q).
    { rewrite !inject_Z_mult. field. assumption. }
    rewrite (Math_round_comp _ _ Hq), Math_round_Z. nia. }
  rewrite HT in Hlen, Hget. split; [assumption|].
  destruct (get_Some samples i Hi) as (l & Hgl & _).
  destruct (get_Some samples (Z.min (i + 1) (len samples - 1)) ltac:(lia)) as (r & Hgr & _).
  exists l, r. split; [assumption|]. split; [assumption|].
  assert (Hidx : 0 <= k * i + j < k * len samples) by nia.
  rewrite (Hget _ Hidx).
  pose proof (inject_Z_pos k ltac:(lia)) as Hkpos.
  pose proof (inject_Z_nonneg j ltac:(lia)) as Hj0.
  assert (Hj1 : (inject_Z j < inject_Z k)%Q) by (rewrite <- Zlt_Qlt; lia).
  rewrite (interpolate_at samples _ (k * i + j) i (inject_Z j / inject_Z k) l r);
    try assumption.
  - cbn [storeValue].
    assert (Hq : (inject_Z l * (1 - inject_Z j / inject_Z k) + inject_Z r * (inject_Z j / inject_Z k)
                  == inject_Z (l * (k - j) + r * j) / inject_Z k)%Q).
    { rewrite inject_Z_plus, !inject_Z_mult. unfold Z.sub.
      rewrite inject_Z_plus, inject_Z_opp. field. assumption. }
    rewrite (Math_round_comp _ _ Hq).
    rewrite ToInt16_id; [reflexivity|].
    rewrite <- HT in Hidx.
    destruct (interpolate_in_range samples _ Hne Hin (ratio_pos sr (k * sr) Hsr Htr) _ Hidx)
      as (v & Hv & Hv16).
    rewrite (interpolate_at samples _ (k * i + j) i (inject_Z j / inject_Z k) l r) in Hv;
      try assumption.
    + injection Hv as <-. now rewrite <- (Math_round_comp _ _ Hq).
    + rewrite inject_Z_plus, !inject_Z_mult. field. split; assumption.
    + apply Qle_shift_div_l; [assumption|]. lra.
    + apply Qlt_shift_div_r; [assumption|]. lra.
  - rewrite inject_Z_plus, !inject_Z_mult. field. split; assumption.
  - apply Qle_shift_div_l; [assumption|]. lra.
  - apply Qlt_shift_div_r; [assumption|]. lra.
Qed.

(** X12. Resampling to [k] times the rate, for an integer [k >= 1], gives
    [k] output samples per input sample: every input sample reappears
    unchanged at [k] times its index, and each of the samples that follow
    it, up to the next input sample, lies between it and its right
    neighbour (the last sample being its own right neighbour). *)
Theorem resample_integer_upsampling (samples : list Z) (sr k : Z) (out : list Z) :
  samples <> [] -> Forall int16 samples -> 0 < sr -> 1 <= k ->
  resampleLinear samples sr (k * sr) = Ok out ->
  len out = k * len samples
  /\ (forall i, 0 <= i < len samples -> get out (k * i) = get samples i)
  /\ (forall i j, 0 <= i < len samples -> 0 <= j < k ->
        exists l r v, get samples i = Some l /\
          get samples (Z.min (i + 1) (len samples - 1)) = Some r /\
          get out (k * i + j) = Some v /\ Z.min l r <= v <= Z.max l r).
Proof.
  intros Hne Hin Hsr Hk Ho.
  pose proof (len_nonempty samples Hne) as Hn.
  destruct (Z.eq_dec k 1) as [->|Hk1].
  - rewrite Z.mul_1_l, resampleLinear_same in Ho. apply Ok_inj in Ho. subst out.
    split; [lia|]. split.
    + intros i Hi. now rewrite Z.mul_1_l.
    + intros i j Hi Hj. assert (j = 0) as -> by lia.
      destruct (get_Some samples i Hi) as (l & Hgl & _).
      destruct (get_Some samples (Z.min (i + 1) (len samples - 1)) ltac:(lia)) as (r & Hgr & _).
      exists l, r, l. split; [assumption|]. split; [assumption|].
      rewrite Z.mul_1_l, Z.add_0_r. split; [assumption|lia].
  - split; [|split].
    + destruct (upsample_lookup samples sr k out 0 0 Hne Hin Hsr ltac:(lia) Ho ltac:(lia) ltac:(lia))
        as [Hl _]. exact Hl.
    + intros i Hi.
      destruct (upsample_lookup samples sr k out i 0 Hne Hin Hsr ltac:(lia) Ho Hi ltac:(lia))
        as (_ & l & r & Hgl & _ & Hgo).
      rewrite Z.add_0_r in Hgo. rewrite Hgo, Hgl. f_equal.
      rewrite Z.sub_0_r, Z.mul_0_r, Z.add_0_r.
      assert (Hq : (inject_Z (l * k) / inject_Z k == inject_Z l)%Q).
      { rewrite inject_Z_mult. field. apply inject_Z_nonzero. lia. }
      now rewrite (Math_round_comp _ _ Hq), Math_round_Z.
    + intros i j Hi Hj.
      destruct (upsample_lookup samples sr k out i j Hne Hin Hsr ltac:(lia) Ho Hi Hj)
        as (_ & l & r & Hgl & Hgr & Hgo).
      exists l, r, (Math_round (inject_Z (l * (k - j) + r * j) / inject_Z k)).
      split; [assumption|]. split; [assumption|]. split; [assumption|].
      pose proof (inject_Z_pos k ltac:(lia)) as Hkpos.
      split.
      * apply Math_round_ge. apply Qle_shift_div_l; [assumption|].
        rewrite <- inject_Z_mult, <- Zle_Qle. nia.
      * apply Math_round_le. apply Qle_shift_div_r; [assumption|].
        rewrite <- inject_Z_mult, <- Zle_Qle. nia.
Qed.

Lemma resample_integer_upsampling_witness :
  resampleLinear [0; 90; -30] 4 12 = Ok [0; 30; 60; 90; 50; 10; -30; -30; -30] /\
  get [0; 30; 60; 90; 50; 10; -30; -30; -30] (3 * 1) = get [0; 90; -30] 1.
Proof.
  assert (H : resampleLinear [0; 90; -30] 4 (3 * 4) = Ok [0; 30; 60; 90; 50; 10; -30; -30; -30])
    by (vm_compute; reflexivity).
  split; [exact H|].
  assert (Hne : [0; 90; -30] <> @nil Z) by discriminate.
  assert (Hin : Forall int16 [0; 90; -30]) by (repeat constructor; unfold int16; lia).
  destruct (resample_integer_upsampling [0; 90; -30] 4 3 _ Hne Hin ltac:(lia) ltac:(lia) H)
    as (_ & Hk & _).
  apply Hk. unfold len; cbn; lia.
Defined.

(** Integer down-sampling, for a factor of at least 2. *)
Lemma downsample_lookup (samples : list Z) (tr k : Z) (out : list Z) :
  samples <> [] -> Forall int16 samples -> 0 < tr -> 2 <= k ->
  resampleLinear samples (k * tr) tr = Ok out ->
  len out = Z.max 1 (Math_round (inject_Z (len samples) / inject_Z k))
  /\ forall i, 0 <= i < len out ->
       k * i < len samples /\ get out i = get samples (k * i).
Proof.
  intros Hne Hin Htr Hk Ho.
  pose proof (len_nonempty samples Hne) as Hn.
  assert (Hsr : 0 < k * tr) by nia.
  assert (Hd : k * tr <> tr) by nia.
  destruct (resample_general_lookup samples (k * tr) tr out Hd ltac:(lia) ltac:(lia) Ho)
    as [Hlen Hget].
  cbv zeta in Hlen, Hget.
  pose proof (inject_Z_nonzero tr ltac:(lia)) as Htr0.
  pose proof (inject_Z_nonzero k ltac:(lia)) as Hk0.
  set (ratio := (inject_Z tr / inject_Z (k * tr))%Q) in *.
  assert (Hq : (inject_Z (len samples) * ratio == inject_Z (len samples) / inject_Z k)%Q).
  { unfold ratio. rewrite inject_Z_mult. field. split; assumption. }
  rewrite <- (Math_round_comp _ _ Hq). split; [assumption|].
  rewrite Hlen. intros i Hi.
  pose proof (ratio_pos (k * tr) tr Hsr Htr) as Hrp. fold ratio in Hrp.
  destruct (sourcePosition_bounds samples ratio Hne Hrp i Hi) as [_ Hp1].
  assert (Hpos : (inject_Z i / ratio == inject_Z (k * i) + 0)%Q).
  { unfold ratio. rewrite !inject_Z_mult. field. split; assumption. }
  assert (Hki : k * i < len samples).
  { rewrite Zlt_Qlt. rewrite Hpos in Hp1. lra. }
  split; [assumption|].
  destruct (get_Some samples (k * i) ltac:(nia)) as (l & Hgl & _).
  destruct (get_Some samples (Z.min (k * i + 1) (len samples - 1)) ltac:(nia)) as (r & Hgr & _).
  rewrite (Hget _ Hi).
  rewrite (interpolate_at samples ratio i (k * i) 0 l r Hpos); try assumption; try lra.
  cbn [storeValue].
  assert (Hv : (inject_Z l * (1 - 0) + inject_Z r * 0 == inject_Z l)%Q) by ring.
  rewrite (Math_round_comp _ _ Hv), Math_round_Z, Hgl. f_equal.
  apply ToInt16_id. rewrite Forall_lookup in Hin.
  rewrite get_lookup in Hgl by nia. exact (Hin _ _ Hgl).
Qed.

(** X13. Resampling to one [k]-th of the rate, for an integer [k >= 1],
    keeps every [k]-th input sample and drops the others: there is no
    averaging of the samples in between.  The output has one sample for
    every [k] of the input, to within half a sample, and never none. *)
Theorem resample_integer_downsampling (samples : list Z) (tr k : Z) (out : list Z) :
  samples <> [] -> Forall int16 samples -> 0 < tr -> 1 <= k ->
  resampleLinear samples (k * tr) tr = Ok out ->
  1 <= len out
  /\ 2 * len samples - k <= 2 * k * len out
  /\ (len out = 1 \/ 2 * k * len out <= 2 * len samples + k)
  /\ forall i, 0 <= i < len out ->
       k * i < len samples /\ get out i = get samples (k * i).
Proof.
  intros Hne Hin Htr Hk Ho.
  pose proof (len_nonempty samples Hne) as Hn.
  destruct (Z.eq_dec k 1) as [->|Hk1].
  - rewrite Z.mul_1_l, resampleLinear_same in Ho. apply Ok_inj in Ho. subst out.
    split; [lia|]. split; [lia|]. split; [right; lia|].
    intros i Hi. rewrite Z.mul_1_l. split; [lia|reflexivity].
  - destruct (downsample_lookup samples tr k out Hne Hin Htr ltac:(lia) Ho) as [Hlen Hget].
    destruct (Math_round_ratio_bounds (len samples) k 1 ltac:(lia)) as [H1 H2].
    assert (Hq : (inject_Z (len samples) * (inject_Z 1 / inject_Z k)
                  == inject_Z (len samples) / inject_Z k)%Q).
    { change (inject_Z 1) with 1%Q. field. apply inject_Z_nonzero. lia. }
    rewrite (Math_round_comp _ _ Hq) in H1, H2.
    set (R := Math_round (inject_Z (len samples) / inject_Z k)) in *.
    destruct (Z.le_gt_cases 1 R) as [HR|HR].
    + rewrite Z.max_r in Hlen by lia. rewrite Hlen in *.
      split; [lia|]. split; [lia|]. split; [right; lia|exact Hget].
    + rewrite Z.max_l in Hlen by lia. rewrite Hlen in *.
      split; [lia|]. split; [nia|]. split; [left; reflexivity|exact Hget].
Qed.

Lemma resample_integer_downsampling_witness :
  resampleLinear [0; 100; 200; 300; 400] 8 4 = Ok [0; 200; 400] /\
  get [0; 200; 400] 1 = get [0; 100; 200; 300; 400] (2 * 1).
Proof.
  assert (H : resampleLinear [0; 100; 200; 300; 400] (2 * 4) 4 = Ok [0; 200; 400])
    by (vm_compute; reflexivity).
  split; [exact H|].
  assert (Hne : [0; 100; 200; 300; 400] <> @nil Z) by discriminate.
  assert (Hin : Forall int16 [0; 100; 200; 300; 400]) by (repeat constructor; unfold int16; lia).
  destruct (resample_integer_downsampling [0; 100; 200; 300; 400] 4 2 _ Hne Hin
              ltac:(lia) ltac:(lia) H) as (_ & _ & _ & Hk).
  apply Hk. unfold len; cbn; lia.
Defined.

(** X14. Up-sampling by an integer factor and down-sampling by the same
    factor gives the original buffer back. *)
Theorem resample_up_then_down (samples : list Z) (sr k : Z) (up : list Z) :
  samples <> [] -> Forall int16 samples -> 0 < sr -> 1 <= k ->
  resampleLinear samples sr (k * sr) = Ok up ->
  resampleLinear up (k * sr) sr = Ok samples.
Proof.
  intros Hne Hin Hsr Hk Hup.
  pose proof (len_nonempty samples Hne) as Hn.
  destruct (Z.eq_dec k 1) as [->|Hk1].
  { rewrite Z.mul_1_l, resampleLinear_same in Hup. apply Ok_inj in Hup. subst up.
    rewrite Z.mul_1_l. apply resampleLinear_same. }
  assert (Hk2 : 2 <= k) by lia.
  destruct (upsample_lookup samples sr k up 0 0 Hne Hin Hsr Hk2 Hup ltac:(lia) ltac:(lia))
    as [Hlen _].
  assert (Hup16 : Forall int16 up) by (eapply resampleLinear_int16; eassumption).
  assert (Hupne : up <> []).
  { intros ->. change (len (@nil Z)) with 0 in Hlen. nia. }
  destruct (resampleLinear up (k * sr) sr) as [down|e] eqn:Hdown.
  2:{ rewrite resampleLinear_general in Hdown by nia. discriminate. }
  destruct (downsample_lookup up sr k down Hupne Hup16 Hsr Hk2 Hdown) as [Hdl Hdg].
  assert (Hq : (inject_Z (len up) / inject_Z k == inject_Z (len samples))%Q).
  { rewrite Hlen, inject_Z_mult. field. apply inject_Z_nonzero. lia. }
  rewrite (Math_round_comp _ _ Hq), Math_round_Z, Z.max_r in Hdl by lia.
  f_equal. apply list_eq. intros i.
  destruct (decide (i < length samples)%nat) as [Hi|Hi].
  - assert (Hi' : 0 <= Z.of_nat i < len down) by (unfold len in *; lia).
    destruct (Hdg _ Hi') as [_ Hg]. rewrite get_nat in Hg. rewrite Hg.
    destruct (upsample_lookup samples sr k up (Z.of_nat i) 0 Hne Hin Hsr Hk2 Hup
                ltac:(unfold len; lia) ltac:(lia)) as (_ & l & r & Hgl & _ & Hgo).
    rewrite Z.add_0_r in Hgo. rewrite Hgo. rewrite get_nat in Hgl. rewrite Hgl. f_equal.
    rewrite Z.sub_0_r, Z.mul_0_r, Z.add_0_r.
    assert (Hq2 : (inject_Z (l * k) / inject_Z k == inject_Z l)%Q).
    { rewrite inject_Z_mult. field. apply inject_Z_nonzero. lia. }
    now rewrite (Math_round_comp _ _ Hq2), Math_round_Z.
  - rewrite (lookup_ge_None_2 samples) by lia.
    apply lookup_ge_None_2. unfold len in *. lia.
Qed.

Lemma resample_up_then_down_witness :
  resampleLinear [0; 90; -30] 4 (3 * 4) = Ok [0; 30; 60; 90; 50; 10; -30; -30; -30] /\
  resampleLinear [0; 30; 60; 90; 50; 10; -30; -30; -30] (3 * 4) 4 = Ok [0; 90; -30].
Proof.
  assert (H : resampleLinear [0; 90; -30] 4 (3 * 4) = Ok [0; 30; 60; 90; 50; 10; -30; -30; -30])
    by (vm_compute; reflexivity).
  split; [exact H|].
  apply (resample_up_then_down [0; 90; -30] 4 3 _); try exact H; try lia.
  - discriminate.
  - repeat constructor; unfold int16; lia.
Defined.

(** ** The length of the resampled buffer *)



(** ** The mix, index by index *)

Lemma placeLoaded_lookup fs sr total seg (acc : list Z) (k : nat) (s : Z) :
  acc !! k = Some (ToInt32 s) ->
  placeLoaded fs sr total acc seg !! k = Some (ToInt32 (s + contribution fs sr total seg k)).
Proof.
  intros Ha. unfold placeLoaded, contribution.
  destruct (sourceOf fs sr seg) as [src|e]; [|now rewrite Z.add_0_r].
  destruct (placeSegment_spec sr total seg src acc) as [_ Hk]. rewrite Hk. cbv zeta.
  apply lookup_lt_Some in Ha as Hlt.
  destruct (decide (segmentStartIndex sr seg <= Z.of_nat k
                    < segmentStartIndex sr seg + writableCount sr total seg src)) as [Hin|Hout].
  - rewrite decide_True by (split; [exact Hin|exact Hlt]).
    rewrite Ha. cbn [fmap option_fmap option_map]. now rewrite ToInt32_add_l.
  - rewrite decide_False by tauto. now rewrite Ha, Z.add_0_r.
Qed.

Lemma fold_placeLoaded_lookup fs sr total segs (k : nat) : forall (acc : list Z) (s : Z),
  acc !! k = Some (ToInt32 s) ->
  fold_left (placeLoaded fs sr total) segs acc !! k =
    Some (ToInt32 (s + mixSum fs sr total segs k)).
Proof.
  induction segs as [|seg rest IH]; intros acc s Ha.
  - cbn. now rewrite Z.add_0_r.
  - cbn [fold_left]. rewrite (IH _ (s + contribution fs sr total seg k)).
    + unfold mixSum. cbn [map sumZ fold_right]. now rewrite Z.add_assoc.
    + now apply placeLoaded_lookup.
Qed.

Lemma contribution_int16 fs sr total seg k : int16 (contribution fs sr total seg k).
Proof.
  unfold contribution. destruct (sourceOf fs sr seg) as [src|e] eqn:Hs; [|unfold int16; lia].
  cbv zeta. case_decide; [|unfold int16; lia].
  destruct (src !! _) as [x|] eqn:Hx; cbn [default]; [|unfold int16; lia].
  apply sourceOf_int16 in Hs. rewrite Forall_lookup in Hs. exact (Hs _ _ Hx).
Qed.

Lemma mixSum_bound fs sr total segs k :
  - 32768 * len segs <= mixSum fs sr total segs k <= 32768 * len segs.
Proof.
  unfold mixSum, len, sumZ. induction segs as [|seg rest IH]; cbn [map fold_right length].
  - lia.
  - pose proof (contribution_int16 fs sr total seg k) as [H1 H2]. lia.
Qed.

Lemma contribution_outside fs sr total seg k :
  ~ inWindow sr seg k -> contribution fs sr total seg k = 0.
Proof.
  intros Hout. unfold contribution.
  destruct (sourceOf fs sr seg) as [src|e]; [|reflexivity]. cbv zeta.
  case_decide as Hin; [|reflexivity]. exfalso. apply Hout. unfold inWindow.
  pose proof (writableCount_bounds sr total seg src) as (_ & _ & Hw & _). lia.
Qed.

Lemma contribution_inside fs sr total seg src (j : nat) :
  sourceOf fs sr seg = Ok src ->
  Z.of_nat j < writableCount sr total seg src ->
  src !! j = Some (contribution fs sr total seg (Z.to_nat (segmentStartIndex sr seg + Z.of_nat j))).
Proof.
  intros Hs Hj. unfold contribution. rewrite Hs. cbv zeta.
  pose proof (segmentStartIndex_nonneg sr seg) as H0.
  rewrite Z2Nat.id by lia. rewrite decide_True by lia.
  replace (segmentStartIndex sr seg + Z.of_nat j - segmentStartIndex sr seg) with (Z.of_nat j) by lia.
  rewrite Nat2Z.id.
  destruct (writable_in_total sr total seg src j Hj) as [_ Hlen].
  destruct (lookup_lt_is_Some_2 src j) as [x Hx]; [unfold len in Hlen; lia|].
  now rewrite Hx.
Qed.

Lemma sumZ_zero {A} (f : A -> Z) (l : list A) :
  (forall y, y ∈ l -> f y = 0) -> sumZ (map f l) = 0.
Proof.
  unfold sumZ. induction l as [|a l IH]; intros Hz; [reflexivity|].
  cbn [map fold_right]. rewrite (Hz a) by left. rewrite IH; [reflexivity|].
  intros y Hy. apply Hz. now right.
Qed.

Lemma sumZ_single {A} (f : A -> Z) (l : list A) : forall (i : nat) (x : A),
  l !! i = Some x ->
  (forall i' y, i' <> i -> l !! i' = Some y -> f y = 0) ->
  sumZ (map f l) = f x.
Proof.
  induction l as [|a l IH]; intros i x Hi Hz; [discriminate|].
  change (sumZ (map f (a :: l))) with (f a + sumZ (map f l)). destruct i as [|i].
  - injection Hi as ->. rewrite sumZ_zero; [lia|].
    intros y Hy. apply list_elem_of_lookup in Hy as [i' Hy].
    apply (Hz (S i') y); [lia|exact Hy].
  - rewrite (Hz 0%nat a) by (try lia; reflexivity).
    rewrite (IH i x Hi); [lia|].
    intros i' y Hne Hy. apply (Hz (S i') y); [lia|exact Hy].
Qed.

Lemma mixedSamples_lookup fs params first rest (k : nat) :
  Z.of_nat k < totalSamplesOf (rateOf params) (mediaDurationSec params) first rest ->
  mixedSamples fs params first rest !! k =
    Some (clamp16 (ToInt32 (mixSum fs (rateOf params)
            (totalSamplesOf (rateOf params) (mediaDurationSec params) first rest)
            (first :: rest) k))).
Proof.
  intros Hk. unfold mixedSamples. cbv zeta. rewrite list_lookup_fmap.
  rewrite (fold_placeLoaded_lookup _ _ _ _ k (zeros _) 0).
  - reflexivity.
  - rewrite zeros_lookup. rewrite decide_True by lia. reflexivity.
Qed.

Lemma mixedSamples_len fs params first rest :
  len (mixedSamples fs params first rest) =
    totalSamplesOf (rateOf params) (mediaDurationSec params) first rest.
Proof.
  unfold mixedSamples, len. cbv zeta.
  rewrite length_fmap, fold_placeLoaded_length, zeros_length.
  pose proof (totalSamplesOf_pos (rateOf params) (mediaDurationSec params) first rest). lia.
Qed.

Lemma mixedSamples_int16 fs params first rest :
  Forall int16 (mixedSamples fs params first rest).
Proof.
  unfold mixedSamples. cbv zeta. apply Forall_fmap, Forall_forall.
  intros x _. apply clamp16_int16.
Qed.

Lemma mixSum_no_wrap fs sr total segs k :
  len segs <= 65535 -> ToInt32 (mixSum fs sr total segs k) = mixSum fs sr total segs k.
Proof.
  intros Hfit. pose proof (mixSum_bound fs sr total segs k). apply ToInt32_id. lia.
Qed.

Lemma mixSum_delete fs sr total (k : nat) : forall segs (i : nat) seg,
  segs !! i = Some seg ->
  mixSum fs sr total segs k =
    contribution fs sr total seg k + mixSum fs sr total (delete i segs) k.
Proof.
  unfold mixSum.
  induction segs as [|a segs IH]; intros i seg Hi; [discriminate|].
  destruct i as [|i].
  - injection Hi as ->. reflexivity.
  - change (delete (S i) (a :: segs)) with (a :: delete i segs).
    change (sumZ (map ?f (a :: ?l))) with (f a + sumZ (map f l)).
    rewrite (IH i seg Hi).
    change (sumZ (map ?f (a :: ?l))) with (f a + sumZ (map f l)). lia.
Qed.

Lemma clearOf_outside sr seg k : clearOf sr seg k -> ~ inWindow sr seg k.
Proof. unfold clearOf, inWindow. lia. Qed.

(** What a composition that was mixed is made of. *)
Lemma mixTimeline_mixed params w sr final :
  (mixTimeline params w).2 = Ok (sr, final) ->
  exists first rest, segments params = first :: rest /\
    Forall (loads (files w) (rateOf params)) (first :: rest) /\
    sr = rateOf params /\ final = mixedSamples (files w) params first rest.
Proof.
  intros Hm. destruct (mixTimeline_ok_inv params w _ Hm) as (first & rest & Hs & Hall).
  exists first, rest. split; [exact Hs|]. split; [exact Hall|].
  rewrite (mixTimeline_ok params w first rest Hs Hall) in Hm. cbn [snd] in Hm.
  apply Ok_inj in Hm. injection Hm as <- <-. split; reflexivity.
Qed.

(** X16. Each sample of a mixed timeline is the sum of what the segments
    contribute at its index, clamped to the int16 range: for segments that
    lie on the sample grid, and at most 65535 of them, so that the 32-bit
    accumulator cannot wrap on the way. *)
Theorem compose_sample_is_clamped_sum (params : ComposeParams) (w : World)
    (final : list Z) :
  (mixTimeline params w).2 = Ok (rateOf params, final) ->
  Forall (fun seg => exists n m, onGrid (rateOf params) seg n m) (segments params) ->
  len (segments params) <= 65535 ->
  forall k : nat, Z.of_nat k < len final ->
    final !! k =
      Some (clamp16 (mixSum (files w) (rateOf params) (len final) (segments params) k)).
Proof.
  intros Hm _ Hfit.
  destruct (mixTimeline_mixed params w _ _ Hm) as (first & rest & Hs & _ & _ & ->).
  rewrite mixedSamples_len. intros k Hk.
  rewrite mixedSamples_lookup by exact Hk. rewrite Hs in Hfit |- *.
  now rewrite mixSum_no_wrap.
Qed.

Lemma clips_onGrid :
  onGrid 10 segA 5 15 /\ onGrid 10 segB (-5) 15 /\ onGrid 10 segC 20 5.
Proof. repeat split; reflexivity. Qed.

Lemma compose_sample_is_clamped_sum_witness :
  (mixTimeline (clipParams [segA; segB]) clipWorld).2 =
    Ok (10, [10000; 15000; 20000; 25000; 30000; 32767; 30000; 3; 4; 5; 6; 7;
             0; 0; 0; 0; 0; 0; 0; 0; 0; 0; 0; 0; 0; 0; 0; 0; 0; 0]) /\
  Forall (fun seg => exists n m, onGrid 10 seg n m) [segA; segB] /\
  [10000; 15000; 20000; 25000; 30000; 32767; 30000; 3; 4; 5; 6; 7;
   0; 0; 0; 0; 0; 0; 0; 0; 0; 0; 0; 0; 0; 0; 0; 0; 0; 0] !! 5%nat =
    Some (clamp16 (mixSum (files clipWorld) 10 30 [segA; segB] 5)) /\
  mixSum (files clipWorld) 10 30 [segA; segB] 5 = 60000.
Proof.
  assert (Hgrid : Forall (fun seg => exists n m, onGrid 10 seg n m) [segA; segB]).
  { destruct clips_onGrid as (Ha & Hb & _).
    constructor; [exists 5, 15; exact Ha|].
    constructor; [exists (-5), 15; exact Hb|constructor]. }
  split; [exact compose_clips|]. split; [exact Hgrid|].
  split; [|vm_compute; reflexivity].
  exact (compose_sample_is_clamped_sum (clipParams [segA; segB]) clipWorld _
           compose_clips Hgrid ltac:(vm_compute; discriminate) 5%nat
           ltac:(vm_compute; reflexivity)).
Defined.

(** X17. In a mixed timeline, an index that lies more than one sample
    outside every segment's time window is silent. *)
Theorem compose_silence_outside_windows (params : ComposeParams) (w : World)
    (final : list Z) (k : nat) :
  (mixTimeline params w).2 = Ok (rateOf params, final) ->
  (forall seg, seg ∈ segments params -> clearOf (rateOf params) seg k) ->
  Z.of_nat k < len final ->
  final !! k = Some 0.
Proof.
  intros Hm Hout.
  destruct (mixTimeline_mixed params w _ _ Hm) as (first & rest & Hs & _ & _ & ->).
  rewrite mixedSamples_len. intros Hk.
  rewrite mixedSamples_lookup by exact Hk.
  assert (mixSum (files w) (rateOf params)
            (totalSamplesOf (rateOf params) (mediaDurationSec params) first rest)
            (first :: rest) k = 0) as ->; [|reflexivity].
  unfold mixSum. apply sumZ_zero. intros seg Hin.
  apply contribution_outside, clearOf_outside, Hout. now rewrite Hs.
Qed.

Lemma compose_silence_outside_windows_witness :
  (forall seg, seg ∈ [segA; segB] -> clearOf 10 seg 25) /\
  exists final, (mixTimeline (clipParams [segA; segB]) clipWorld).2 = Ok (10, final) /\
    final !! 25%nat = Some 0.
Proof.
  assert (Hclear : forall seg, seg ∈ [segA; segB] -> clearOf 10 seg 25).
  { intros seg Hin. apply elem_of_cons in Hin as [->|Hin].
    - right. vm_compute. reflexivity.
    - apply list_elem_of_singleton in Hin as ->. right. vm_compute. reflexivity. }
  split; [exact Hclear|]. eexists. split; [exact compose_clips|].
  apply (compose_silence_outside_windows (clipParams [segA; segB]) clipWorld _ 25
           compose_clips Hclear).
  vm_compute. reflexivity.
Defined.

(** X18. In a mixed timeline, a segment that lies on the sample grid is
    found from the sample it starts on: each of its samples that falls on
    an index more than one sample outside every other segment's window is
    there unchanged. *)
Theorem compose_keeps_isolated_sample (params : ComposeParams) (w : World)
    (final : list Z) (i : nat) (seg : SynthesizedSegment) (src : list Z)
    (n m : Z) (j : nat) :
  (mixTimeline params w).2 = Ok (rateOf params, final) ->
  segments params !! i = Some seg ->
  sourceOf (files w) (rateOf params) seg = Ok src ->
  0 <= n -> onGrid (rateOf params) seg n m ->
  Z.of_nat j < writableCount (rateOf params) (len final) seg src ->
  (forall i' seg', i' <> i -> segments params !! i' = Some seg' ->
     clearOf (rateOf params) seg' (Z.to_nat (n + Z.of_nat j))) ->
  final !! Z.to_nat (n + Z.of_nat j) = src !! j.
Proof.
  intros Hm Hi Hsrc Hn [Hgrid _].
  destruct (mixTimeline_mixed params w _ _ Hm) as (first & rest & Hs & _ & _ & ->).
  rewrite mixedSamples_len. rewrite Hs in Hi.
  set (sr := rateOf params) in *.
  set (total := totalSamplesOf sr (mediaDurationSec params) first rest) in *.
  assert (Hst : segmentStartIndex sr seg = n).
  { unfold segmentStartIndex. rewrite (Math_round_comp _ _ Hgrid), Math_round_Z. lia. }
  intros Hj Hothers.
  destruct (writable_in_total sr total seg src j Hj) as [Hk _]. rewrite Hst in Hk.
  rewrite mixedSamples_lookup by (fold sr total; lia). fold sr total.
  unfold mixSum.
  rewrite (sumZ_single _ (first :: rest) i seg Hi).
  2:{ intros i' y Hne' Hy. apply contribution_outside, clearOf_outside.
      apply (Hothers i' y Hne'). now rewrite Hs. }
  pose proof (contribution_inside (files w) sr total seg src j Hsrc Hj) as Hc.
  rewrite Hst in Hc. rewrite Hc. f_equal.
  pose proof (contribution_int16 (files w) sr total seg (Z.to_nat (n + Z.of_nat j))) as H16.
  rewrite int16_ToInt32 by exact H16. unfold clamp16, int16 in *. lia.
Qed.

Example compose_far_clips :
  (mixTimeline (clipParams [segA; segC]) clipWorld).2 =
  Ok (10, [0; 0; 0; 0; 0; 30000; 30000; 3; 4; 5; 6; 7; 0; 0; 0; 0; 0; 0; 0; 0;
           10000; 15000; 20000; 25000; 30000; 0; 0; 0; 0; 0]).
Proof. vm_compute. reflexivity. Qed.

Lemma compose_keeps_isolated_sample_witness :
  onGrid 10 segA 5 15 /\
  exists final, (mixTimeline (clipParams [segA; segC]) clipWorld).2 = Ok (10, final) /\
    final !! Z.to_nat (5 + Z.of_nat 6) = [30000; 30000; 3; 4; 5; 6; 7] !! 6%nat.
Proof.
  assert (Hgrid : onGrid 10 segA 5 15) by apply clips_onGrid.
  split; [exact Hgrid|]. eexists. split; [exact compose_far_clips|].
  apply (compose_keeps_isolated_sample (clipParams [segA; segC]) clipWorld _
           0 segA [30000; 30000; 3; 4; 5; 6; 7] 5 15 6
           compose_far_clips eq_refl clipA_source ltac:(lia) Hgrid).
  - vm_compute. reflexivity.
  - intros i' seg' Hne Hl. destruct i' as [|[|i']]; [contradiction| |discriminate].
    injection Hl as <-. left. vm_compute. reflexivity.
Defined.

Lemma wavOfSamples_mixed fs params first rest :
  wavOfSamples (rateOf params) (mixedSamples fs params first rest) =
    if decide (outputFits (rateOf params)
                 (totalSamplesOf (rateOf params) (mediaDurationSec params) first rest))
    then Ok (canonicalFile (rateOf params) (mixedSamples fs params first rest))
    else Throw RangeError.
Proof.
  pose proof (mixedSamples_len fs params first rest) as Hl.
  pose proof (mixedSamples_int16 fs params first rest) as H16.
  case_decide as Hfit.
  - apply wavOfSamples_ok. destruct Hfit as (H1 & H2 & H3).
    unfold fitsHeader. rewrite Hl. auto.
  - destruct (wavOfSamples _ _) as [W|e] eqn:HW.
    + apply wavOfSamples_inv in HW as [(H1 & H2 & _ & H3) _].
      exfalso. apply Hfit. unfold outputFits. rewrite Hl in H3. auto.
    + apply wavOfSamples_throws in HW. now subst e.
Qed.

(** C10. A segment with a negative [startSec] is placed from output index
    0 and makes no composition fail.  Its start index is 0.  The
    composition succeeds when every segment's audio loads, the list of
    segments is one that the call of [Math.max] can take, and the rate and
    the length of the timeline fit the WAV header with a sample to spare.
    The accumulation step
    adds the segment's sample [k] to the accumulator at index [k], for
    every [k] below its writable count.  And in every timeline that is
    mixed, those indices of the output hold the segment's samples,
    wherever every other segment's window is more than one sample away. *)
Theorem negative_start_clamped (params : ComposeParams) (w : World)
    (i : nat) (seg : SynthesizedSegment) :
  segments params !! i = Some seg ->
  (startSec seg < 0)%Q -> 0 < rateOf params ->
  segmentStartIndex (rateOf params) seg = 0
  /\ (forall first rest, segments params = first :: rest ->
        Forall (loads (files w) (rateOf params)) (first :: rest) ->
        spreadFits (first :: rest) ->
        outputFits (rateOf params)
          (totalSamplesOf (rateOf params) (mediaDurationSec params) first rest + 1) ->
        (composeDubbedTimeline params w).2 = Ok tt)
  /\ (forall total src (acc : list Z) (k : nat),
        len acc = total -> Z.of_nat k < writableCount (rateOf params) total seg src ->
        exists a s, acc !! k = Some a /\ src !! k = Some s /\
          placeSegment (rateOf params) total seg src acc !! k = Some (ToInt32 (a + s)))
  /\ (forall final, (mixTimeline params w).2 = Ok (rateOf params, final) ->
        exists src, sourceOf (files w) (rateOf params) seg = Ok src /\
          forall k : nat,
            Z.of_nat k < writableCount (rateOf params) (len final) seg src ->
            (forall i' seg', i' <> i -> segments params !! i' = Some seg' ->
               clearOf (rateOf params) seg' k) ->
            final !! k = src !! k).
Proof.
  intros Hi Hneg Hsr.
  pose proof (startIndex_negative _ _ Hsr Hneg) as Hst.
  split; [exact Hst|]. split; [|split].
  - intros first rest Hs Hall _ Hout.
    rewrite compose_run, (mixTimeline_ok params w first rest Hs Hall).
    rewrite wavOfSamples_mixed, decide_True; [reflexivity|].
    unfold outputFits in *. lia.
  - intros total src acc k Hl Hk.
    destruct (writable_in_total _ _ _ _ _ Hk) as [Hk1 Hk2]. rewrite Hst in Hk1.
    destruct (lookup_lt_is_Some_2 acc k ltac:(unfold len in Hl; lia)) as [a Ha].
    destruct (lookup_lt_is_Some_2 src k ltac:(unfold len in Hk2; lia)) as [s Hs].
    exists a, s. split; [exact Ha|]. split; [exact Hs|].
    destruct (placeSegment_spec (rateOf params) total seg src acc) as [_ ->].
    rewrite Hst, decide_True by (unfold len in Hl; lia).
    rewrite Z.sub_0_r, Nat2Z.id, Ha, Hs. reflexivity.
  - intros final Hm.
    destruct (mixTimeline_mixed params w _ _ Hm) as (first & rest & Hs & Hall & _ & ->).
    assert (Hin : seg ∈ first :: rest).
    { rewrite <- Hs. apply list_elem_of_lookup. now exists i. }
    rewrite Forall_forall in Hall. destruct (Hall seg Hin) as [src Hsrc].
    exists src. split; [exact Hsrc|].
    rewrite mixedSamples_len.
    set (sr := rateOf params) in *.
    set (total := totalSamplesOf sr (mediaDurationSec params) first rest) in *.
    intros k Hk Hothers.
    destruct (writable_in_total sr total seg src k Hk) as [Hk1 Hk2]. rewrite Hst in Hk1.
    pose proof (contribution_inside (files w) sr total seg src k Hsrc Hk) as Hc.
    rewrite Hst, Z.add_0_l, Nat2Z.id in Hc.
    rewrite mixedSamples_lookup by (fold sr total; lia). fold sr total.
    unfold mixSum. rewrite <- Hs.
    rewrite (sumZ_single _ (segments params) i seg Hi).
    2:{ intros i' y Hne' Hy. apply contribution_outside, clearOf_outside.
        exact (Hothers i' y Hne' Hy). }
    rewrite Hc. f_equal.
    pose proof (contribution_int16 (files w) sr total seg k) as H16.
    rewrite int16_ToInt32 by exact H16. unfold clamp16, int16 in *. lia.
Qed.

Example compose_early_clip :
  (mixTimeline (clipParams [segC; segB]) clipWorld).2 =
  Ok (10, [10000; 15000; 20000; 25000; 30000; 30000; 0; 0; 0; 0; 0; 0; 0; 0; 0; 0;
           0; 0; 0; 0; 10000; 15000; 20000; 25000; 30000; 0; 0; 0; 0; 0]).
Proof. vm_compute. reflexivity. Qed.

Lemma negative_start_clamped_witness :
  (startSec segB < 0)%Q /\
  segmentStartIndex 10 segB = 0 /\
  (composeDubbedTimeline (clipParams [segC; segB]) clipWorld).2 = Ok tt /\
  sourceOf (files clipWorld) 10 segB = Ok [10000; 15000; 20000; 25000; 30000; 30000] /\
  exists final, (mixTimeline (clipParams [segC; segB]) clipWorld).2 = Ok (10, final) /\
    final !! 0%nat = Some 10000 /\ final !! 1%nat = Some 15000 /\
    final !! 5%nat = Some 30000.
Proof.
  assert (Hneg : (startSec segB < 0)%Q) by reflexivity.
  assert (Hall : Forall (loads (files clipWorld) 10) [segC; segB]).
  { constructor; [eexists; vm_compute; reflexivity|].
    constructor; [eexists; apply clipB_source|constructor]. }
  destruct (negative_start_clamped (clipParams [segC; segB]) clipWorld 1 segB
              eq_refl Hneg ltac:(reflexivity)) as (Hst & Hok & _ & Hmix).
  split; [exact Hneg|]. split; [exact Hst|]. split.
  { apply (Hok segC [segB] eq_refl Hall); vm_compute; intuition discriminate. }
  split; [exact clipB_source|].
  eexists. split; [exact compose_early_clip|].
  destruct (Hmix _ compose_early_clip) as (src & Hsrc & Hk).
  assert (Hsame : Ok src = Ok [10000; 15000; 20000; 25000; 30000; 30000])
    by (rewrite <- Hsrc; exact clipB_source).
  apply Ok_inj in Hsame. subst src.
  assert (Hfar : forall k : nat, (k < 6)%nat ->
            forall i' seg', i' <> 1%nat ->
              segments (clipParams [segC; segB]) !! i' = Some seg' ->
              clearOf (rateOf (clipParams [segC; segB])) seg' k).
  { intros k Hlt i' seg' Hne Hl. destruct i' as [|[|i']]; [|contradiction|discriminate].
    injection Hl as <-. left. change (segmentStartIndex _ segC) with 20. lia. }
  assert (Hw : forall k : nat, (k < 6)%nat ->
            Z.of_nat k < writableCount (rateOf (clipParams [segC; segB]))
              (len [10000; 15000; 20000; 25000; 30000; 30000; 0; 0; 0; 0; 0; 0; 0; 0; 0; 0;
                    0; 0; 0; 0; 10000; 15000; 20000; 25000; 30000; 0; 0; 0; 0; 0]) segB
              [10000; 15000; 20000; 25000; 30000; 30000]).
  { intros k Hlt. change (writableCount _ _ segB _) with 6. lia. }
  split; [|split].
  - exact (Hk 0%nat (Hw 0%nat ltac:(lia)) (Hfar 0%nat ltac:(lia))).
  - exact (Hk 1%nat (Hw 1%nat ltac:(lia)) (Hfar 1%nat ltac:(lia))).
  - exact (Hk 5%nat (Hw 5%nat ltac:(lia)) (Hfar 5%nat ltac:(lia))).
Defined.

(** ** The length of the timeline *)

Lemma durationSec_isMax md first rest :
  isMaxOf (Qmax (default 0%Q md) (inferredDurationOf first rest))
          (durationCandidates md (first :: rest)).
Proof.
  unfold durationCandidates, inferredDurationOf.
  set (l := map endSec rest ++ map (fun s => (startSec s + durationSec s)%Q) (first :: rest)).
  change (map endSec (first :: rest) ++ map (fun s => (startSec s + durationSec s)%Q) (first :: rest))
    with (endSec first :: l).
  destruct (fold_Qmax_isMax l (endSec first)) as [Hle Hex].
  set (m := fold_left Qmax l (endSec first)) in *.
  set (a := default 0%Q md).
  split.
  - constructor; [apply Q.le_max_l|].
    eapply Forall_impl; [exact Hle|]. cbn. intros y Hy.
    eapply Qle_trans; [exact Hy|apply Q.le_max_r].
  - destruct (Q.max_spec a m) as [[_ Heq]|[_ Heq]].
    + right. eapply Exists_impl; [exact Hex|]. cbn. intros y Hy.
      eapply Qeq_trans; [exact Heq|exact Hy].
    + left. exact Heq.
Qed.

Lemma totalSamples_covers (sr : Z) (md : option Q)
    (first : SynthesizedSegment) (rest : list SynthesizedSegment) :
  0 <= sr ->
  Forall (coversSec sr (totalSamplesOf sr md first rest))
         (durationCandidates md (first :: rest)).
Proof.
  intros Hsr. unfold totalSamplesOf. cbv zeta.
  destruct (durationSec_isMax md first rest) as [Hle _].
  set (D := Qmax (default 0%Q md) (inferredDurationOf first rest)) in *.
  unfold Math_ceil. pose proof (inject_Z_nonneg sr Hsr) as Hq.
  eapply Forall_impl; [exact Hle|]. cbn. intros c Hc. unfold coversSec.
  eapply Qle_trans; [apply Qmult_le_compat_r; [exact Hc|exact Hq]|].
  eapply Qle_trans; [apply Qle_ceiling|].
  rewrite <- Zle_Qle. lia.
Qed.

(** X19. The timeline has at least one sample.  It covers the media
    duration, every segment's end and every segment's start plus the
    length of its audio, each to within one sample; and unless it is one
    or two samples long, it is less than two samples longer than the
    longest of them. *)
Theorem totalSamples_covers_within_one (sr : Z) (md : option Q)
    (first : SynthesizedSegment) (rest : list SynthesizedSegment) :
  0 <= sr ->
  let total := totalSamplesOf sr md first rest in
  1 <= total
  /\ Forall (coversSec sr (total + 1)) (durationCandidates md (first :: rest))
  /\ (total <= 2 \/
      Exists (fun c => ~ coversSec sr (total - 2) c) (durationCandidates md (first :: rest))).
Proof.
  intros Hsr total. split; [apply totalSamplesOf_pos|]. split.
  - eapply Forall_impl; [apply (totalSamples_covers sr md first rest Hsr)|].
    cbn. unfold coversSec. fold total. intros c Hc.
    eapply Qle_trans; [exact Hc|]. rewrite <- Zle_Qle. lia.
  - destruct (Z.le_gt_cases total 2) as [Hle|Hgt]; [left; exact Hle|right].
    unfold total, totalSamplesOf in Hgt |- *. cbv zeta in Hgt |- *.
    destruct (durationSec_isMax md first rest) as [_ Hex].
    set (D := Qmax (default 0%Q md) (inferredDurationOf first rest)) in *.
    unfold Math_ceil in *.
    eapply Exists_impl; [exact Hex|]. cbn. intros c Heq Hcov.
    unfold coversSec in Hcov. rewrite <- Heq in Hcov.
    apply Qceiling_resp_le in Hcov. rewrite Qceiling_Z in Hcov. lia.
Qed.

Lemma totalSamples_covers_within_one_witness :
  0 <= 10 /\ totalSamplesOf 10 (Some 3%Q) segA [segB] = 30 /\
  Forall (coversSec 10 (30 + 1)) (durationCandidates (Some 3%Q) [segA; segB]).
Proof.
  assert (H : 0 <= 10) by lia.
  split; [exact H|]. split; [reflexivity|].
  destruct (totalSamples_covers_within_one 10 (Some 3%Q) segA [segB] H) as (_ & Hc & _).
  exact Hc.
Defined.

(** ** Success, failure and the files *)

(** X20. [composeDubbedTimeline] succeeds only when there is at least one
    segment, every segment's file loads (it exists, parses and can be
    resampled), and the target rate and the length of the mixed timeline
    fit the 32-bit fields of the WAV header.  And it does succeed when
    every segment loads, the list of segments is one that the call of
    [Math.max] can take, and the rate and the length of the timeline fit
    the header with a sample to spare. *)
Theorem compose_success_conditions (params : ComposeParams) (w : World) :
  (succeeds (composeDubbedTimeline params w).2 ->
   segments params <> [] /\
   Forall (loads (files w) (rateOf params)) (segments params) /\
   exists final, (mixTimeline params w).2 = Ok (rateOf params, final) /\
     outputFits (rateOf params) (len final))
  /\ (forall first rest, segments params = first :: rest ->
        Forall (loads (files w) (rateOf params)) (first :: rest) ->
        spreadFits (first :: rest) ->
        outputFits (rateOf params)
          (totalSamplesOf (rateOf params) (mediaDurationSec params) first rest + 1) ->
        (composeDubbedTimeline params w).2 = Ok tt).
Proof.
  rewrite compose_run. split.
  - intros [u Hu].
    destruct (mixTimeline params w) as [w1 [[sr final]|e]] eqn:Hm; [|discriminate].
    assert (Hm2 : (mixTimeline params w).2 = Ok (sr, final)) by now rewrite Hm.
    destruct (mixTimeline_mixed params w _ _ Hm2) as (first & rest & Hs & Hall & -> & ->).
    rewrite Hs. split; [discriminate|]. split; [exact Hall|].
    eexists. split; [reflexivity|].
    rewrite mixedSamples_len. cbn [fst snd] in Hu.
    rewrite wavOfSamples_mixed in Hu. case_decide; [assumption|discriminate].
  - intros first rest Hs Hall _ Hfit.
    rewrite (mixTimeline_ok params w first rest Hs Hall).
    rewrite wavOfSamples_mixed, decide_True; [reflexivity|].
    unfold outputFits in *. lia.
Qed.

(** X21. [composeDubbedTimeline] is all or nothing on the file store: when
    it fails no file has changed; when it succeeds exactly the output path
    has changed, and reading that file back gives the target rate and the
    mixed samples, one per sample of the timeline. *)
Theorem compose_all_or_nothing (params : ComposeParams) (w : World) :
  (forall e, (composeDubbedTimeline params w).2 = Throw e ->
     files (composeDubbedTimeline params w).1 = files w)
  /\ ((composeDubbedTimeline params w).2 = Ok tt ->
      let w1 := (composeDubbedTimeline params w).1 in
      (forall p, p <> outputWavPath params -> files w1 !! p = files w !! p)
      /\ exists first rest final,
           segments params = first :: rest /\
           (mixTimeline params w).2 = Ok (rateOf params, final) /\
           len final = totalSamplesOf (rateOf params) (mediaDurationSec params) first rest /\
           (readWavPcm16Mono (outputWavPath params) w1).2 =
             Ok {| sampleRate := rateOf params; channels := 1; bitsPerSample := 16;
                   samples := final |}).
Proof.
  rewrite compose_run. pose proof (mixTimeline_files params w) as Hf.
  destruct (mixTimeline params w) as [w1 [[sr final]|e]] eqn:Hm; cbn [fst snd] in *.
  2:{ split; [intros _ _; exact Hf|discriminate]. }
  assert (Hm2 : (mixTimeline params w).2 = Ok (sr, final)) by now rewrite Hm.
  destruct (mixTimeline_ok_inv params w _ Hm2) as (first & rest & Hs & Hall).
  rewrite (mixTimeline_ok params w first rest Hs Hall) in Hm.
  injection Hm as <- <- <-.
  rewrite wavOfSamples_mixed. case_decide as Hfit; cbn [fst snd files].
  2:{ split; [intros _ _; reflexivity|discriminate]. }
  split; [discriminate|]. intros _. split.
  - intros p Hp. now rewrite lookup_insert_ne.
  - exists first, rest, (mixedSamples (files w) params first rest).
    split; [assumption|]. split; [reflexivity|]. split; [apply mixedSamples_len|].
    unfold readWavPcm16Mono, ioBind, fs_readFile, ioLift. cbn [files fst snd].
    rewrite lookup_insert_eq. cbn [snd].
    apply parseWav_canonical. destruct Hfit as (H1 & H2 & H3).
    unfold fitsHeader. rewrite mixedSamples_len.
    split; [assumption|]. split; [assumption|]. split; [apply mixedSamples_int16|assumption].
Qed.

Lemma compose_all_or_nothing_witness :
  (composeDubbedTimeline (clipParams [segA; segB]) clipWorld).2 = Ok tt /\
  files (composeDubbedTimeline (clipParams [segA; segB]) clipWorld).1 !! "a.wav"%string
    = files clipWorld !! "a.wav"%string.
Proof.
  assert (H : (composeDubbedTimeline (clipParams [segA; segB]) clipWorld).2 = Ok tt)
    by (vm_compute; reflexivity).
  split; [exact H|].
  destruct (compose_all_or_nothing (clipParams [segA; segB]) clipWorld) as [_ Hok].
  destruct (Hok H) as [Hother _]. apply Hother. discriminate.
Defined.

Lemma accumulate_first_failure sr total pre bad post e : forall acc w,
  Forall (loads (files w) sr) pre ->
  sourceOf (files w) sr bad = Throw e ->
  accumulateSegments sr total (pre ++ bad :: post) acc w =
    ({| files := files w;
        trace := trace w ++ map (fun s => EvReadFile (wavPath s)) (pre ++ [bad]) |},
     Throw e).
Proof.
  induction pre as [|seg pre IH]; intros acc w Hall Hbad.
  - cbn [app accumulateSegments map]. unfold ioBind at 1. rewrite loadSource_run, Hbad.
    reflexivity.
  - apply Forall_cons in Hall as [[src Hsrc] Hall].
    cbn [app accumulateSegments map]. unfold ioBind at 1. rewrite loadSource_run, Hsrc.
    rewrite IH by assumption. cbn [files trace]. now rewrite <- app_assoc.
Qed.

(** X22. The segments are loaded in list order and the first one that
    does not load stops the composition with its own error: the segments
    after it are not read, and nothing is written.  This is said of a
    list that the call of [Math.max] can take and of a timeline whose
    length fits a WAV file, so that the accumulator is there to load
    into. *)
Theorem compose_fails_at_first_bad_segment (params : ComposeParams) (w : World)
    (first : SynthesizedSegment) (rest pre : list SynthesizedSegment)
    (bad : SynthesizedSegment) (post : list SynthesizedSegment) (e : error) :
  segments params = first :: rest -> first :: rest = pre ++ bad :: post ->
  spreadFits (first :: rest) ->
  outputFits (rateOf params)
    (totalSamplesOf (rateOf params) (mediaDurationSec params) first rest) ->
  Forall (loads (files w) (rateOf params)) pre ->
  sourceOf (files w) (rateOf params) bad = Throw e ->
  exists allocated,
    composeDubbedTimeline params w =
      ({| files := files w;
          trace := trace w ++
            [EvMkdirFor (outputWavPath params); EvAllocAccumulator allocated] ++
            map (fun s => EvReadFile (wavPath s)) (pre ++ [bad]) |},
       Throw e).
Proof.
  intros Hs Hsplit _ _ Hall Hbad.
  exists (totalSamplesOf (rateOf params) (mediaDurationSec params) first rest).
  rewrite compose_run.
  unfold mixTimeline. rewrite Hs.
  unfold ioBind at 1. unfold ioEvent at 1. cbv zeta.
  unfold ioBind at 1. unfold ioEvent at 1.
  unfold ioBind at 1. fold (rateOf params).
  rewrite Hsplit.
  rewrite (accumulate_first_failure _ _ pre bad post e) by assumption.
  cbn [files trace]. f_equal. f_equal. rewrite <- !app_assoc. reflexivity.
Qed.

Lemma compose_fails_at_first_bad_segment_witness :
  sourceOf (files clipWorld) 10 (toneSegment "missing.wav") = Throw FileNotFound /\
  spreadFits [segA; toneSegment "missing.wav"; segB] /\
  exists allocated,
    composeDubbedTimeline (clipParams [segA; toneSegment "missing.wav"; segB]) clipWorld =
      ({| files := files clipWorld;
          trace := [EvMkdirFor "out.wav"; EvAllocAccumulator allocated;
                    EvReadFile "a.wav"; EvReadFile "missing.wav"] |},
       Throw FileNotFound).
Proof.
  assert (Hbad : sourceOf (files clipWorld) 10 (toneSegment "missing.wav") = Throw FileNotFound)
    by reflexivity.
  assert (Hfit : spreadFits [segA; toneSegment "missing.wav"; segB]) by (vm_compute; discriminate).
  assert (Hout : outputFits 10 (totalSamplesOf 10 (Some 3%Q) segA
                                  [toneSegment "missing.wav"; segB]))
    by (vm_compute; intuition discriminate).
  assert (Hall : Forall (loads (files clipWorld) 10) [segA])
    by (constructor; [eexists; apply clipA_source|constructor]).
  split; [exact Hbad|]. split; [exact Hfit|].
  exact (compose_fails_at_first_bad_segment
           (clipParams [segA; toneSegment "missing.wav"; segB]) clipWorld
           segA [toneSegment "missing.wav"; segB] [segA] (toneSegment "missing.wav") [segB]
           FileNotFound eq_refl eq_refl Hfit Hout Hall Hbad).
Defined.

(** ** Which files the composition depends on *)

Lemma sourceOf_agree fs fs' sr seg :
  fs !! wavPath seg = fs' !! wavPath seg -> sourceOf fs sr seg = sourceOf fs' sr seg.
Proof. intros H. unfold sourceOf. now rewrite H. Qed.

Lemma accumulate_agree sr total segs : forall acc w w',
  (forall seg, seg ∈ segs -> files w !! wavPath seg = files w' !! wavPath seg) ->
  (accumulateSegments sr total segs acc w).2 = (accumulateSegments sr total segs acc w').2.
Proof.
  induction segs as [|seg rest IH]; intros acc w w' Hag; [reflexivity|].
  cbn [accumulateSegments]. unfold ioBind at 1 2. rewrite !loadSource_run.
  rewrite (sourceOf_agree (files w) (files w') sr seg) by (apply Hag; left).
  destruct (sourceOf (files w') sr seg) as [src|e]; [|reflexivity].
  apply IH. cbn [files]. intros s Hs. apply Hag. now right.
Qed.

Lemma mixTimeline_result params w first rest :
  segments params = first :: rest ->
  (mixTimeline params w).2 =
    (acc ← (accumulateSegments (rateOf params)
              (totalSamplesOf (rateOf params) (mediaDurationSec params) first rest)
              (first :: rest)
              (zeros (totalSamplesOf (rateOf params) (mediaDurationSec params) first rest))
              {| files := files w;
                 trace := (trace w ++ [EvMkdirFor (outputWavPath params)]) ++
                   [EvAllocAccumulator
                      (totalSamplesOf (rateOf params) (mediaDurationSec params) first rest)] |}).2;
     Ok (rateOf params,
         finalSamplesOf (totalSamplesOf (rateOf params) (mediaDurationSec params) first rest) acc)).
Proof.
  intros Hs. unfold mixTimeline. rewrite Hs.
  unfold ioBind at 1. unfold ioEvent at 1. cbv zeta.
  unfold ioBind at 1. unfold ioEvent at 1.
  unfold ioBind at 1. fold (rateOf params). cbn [files trace].
  destruct (accumulateSegments _ _ _ _ _) as [w1 [acc|e]]; reflexivity.
Qed.

Lemma mixTimeline_agree params w w' :
  (forall seg, seg ∈ segments params -> files w !! wavPath seg = files w' !! wavPath seg) ->
  (mixTimeline params w).2 = (mixTimeline params w').2.
Proof.
  intros Hag. destruct (segments params) as [|first rest] eqn:Hs.
  - now rewrite !mixTimeline_empty by assumption.
  - rewrite !(mixTimeline_result params _ first rest Hs).
    rewrite (accumulate_agree _ _ _ _ _
               {| files := files w';
                  trace := (trace w' ++ [EvMkdirFor (outputWavPath params)]) ++
                    [EvAllocAccumulator
                       (totalSamplesOf (rateOf params) (mediaDurationSec params) first rest)] |});
      [reflexivity|].
    cbn [files]. exact Hag.
Qed.

Lemma compose_result params w :
  (composeDubbedTimeline params w).2 =
    (mixed ← (mixTimeline params w).2;
     bytes ← wavOfSamples mixed.1 mixed.2;
     Ok tt).
Proof.
  rewrite compose_run.
  destruct (mixTimeline params w) as [w1 [[sr final]|e]]; [|reflexivity].
  cbn [fst snd]. rewrite bind_Ok. cbn [fst snd].
  destruct (wavOfSamples sr final); reflexivity.
Qed.

Lemma compose_files params w :
  files (composeDubbedTimeline params w).1 =
    match (mixTimeline params w).2 with
    | Ok mixed =>
        match wavOfSamples mixed.1 mixed.2 with
        | Ok bytes => <[outputWavPath params := bytes]> (files w)
        | Throw _ => files w
        end
    | Throw _ => files w
    end.
Proof.
  rewrite compose_run. pose proof (mixTimeline_files params w) as Hf.
  destruct (mixTimeline params w) as [w1 [[sr final]|e]]; cbn [fst snd] in *; [|assumption].
  destruct (wavOfSamples sr final); cbn [fst files]; now rewrite Hf.
Qed.

(** X23. What is mixed depends on the file store only through the files
    at the segments' paths: two worlds that agree on those files give the
    same mixed buffer, or the same error. *)
Theorem compose_depends_only_on_segment_files (params : ComposeParams) (w w' : World) :
  (forall seg, seg ∈ segments params -> files w !! wavPath seg = files w' !! wavPath seg) ->
  (mixTimeline params w).2 = (mixTimeline params w').2 /\
  (composeDubbedTimeline params w).2 = (composeDubbedTimeline params w').2.
Proof.
  intros Hag. pose proof (mixTimeline_agree params w w' Hag) as Hm.
  split; [exact Hm|]. now rewrite !compose_result, Hm.
Qed.

Lemma compose_depends_only_on_segment_files_witness :
  (mixTimeline (clipParams [segA]) clipWorld).2 =
  (mixTimeline (clipParams [segA])
     {| files := {[ "a.wav"%string := clipA ]}; trace := [EvWriteFile "x"] |}).2.
Proof.
  apply (compose_depends_only_on_segment_files (clipParams [segA]) clipWorld
           {| files := {[ "a.wav"%string := clipA ]}; trace := [EvWriteFile "x"] |}).
  intros seg Hin. apply list_elem_of_singleton in Hin as ->. reflexivity.
Defined.

(** X24. Composing again gives the same files: once a composition has
    succeeded, and provided the output path is not the path of a segment,
    a second run on the resulting world succeeds and leaves every file,
    the output included, as the first run left it. *)
Theorem compose_idempotent (params : ComposeParams) (w : World) :
  (composeDubbedTimeline params w).2 = Ok tt ->
  (forall seg, seg ∈ segments params -> wavPath seg <> outputWavPath params) ->
  let w1 := (composeDubbedTimeline params w).1 in
  (composeDubbedTimeline params w1).2 = Ok tt /\
  files (composeDubbedTimeline params w1).1 = files w1.
Proof.
  intros Hok Hpaths w1.
  rewrite compose_result in Hok.
  destruct ((mixTimeline params w).2) as [mixed|e] eqn:Hmix; [|discriminate].
  rewrite bind_Ok in Hok.
  destruct (wavOfSamples mixed.1 mixed.2) as [bytes|e] eqn:Hb; [|discriminate].
  assert (Hw1 : files w1 = <[outputWavPath params := bytes]> (files w)).
  { unfold w1. now rewrite compose_files, Hmix, Hb. }
  assert (Hm : (mixTimeline params w1).2 = Ok mixed).
  { rewrite <- Hmix. symmetry. apply mixTimeline_agree. intros seg Hin.
    rewrite Hw1, lookup_insert_ne; [reflexivity|].
    intros Heq. exact (Hpaths seg Hin (eq_sym Heq)). }
  split.
  - now rewrite compose_result, Hm, bind_Ok, Hb.
  - rewrite compose_files, Hm, Hb, Hw1. apply insert_insert_eq.
Qed.

Lemma compose_idempotent_witness :
  (composeDubbedTimeline (clipParams [segA; segB]) clipWorld).2 = Ok tt /\
  files (composeDubbedTimeline (clipParams [segA; segB])
           (composeDubbedTimeline (clipParams [segA; segB]) clipWorld).1).1 =
  files (composeDubbedTimeline (clipParams [segA; segB]) clipWorld).1.
Proof.
  assert (H : (composeDubbedTimeline (clipParams [segA; segB]) clipWorld).2 = Ok tt)
    by (vm_compute; reflexivity).
  split; [exact H|].
  apply (compose_idempotent (clipParams [segA; segB]) clipWorld H).
  intros seg Hin. apply elem_of_cons in Hin as [->|Hin]; [discriminate|].
  apply list_elem_of_singleton in Hin as ->. discriminate.
Defined.

(** ** Room for a segment's audio *)

Lemma resampleLinear_len_bound (samples : list Z) (r sr : Z) :
  0 < r -> 0 < sr ->
  exists src, resampleLinear samples r sr = Ok src /\
    (r = sr -> src = samples) /\
    (len src = 1 \/
     (inject_Z (len src) <= inject_Z (len samples) * (inject_Z sr / inject_Z r) + (1 # 2))%Q).
Proof.
  intros Hr Hsr. destruct (Z.eq_dec r sr) as [->|Hd].
  - exists samples. rewrite resampleLinear_same. split; [reflexivity|]. split; [reflexivity|].
    right. assert (inject_Z sr / inject_Z sr == 1)%Q as ->
      by (field; apply inject_Z_nonzero; lia). lra.
  - destruct (resampleLinear samples r sr) as [src|e] eqn:Hs.
    2:{ rewrite resampleLinear_general in Hs by lia. discriminate. }
    exists src. split; [reflexivity|]. split; [intros; contradiction|].
    destruct (resample_general_lookup samples r sr src Hd ltac:(lia) ltac:(lia) Hs) as [Hlen _].
    cbv zeta in Hlen. rewrite Hlen.
    destruct (Z.max_spec 1 (Math_round (inject_Z (len samples) * (inject_Z sr / inject_Z r))))
      as [[_ ->]|[_ ->]]; [right; apply Math_round_below|left; reflexivity].
Qed.

(** X25. A segment that starts at or after time 0 and whose [durationSec]
    is the length of its audio (the number of samples of its file over the
    file's rate, as [synthesizeSegments] computes it) is not cut short by
    the end of the timeline: at most one resampled sample falls beyond it,
    and none when the file is already at the target rate, where the
    segment is limited by its window alone. *)
Theorem segment_audio_fits (fs : gmap string (list byte)) (sr : Z) (md : option Q)
    (first : SynthesizedSegment) (rest : list SynthesizedSegment)
    (seg : SynthesizedSegment) (W : list byte) (wav : WavReadResult) :
  seg ∈ first :: rest -> 0 < sr -> (0 <= startSec seg)%Q ->
  fs !! wavPath seg = Some W -> parseWav W = Ok wav -> 0 < sampleRate wav ->
  (durationSec seg == inject_Z (len (samples wav)) / inject_Z (sampleRate wav))%Q ->
  let total := totalSamplesOf sr md first rest in
  exists src, sourceOf fs sr seg = Ok src /\
    segmentStartIndex sr seg + len src <= total + 1 /\
    (sampleRate wav = sr ->
       src = samples wav /\
       segmentStartIndex sr seg + len src <= total /\
       writableCount sr total seg src = Z.min (len src) (targetWindowSamples sr seg)).
Proof.
  intros Hin Hsr Hstart HW Hp Hr Hdur total.
  destruct (resampleLinear_len_bound (samples wav) (sampleRate wav) sr Hr Hsr)
    as (src & Hsrc & Hsame & Hlen).
  exists src. split.
  { unfold sourceOf. rewrite HW, Hp, bind_Ok. exact Hsrc. }
  pose proof (totalSamples_covers sr md first rest ltac:(lia)) as Hcov.
  fold total in Hcov. unfold durationCandidates in Hcov.
  apply Forall_cons in Hcov as [_ Hcov]. apply Forall_app in Hcov as [_ Hcov].
  rewrite Forall_fmap, Forall_forall in Hcov. specialize (Hcov seg Hin).
  cbn in Hcov. unfold coversSec in Hcov.
  pose proof (inject_Z_pos sr Hsr) as Hsrq.
  pose proof (inject_Z_pos (sampleRate wav) Hr) as Hrq.
  pose proof (inject_Z_nonneg (len (samples wav)) (len_nonneg _)) as Hnq.
  set (a := (startSec seg * inject_Z sr)%Q) in *.
  set (b := (inject_Z (len (samples wav)) * (inject_Z sr / inject_Z (sampleRate wav)))%Q) in *.
  assert (Hab : (a + b <= inject_Z total)%Q).
  { eapply Qle_trans; [|exact Hcov]. unfold a, b. rewrite Hdur.
    apply Qle_lteq. right. field. apply inject_Z_nonzero. lia. }
  assert (Ha0 : (0 <= a)%Q) by (unfold a; apply Qmult_le_0_compat; lra).
  assert (Hb0 : (0 <= b)%Q).
  { unfold b. apply Qmult_le_0_compat; [assumption|]. apply Qle_shift_div_l; lra. }
  assert (Hst : segmentStartIndex sr seg = Math_round a).
  { unfold segmentStartIndex. fold a. apply Z.max_r.
    apply Math_round_ge. exact Ha0. }
  pose proof (Math_round_below a) as Hra.
  split; [|intros Heq; specialize (Hsame Heq); subst src; split; [reflexivity|]].
  - rewrite Hst. destruct Hlen as [->|Hlen].
    + assert (Math_round a <= total); [|lia]. apply Math_round_le. lra.
    + rewrite Zle_Qle, !inject_Z_plus. change (inject_Z 1) with 1%Q. lra.
  - assert (Hfit : segmentStartIndex sr seg + len (samples wav) <= total).
    { rewrite Hst.
      assert (Math_round a <= total - len (samples wav)); [|lia].
      apply Math_round_le. unfold Z.sub. rewrite inject_Z_plus, inject_Z_opp.
      assert (b == inject_Z (len (samples wav)))%Q as Hb.
      { unfold b. rewrite Heq. field. apply inject_Z_nonzero. lia. }
      rewrite Hb in Hab. lra. }
    split; [exact Hfit|]. unfold writableCount. cbv zeta. lia.
Qed.

Lemma segment_audio_fits_witness :
  segA ∈ [segA; segB] /\ (0 <= startSec segA)%Q /\
  (durationSec segA == inject_Z 7 / inject_Z 10)%Q /\
  writableCount 10 (totalSamplesOf 10 (Some 3%Q) segA [segB]) segA [30000; 30000; 3; 4; 5; 6; 7]
    = Z.min 7 (targetWindowSamples 10 segA).
Proof.
  assert (H1 : segA ∈ [segA; segB]) by left.
  assert (H2 : (0 <= startSec segA)%Q) by (vm_compute; discriminate).
  assert (H3 : (durationSec segA == inject_Z 7 / inject_Z 10)%Q) by reflexivity.
  split; [exact H1|]. split; [exact H2|]. split; [exact H3|].
  destruct (segment_audio_fits (files clipWorld) 10 (Some 3%Q) segA [segB] segA clipA
              {| sampleRate := 10; channels := 1; bitsPerSample := 16;
                 samples := [30000; 30000; 3; 4; 5; 6; 7] |}
              H1 ltac:(lia) H2 eq_refl ltac:(vm_compute; reflexivity) ltac:(cbn; lia) H3)
    as (src & Hs & _ & Hsame).
  destruct (Hsame eq_refl) as (-> & _ & Hw). exact Hw.
Defined.

(** ** The fixture's buffers *)

Lemma zeros_add (a b : Z) : 0 <= a -> 0 <= b -> zeros (a + b) = zeros a ++ zeros b.
Proof.
  intros Ha Hb. unfold zeros. rewrite Z2Nat.inj_add by assumption. apply replicate_add.
Qed.

Lemma totalLength_fold (buffers : list (list Z)) : forall s,
  fold_left (fun sum buffer => sum + len buffer) buffers s = s + len (concat buffers).
Proof.
  induction buffers as [|b bs IH]; intros s; cbn [fold_left concat].
  - unfold len. cbn. lia.
  - rewrite IH, len_app. lia.
Qed.

Lemma typedArraySet_fill (done b : list Z) (r : Z) :
  0 <= r ->
  Fixture.typedArraySet (done ++ zeros (len b + r)) b (len done) =
    Ok ((done ++ b) ++ zeros r).
Proof.
  intros Hr. unfold Fixture.typedArraySet.
  pose proof (len_nonneg done) as Hd. pose proof (len_nonneg b) as Hb.
  destruct (Z.ltb_spec (len done) 0); [lia|].
  rewrite len_app. unfold len at 2. rewrite zeros_length, Z2Nat.id by lia.
  destruct (Z.ltb_spec (len done + (len b + r)) (len done + len b)); [lia|].
  cbn [orb]. f_equal.
  unfold len. rewrite Nat2Z.id.
  rewrite take_app_length.
  rewrite <- Nat2Z.inj_add, Nat2Z.id.
  rewrite drop_app_ge by lia.
  replace (length done + length b - length done)%nat with (length b) by lia.
  fold (len b). rewrite zeros_add by lia.
  rewrite drop_app_length'; [|rewrite zeros_length; unfold len; lia].
  now rewrite <- app_assoc.
Qed.

Lemma appendBuffers_loop (bs : list (list Z)) : forall done,
  fold_left
    (fun st buffer =>
       '(merged, offset) ← st;
       merged' ← Fixture.typedArraySet merged buffer offset;
       Ok (merged', offset + len buffer))
    bs (Ok (done ++ zeros (len (concat bs)), len done))
  = Ok (done ++ concat bs, len done + len (concat bs)).
Proof.
  induction bs as [|b bs IH]; intros done.
  - cbn. unfold len at 2. cbn. now rewrite Z.add_0_r.
  - cbn [fold_left concat]. rewrite bind_Ok. cbn beta iota.
    rewrite len_app. rewrite typedArraySet_fill by apply len_nonneg.
    rewrite bind_Ok. rewrite <- (len_app done b).
    rewrite IH. rewrite <- app_assoc. rewrite !len_app. f_equal. f_equal. lia.
Qed.

Lemma silence_spec (durationSec : Q) (sampleRate : Z) :
  1 <= len (Fixture.silence durationSec sampleRate) /\
  Forall (fun x => x = 0) (Fixture.silence durationSec sampleRate).
Proof.
  unfold Fixture.silence. cbv zeta. split.
  - unfold len. rewrite zeros_length. lia.
  - unfold zeros. apply Forall_replicate. reflexivity.
Qed.

Lemma fixture_clamp16_spec (value : Q) :
  int16 (Fixture.clamp16 value) /\
  (int16 (Math_round value) -> Fixture.clamp16 value = Math_round value).
Proof. unfold Fixture.clamp16, int16. lia. Qed.

(** X26. [appendBuffers] never fails: it returns the buffers joined in
    order, and the length of the result is the sum of their lengths. *)
Theorem appendBuffers_concat (buffers : list (list Z)) :
  Fixture.appendBuffers buffers = Ok (concat buffers) /\
  len (concat buffers) = sumZ (map len buffers).
Proof.
  split.
  - unfold Fixture.appendBuffers. cbv zeta. rewrite totalLength_fold, Z.add_0_l.
    pose proof (appendBuffers_loop buffers []) as H. cbn [app] in H.
    change (len (@nil Z)) with 0 in H. rewrite H. reflexivity.
  - unfold sumZ. induction buffers as [|b bs IH]; [reflexivity|].
    cbn [concat map fold_right]. rewrite len_app, IH. reflexivity.
Qed.

(** ** Voices for speakers *)

Lemma orderedFrom_spec (xs : list string) : forall seen,
  NoDup seen ->
  NoDup (fold_left Tts.setAdd xs seen) /\
  (forall x, x ∈ fold_left Tts.setAdd xs seen <-> x ∈ seen \/ x ∈ xs) /\
  exists suffix, fold_left Tts.setAdd xs seen = seen ++ suffix.
Proof.
  induction xs as [|y xs IH]; intros seen Hnd; cbn [fold_left].
  - split; [assumption|]. split; [|exists []; now rewrite app_nil_r].
    intros x. split; [now left|]. intros [H|H]; [assumption|inversion H].
  - unfold Tts.setAdd at 2 4 6. destruct (decide (y ∈ seen)) as [Hin|Hnin].
    + destruct (IH seen Hnd) as (H1 & H2 & H3). split; [assumption|]. split; [|assumption].
      intros x. rewrite H2, elem_of_cons. split; [tauto|].
      intros [H|[->|H]]; auto.
    + destruct (IH (seen ++ [y])) as (H1 & H2 & suffix & H3).
      { apply NoDup_app. split; [assumption|]. split; [|apply NoDup_singleton].
        intros x Hx Hy. apply list_elem_of_singleton in Hy as ->. contradiction. }
      split; [assumption|]. split.
      * intros x. rewrite H2, elem_of_app, list_elem_of_singleton, elem_of_cons. tauto.
      * exists (y :: suffix). rewrite H3, <- app_assoc. reflexivity.
Qed.

Lemma orderedSet_cons (x : string) (rest : list string) :
  exists tl, Tts.orderedSet (x :: rest) = x :: tl /\ NoDup (x :: tl) /\
    (forall y, y ∈ x :: tl <-> y ∈ x :: rest) /\
    head tl = Tts.secondSpeaker (x :: rest).
Proof.
  unfold Tts.orderedSet. cbn [fold_left]. unfold Tts.setAdd at 2.
  rewrite decide_False by (intros H; inversion H). cbn [app].
  destruct (orderedFrom_spec rest [x] (NoDup_singleton x)) as (H1 & H2 & tl & H3).
  exists tl. rewrite H3 in *. cbn [app] in *. split; [reflexivity|]. split; [assumption|].
  split.
  - intros y. rewrite H2, list_elem_of_singleton, elem_of_cons. tauto.
  - clear H1 H2. cbn [Tts.secondSpeaker]. revert tl H3.
    induction rest as [|y rest IH]; intros tl H3; cbn [fold_left find] in *.
    + injection H3 as <-. reflexivity.
    + unfold Tts.setAdd at 2 in H3. destruct (decide (y = x)) as [->|Hne].
      * rewrite decide_True in H3 by left.
        rewrite bool_decide_eq_false_2 by (intros H; now apply H). now apply IH.
      * rewrite decide_False in H3 by (rewrite list_elem_of_singleton; exact Hne).
        rewrite bool_decide_eq_true_2 by exact Hne.
        destruct (orderedFrom_spec rest ([x] ++ [y])) as (_ & _ & suffix & H4).
        { apply NoDup_cons. split; [rewrite list_elem_of_singleton; congruence|apply NoDup_singleton]. }
        rewrite H4 in H3. cbn [app] in H3. injection H3 as <-. reflexivity.
Qed.

Lemma assign_lookup (m : gmap string string) (key value sp : string) :
  Tts.assign m key value !! sp =
    if decide (sp = key /\ sp <> "__proto__"%string) then Some value else m !! sp.
Proof.
  unfold Tts.assign. destruct (decide (key = "__proto__"%string)) as [->|Hk].
  - rewrite decide_False by tauto. reflexivity.
  - destruct (decide (sp = key)) as [->|Hne].
    + rewrite decide_True by tauto. apply lookup_insert_eq.
    + rewrite decide_False by tauto. now apply lookup_insert_ne.
Qed.

Lemma assign_all_lookup (l : list string) (value sp : string) : forall m : gmap string string,
  fold_left (fun m s => Tts.assign m s value) l m !! sp =
    if decide (sp ∈ l /\ sp <> "__proto__"%string) then Some value else m !! sp.
Proof.
  induction l as [|a l IH]; intros m; cbn [fold_left].
  - rewrite decide_False; [reflexivity|]. intros [H _]. inversion H.
  - rewrite IH, assign_lookup.
    destruct (decide (sp ∈ l /\ sp <> "__proto__"%string)) as [[H1 H2]|H].
    + rewrite decide_True; [reflexivity|]. split; [now right|assumption].
    + destruct (decide (sp = a /\ sp <> "__proto__"%string)) as [[-> H2]|H'].
      * rewrite decide_True; [reflexivity|]. split; [left|assumption].
      * rewrite decide_False; [reflexivity|]. rewrite elem_of_cons. tauto.
Qed.

(** X27. [buildSpeakerVoiceMap] gives a voice to every speaker that occurs
    in the segments and to no one else, as own properties of the object it
    returns (the key "__proto__" apart, which an assignment does not
    store): the second speaker to appear gets [voiceB], or [voiceA] when
    [voiceB] is not given, and every other speaker gets [voiceA]. *)
Theorem buildSpeakerVoiceMap_lookup (segments : list Tts.Segment) (voiceA : string)
    (voiceB : option string) (sp : string) :
  Tts.buildSpeakerVoiceMap segments voiceA voiceB !! sp =
    if decide (sp ∈ map Tts.speaker segments /\ sp <> "__proto__"%string)
    then Some (if decide (Tts.secondSpeaker (map Tts.speaker segments) = Some sp)
               then default voiceA voiceB else voiceA)
    else None.
Proof.
  unfold Tts.buildSpeakerVoiceMap. cbv zeta.
  destruct (map Tts.speaker segments) as [|x rest].
  { cbn. rewrite decide_False; [apply lookup_empty|]. intros [H _]. inversion H. }
  destruct (orderedSet_cons x rest) as (tl & -> & Hnd & Hel & Hsec).
  rewrite <- Hsec. destruct tl as [|s1 tl'].
  - cbn [drop fold_left head]. rewrite assign_lookup, lookup_empty.
    assert (Hx : sp ∈ x :: rest <-> sp = x).
    { rewrite <- Hel. apply list_elem_of_singleton. }
    destruct (decide (sp = x /\ sp <> "__proto__"%string)) as [[-> H2]|H].
    + rewrite decide_True by (split; [apply Hx; reflexivity|assumption]).
      rewrite decide_False by discriminate. reflexivity.
    + rewrite decide_False; [reflexivity|]. rewrite Hx. exact H.
  - cbn [drop head]. rewrite assign_all_lookup, !assign_lookup, lookup_empty.
    apply NoDup_cons in Hnd as [Hx Hnd]. apply NoDup_cons in Hnd as [Hs1 Hnd].
    assert (Hxs1 : x <> s1) by (intros ->; apply Hx; left).
    assert (Hin : sp ∈ x :: rest <-> sp = x \/ sp = s1 \/ sp ∈ tl').
    { rewrite <- Hel, !elem_of_cons. tauto. }
    destruct (decide (sp = "__proto__"%string)) as [Hp|Hp].
    { rewrite !decide_False by tauto. reflexivity. }
    destruct (decide (sp ∈ tl')) as [Ht|Ht].
    { rewrite decide_True by tauto. rewrite decide_True by (split; [apply Hin|]; tauto).
      rewrite decide_False; [reflexivity|]. intros [= ->]. contradiction. }
    rewrite (decide_False (P := sp ∈ tl' /\ _)) by tauto.
    destruct (decide (sp = s1)) as [->|Hn1].
    { rewrite decide_True by tauto. rewrite decide_True by (split; [apply Hin|]; tauto).
      rewrite decide_True by reflexivity. reflexivity. }
    rewrite (decide_False (P := sp = s1 /\ _)) by tauto.
    destruct (decide (sp = x)) as [->|Hnx].
    { rewrite decide_True by tauto. rewrite decide_True by (split; [apply Hin|]; tauto).
      rewrite decide_False; [reflexivity|]. intros [= ->]. contradiction. }
    rewrite decide_False by tauto. rewrite decide_False; [reflexivity|].
    rewrite Hin. tauto.
Qed.

(** ** Retrying *)

Lemma backoffLog_S (k : nat) :
  Tts.backoffLog (S k) = Tts.backoffLog k ++ [Tts.EvCall; Tts.EvSleep (500 * 2 ^ Z.of_nat k)].
Proof.
  unfold Tts.backoffLog. rewrite seq_S, flat_map_app. cbn [flat_map Nat.add].
  now rewrite app_nil_r.
Qed.

Section RetryLoop.
Context {T E : Type}.
Variable outcome : nat -> E + T.

(** The loop after [calls] failed attempts, when the first success is the
    call number [k]. *)
Lemma retryFrom_success (m : Z) (k : nat) (v : T) :
  (forall i, (i < k)%nat -> exists e, outcome i = inl e) -> outcome k = inr v ->
  forall (d : nat) (calls remaining : nat) lastError,
    (calls + d = k)%nat -> (d < remaining)%nat -> Z.of_nat k < m ->
    Tts.retryFrom outcome remaining (Z.of_nat calls + 1) m lastError calls (Tts.backoffLog calls) =
      (Tts.backoffLog k ++ [Tts.EvCall], inr v).
Proof.
  intros Hfail Hok. induction d as [|d IH]; intros calls remaining lastError Hk Hrem Hm.
  - replace calls with k by lia. destruct remaining as [|remaining]; [lia|].
    cbn [Tts.retryFrom]. now rewrite Hok.
  - destruct remaining as [|remaining]; [lia|]. cbn [Tts.retryFrom].
    destruct (Hfail calls ltac:(lia)) as [e He]. rewrite He.
    destruct (Z.eqb_spec (Z.of_nat calls + 1) m) as [Heq|Hne]; [lia|]. cbv zeta.
    replace (Z.of_nat calls + 1 - 1) with (Z.of_nat calls) by lia.
    rewrite <- backoffLog_S.
    replace (Z.of_nat calls + 1 + 1) with (Z.of_nat (S calls) + 1) by lia.
    apply IH; lia.
Qed.

(** The loop when every call fails. *)
Lemma retryFrom_failure (m : nat) (e : E) :
  (forall i, (i < m)%nat -> exists e', outcome i = inl e') ->
  outcome (Nat.pred m) = inl e ->
  forall (d : nat) (calls remaining : nat) lastError,
    (calls + d = Nat.pred m)%nat -> (d < remaining)%nat -> (0 < m)%nat ->
    Tts.retryFrom outcome remaining (Z.of_nat calls + 1) (Z.of_nat m) lastError calls
      (Tts.backoffLog calls) =
      (Tts.backoffLog (Nat.pred m) ++ [Tts.EvCall], inl (Some e)).
Proof.
  intros Hfail Hlast. induction d as [|d IH]; intros calls remaining lastError Hk Hrem Hm.
  - replace calls with (Nat.pred m) by lia. destruct remaining as [|remaining]; [lia|].
    cbn [Tts.retryFrom]. rewrite Hlast.
    destruct (Z.eqb_spec (Z.of_nat (Nat.pred m) + 1) (Z.of_nat m)) as [Heq|Hne]; [reflexivity|lia].
  - destruct remaining as [|remaining]; [lia|]. cbn [Tts.retryFrom].
    destruct (Hfail calls ltac:(lia)) as [e' He]. rewrite He.
    destruct (Z.eqb_spec (Z.of_nat calls + 1) (Z.of_nat m)) as [Heq|Hne]; [lia|]. cbv zeta.
    replace (Z.of_nat calls + 1 - 1) with (Z.of_nat calls) by lia.
    rewrite <- backoffLog_S.
    replace (Z.of_nat calls + 1 + 1) with (Z.of_nat (S calls) + 1) by lia.
    apply IH; lia.
Qed.

(** X28. [withRetry] calls the operation until it succeeds, at most
    [maxAttempts] times: it returns the value of the first call that
    succeeds, having waited 500 ms after the first failure and twice as
    long after each further one; when all [maxAttempts] calls fail it
    throws the error of the last call without waiting after it; and with
    no attempt allowed it throws [undefined] without calling. *)
Theorem withRetry_outcomes (maxAttempts : Z) :
  (maxAttempts <= 0 -> Tts.withRetry outcome maxAttempts = ([], inl None))
  /\ (forall (k : nat) (v : T),
        Z.of_nat k < maxAttempts ->
        (forall i, (i < k)%nat -> exists e, outcome i = inl e) -> outcome k = inr v ->
        Tts.withRetry outcome maxAttempts = (Tts.backoffLog k ++ [Tts.EvCall], inr v))
  /\ (forall (e : E),
        1 <= maxAttempts ->
        (forall i, Z.of_nat i < maxAttempts -> exists e', outcome i = inl e') ->
        outcome (Z.to_nat (maxAttempts - 1)) = inl e ->
        Tts.withRetry outcome maxAttempts =
          (Tts.backoffLog (Z.to_nat (maxAttempts - 1)) ++ [Tts.EvCall], inl (Some e))).
Proof.
  unfold Tts.withRetry. split; [|split].
  - intros Hm. replace (Z.to_nat maxAttempts) with 0%nat by lia. reflexivity.
  - intros k v Hk Hfail Hok.
    apply (retryFrom_success maxAttempts k v Hfail Hok k 0%nat (Z.to_nat maxAttempts) None); lia.
  - intros e Hm Hfail Hlast.
    replace (Z.to_nat (maxAttempts - 1)) with (Nat.pred (Z.to_nat maxAttempts)) in * by lia.
    rewrite <- (Z2Nat.id maxAttempts) at 2 by lia.
    assert (Hfail' : forall i, (i < Z.to_nat maxAttempts)%nat -> exists e', outcome i = inl e')
      by (intros i Hi; apply Hfail; lia).
    apply (retryFrom_failure (Z.to_nat maxAttempts) e Hfail' Hlast
             (Nat.pred (Z.to_nat maxAttempts)) 0%nat (Z.to_nat maxAttempts) None); lia.
Qed.
End RetryLoop.

Lemma withRetry_outcomes_witness :
  Tts.withRetry (fun i => if (i <? 2)%nat then inl "busy"%string else inr 7) 3 =
    ([Tts.EvCall; Tts.EvSleep 500; Tts.EvCall; Tts.EvSleep 1000; Tts.EvCall], inr 7).
Proof.
  destruct (withRetry_outcomes (fun i => if (i <? 2)%nat then inl "busy"%string else inr 7) 3)
    as (_ & H & _).
  apply (H 2%nat 7); [lia| |reflexivity].
  intros i Hi. exists "busy"%string. destruct i as [|[|i]]; [reflexivity|reflexivity|lia].
Defined.
